(** * QuizIt: spaced-repetition scheduling, ranking, test sessions, statistics

    A shallow embedding of the algorithmic core of the QuizIt flashcard
    application:

    - [SRSAlgorithm] (js/srs-algorithm.js): the SM-2 scheduler, the priority
      ranking, the card status classifier and the simplified-rating mapping;
    - [shuffleArray] (js/utils.js): the Fisher-Yates shuffle;
    - [StudyModesManager] (js/srs-algorithm.js, second half): the test mode of
      a study session, with its replenishment of the question deck;
    - [QuizItDB.getSetStatistics] (the IndexedDB wrapper): set statistics.

    Further parts of the same files: [getRecommendedSession]; the
    flashcards, learn and match modes of [StudyModesManager];
    [calculateSimilarity], [isAnswerCorrect], [escapeHtml] and the
    preferences kept in [localStorage] (js/utils.js); [getCardStatistics],
    [deleteSet] and [deleteCard] (the IndexedDB wrapper).

    JavaScript numbers are IEEE 754 binary64 values; they are modelled by
    Rocq's primitive floats, whose operations the kernel evaluates with the
    same rounding.  Array lengths, loop counters, array indices and database
    keys are integers in the source and are modelled by [nat] and [Z].

    The code reads the clock ([Date.now()]) and draws random numbers
    ([Math.random()]); a function of the model takes the clock values and
    the random draws that its source reads as arguments. *)

From Stdlib Require Import ZArith Floats.
From stdpp Require Import base option fin list sorting gmap strings.
From Stdlib Require Uint63.

Set Warnings "-inexact-float".

Open Scope float_scope.

(** ** JavaScript numbers *)

Module JS.

Definition number := float.

(** The Number value of a mathematical integer (exact below 2^53). *)
Definition number_of_Z (z : Z) : number :=
  SF2Prim (binary_normalize prec emax z 0 false).

Definition number_of_nat (n : nat) : number := number_of_Z (Z.of_nat n).

(** ToBoolean on numbers: [0], [-0] and [NaN] are falsy. *)
Definition truthy (x : number) : bool := negb (is_nan x || is_zero x).

(** [v || d] where [v] is a number or [undefined]/[null] ([None]). *)
Definition or_else (v : option number) (d : number) : number :=
  match v with
  | Some x => if truthy x then x else d
  | None => d
  end.

(** [Math.max(a, b)]: NaN if either is NaN; [+0] is larger than [-0]. *)
Definition Math_max (a b : number) : number :=
  if is_nan a || is_nan b then nan
  else if a <? b then b
  else if b <? a then a
  else if get_sign a then b else a.

(** [Math.min(a, b)]: NaN if either is NaN; [-0] is smaller than [+0]. *)
Definition Math_min (a b : number) : number :=
  if is_nan a || is_nan b then nan
  else if a <? b then a
  else if b <? a then b
  else if get_sign a then a else b.

Definition Math_abs (x : number) : number := abs x.

(** The integer a finite non-integral float is sent to, with the sign of
    the argument kept on a zero result. *)
Definition integral (s : bool) (z : Z) : number :=
  if (z =? 0)%Z then (if s then neg_zero else zero) else number_of_Z z.

(** [Math.floor(x)]. *)
Definition Math_floor (x : number) : number :=
  match Prim2SF x with
  | S754_finite s m e =>
      if (0 <=? e)%Z then x
      else integral s ((if s then Z.neg m else Z.pos m) / 2 ^ (- e))
  | _ => x
  end.

(** [Math.round(x)]: the nearest integer, ties towards +Infinity; the
    value is floor(x + 1/2) computed exactly. *)
Definition Math_round (x : number) : number :=
  match Prim2SF x with
  | S754_finite s m e =>
      if (0 <=? e)%Z then x
      else integral s
             ((2 * (if s then Z.neg m else Z.pos m) + 2 ^ (- e)) / 2 ^ (1 - e))
  | _ => x
  end.

(** [Math.ceil(a / b)] for integers [a] and [b > 0] ([a / b] is exact in
    binary64 for the quarters the session code divides into). *)
Definition ceil_div (a b : Z) : Z := (- ((- a) / b))%Z.

End JS.

Import JS.

(** ** binary64 values

    Notions used to reason about the results of the arithmetic, stated on
    the specification [spec_float] of the primitive floats. *)

Module Binary64.

Local Open Scope Z_scope.

(** [x] is a zero, a finite number or an infinity of sign [s]. *)
Definition signed_as (s : bool) (x : spec_float) : Prop :=
  match x with
  | S754_zero s' | S754_infinity s' | S754_finite s' _ _ => s' = s
  | S754_nan => False
  end.

(** [x] is positive: [0 < x]. *)
Definition SFpos (x : spec_float) : bool := SFltb (S754_zero false) x.

(** [x] is a zero or a finite number. *)
Definition SFfinite0 (x : spec_float) : Prop :=
  match x with
  | S754_zero _ | S754_finite _ _ _ => True
  | _ => False
  end.

(** On numbers, the order of [SFcompare] is the lexicographic order of
    these triples. *)
Definition SFrank (x : spec_float) : Z * Z * Z :=
  match x with
  | S754_nan | S754_zero _ => (0, 0, 0)
  | S754_infinity s => (if s then -2 else 2, 0, 0)
  | S754_finite s m e => if s then (-1, - e, Z.neg m) else (1, e, Z.pos m)
  end.

Definition lex_le (a b : Z * Z * Z) : Prop :=
  a.1.1 < b.1.1
  ∨ a.1.1 = b.1.1 ∧ (a.1.2 < b.1.2 ∨ a.1.2 = b.1.2 ∧ a.2 ≤ b.2).

(** The binary64 number of sign [s] and magnitude [p], an integer below
    2^53: the mantissa is [p] shifted to 53 digits. *)
Definition SFint (s : bool) (p : positive) : spec_float :=
  S754_finite s
    (Z.to_pos (Z.pos p * 2 ^ (53 - Z.pos (digits2_pos p))))
    (Z.pos (digits2_pos p) - 53).

(** The binary64 number of an integer below 2^53 in magnitude. *)
Definition SFZ (z : Z) : spec_float :=
  match z with
  | 0 => S754_zero false
  | Z.pos p => SFint false p
  | Z.neg p => SFint true p
  end.

(** The value of a zero or finite binary64 number, times 2^1100: an
    integer, since no exponent is below -1074. *)
Definition scaled (x : spec_float) : Z :=
  match x with
  | S754_finite s m e => cond_Zopp s (Z.pos m) * 2 ^ (e + 1100)
  | _ => 0
  end.

(** A zero or a finite number. *)
Definition SFnumber (x : spec_float) : bool :=
  match x with S754_zero _ | S754_finite _ _ _ => true | _ => false end.

End Binary64.

Import Binary64.

(** ** Cards *)

(** A card as stored in the [cards] object store.  [id] is the
    auto-increment key; the four scheduling fields are numbers. *)
Record Card := mkCard {
  id : Z;
  front : string;
  back : string;
  easeFactor : number;
  interval : number;
  repetitions : number;
  nextReview : number
}.

(** ** js/srs-algorithm.js: class SRSAlgorithm *)

Module SRSAlgorithm.

(** [calculateNextReview(card, quality)].  The function calls [Date.now()]
    once; [now] is the value that call returns. *)
Definition calculateNextReview (now : number) (card : Card) (quality : number) : Card :=
  let easeFactor0 := easeFactor card in
  let interval0 := interval card in
  let repetitions0 := repetitions card in
  let quality := Math_max 0 (Math_min 5 quality) in
  let '(repetitions1, interval1) :=
    if quality <? 3 then (0, 0)
    else
      let repetitions1 := repetitions0 + 1 in
      if repetitions1 =? 1 then (repetitions1, 1)
      else if repetitions1 =? 2 then (repetitions1, 6)
      else (repetitions1, Math_round (interval0 * easeFactor0)) in
  let easeFactor1 :=
    easeFactor0 + (0.1 - (5 - quality) * (0.08 + (5 - quality) * 0.02)) in
  let easeFactor2 := Math_max 1.3 easeFactor1 in
  let nextReview1 := now + (interval1 * 24 * 60 * 60 * 1000) in
  {| id := id card; front := front card; back := back card;
     easeFactor := easeFactor2;
     interval := interval1;
     repetitions := repetitions1;
     nextReview := nextReview1 |}.

(** [getCardPriority(card)]; [now] is the value of its [Date.now()]. *)
Definition getCardPriority (now : number) (card : Card) : number :=
  let daysSinceReview := (now - nextReview card) / (24 * 60 * 60 * 1000) in
  let priority := 0 in
  let priority :=
    if 0 <? daysSinceReview then priority - daysSinceReview * 10
    else priority + Math_abs daysSinceReview in
  let priority := priority + (3 - easeFactor card) * 5 in
  let priority := priority + (10 - repetitions card) * 0.5 in
  priority.

(** [Array.prototype.sort(comparefn)].

    A call of [comparefn] may read the world outside, here the clock: [T]
    is what one call reads, [comparefn t a b] the value the call returns
    when it reads [t], and [calls] lists what the calls of one sort can
    read.

    ECMAScript fixes the result only for a consistent comparator
    ([consistent], the conditions of the standard over the elements of the
    array).  The sort is then stable and its result is the one
    [stable_sort] computes by insertion, where an element moves behind a
    later one only if [comparefn] puts it strictly after.  For every other
    comparator the order is implementation-defined: the result holds the
    same elements, in the order the engine gives them ([order]).  [calls]
    is empty only for a sort that never calls [comparefn]. *)
Record Engine (A : Type) := mkEngine {
  order : list A → list A;
  order_Permutation : ∀ l, order l ≡ₚ l
}.
Arguments order {A} _ _.
Arguments order_Permutation {A} _ _.

(** An engine that leaves the array as it is. *)
Definition keep_order {A} : Engine A :=
  {| order := λ l, l; order_Permutation := λ l, Permutation_refl l |}.

Section ArraySort.
Context {A T : Type}.

Section Comparator.
Context (comparefn : A → A → number).

Fixpoint sort_insert (x : A) (l : list A) : list A :=
  match l with
  | [] => [x]
  | y :: l' =>
      if 0 <? comparefn x y then y :: sort_insert x l' else x :: y :: l'
  end.

Fixpoint stable_sort (l : list A) : list A :=
  match l with
  | [] => []
  | x :: l' => sort_insert x (stable_sort l')
  end.

(** [x] may stand before [y]: [comparefn(x, y)] is not positive. *)
Definition in_order (x y : A) : Prop := (0 <? comparefn x y) = false.

(** The relations of the standard: [a <CF b], [a =CF b] and [a >CF b]. *)
Definition ltCF (a b : A) : bool := comparefn a b <? 0.
Definition eqCF (a b : A) : bool := comparefn a b =? 0.
Definition gtCF (a b : A) : bool := 0 <? comparefn a b.

(** [=CF] is reflexive and symmetric, and [=CF], [<CF] and [>CF] are
    transitive, on the elements of [l]. *)
Definition ordering (l : list A) : bool :=
  forallb (λ a,
    eqCF a a
    && forallb (λ b,
         implb (eqCF a b) (eqCF b a)
         && forallb (λ c,
              implb (eqCF a b && eqCF b c) (eqCF a c)
              && implb (ltCF a b && ltCF b c) (ltCF a c)
              && implb (gtCF a b && gtCF b c) (gtCF a c)) l) l) l.
End Comparator.

Context (comparefn : T → A → A → number).

(** Every call of [comparefn] on a pair of elements of [l] returns the
    value of the call that reads [t], and that value is not NaN. *)
Definition same_value (calls : list T) (t : T) (l : list A) : bool :=
  forallb (λ a,
    forallb (λ b,
      negb (is_nan (comparefn t a b))
      && forallb (λ t', Leibniz.eqb (comparefn t' a b) (comparefn t a b))
           calls) l) l.

Definition consistent (calls : list T) (t : T) (l : list A) : bool :=
  same_value calls t l && ordering (comparefn t) l.

Definition Array_sort (engine : Engine A) (calls : list T) (l : list A) : list A :=
  match calls with
  | t :: _ =>
      if consistent calls t l then stable_sort (comparefn t) l
      else order engine l
  | [] => order engine l
  end.
End ArraySort.

(** [sortCardsByPriority(cards)].  The comparator calls [getCardPriority]
    on both cards, and each of the two calls reads [Date.now()]: [t.1] is
    the reading of the call on [a], [t.2] the reading of the call on [b]. *)
Definition comparePriority (t : number * number) (a b : Card) : number :=
  getCardPriority t.1 a - getCardPriority t.2 b.

(** What one run of [sortCardsByPriority] meets: the values that
    [Date.now()] shows while the sort runs, in the order in which it shows
    them, and the engine.  A later run meets later readings. *)
Record Sorting := mkSorting {
  readings : list number;
  engine : Engine Card
}.

(** The readings that the two [getCardPriority] calls of one comparison can
    meet: the second call is not earlier than the first. *)
Fixpoint comparisons (readings : list number) : list (number * number) :=
  match readings with
  | [] => []
  | t :: later =>
      (t, t) :: ((λ t', (t, t')) <$> later) ++ comparisons later
  end.

(** The clock shows [now], and no other value, while the run [s] lasts. *)
Definition shows_only (s : Sorting) (now : number) : Prop :=
  readings s ≠ [] ∧ Forall (λ t, t = now) (readings s).

(** A run during which the clock shows [now] and nothing else. *)
Definition steady (now : number) : Sorting :=
  {| readings := [now]; engine := keep_order |}.

(** [cards.sort(...)] with that comparator, in the run [s]. *)
Definition sortCardsByPriority (s : Sorting) (cards : list Card) : list Card :=
  Array_sort comparePriority (engine s) (comparisons (readings s)) cards.

(** [isCardDue(card)]. *)
Definition isCardDue (now : number) (card : Card) : bool :=
  nextReview card <=? now.

Record StudyStatus := mkStudyStatus {
  status : string;
  difficulty : string;
  mastery : number;
  isNew : bool;
  isDue : bool;
  daysSinceReview : number
}.

(** [getCardStudyStatus(card)].  [now] is the clock value read inside
    [isCardDue], [now'] the one read for [daysSinceReview].  (The
    [nextReviewDate] field, a [Date] object, is left out.) *)
Definition getCardStudyStatus (now now' : number) (card : Card) : StudyStatus :=
  let isNew := repetitions card =? 0 in
  let isDue := isCardDue now card in
  let daysSinceReview :=
    Math_floor ((now' - nextReview card) / (24 * 60 * 60 * 1000)) in
  let status :=
    if isNew then "new"%string
    else if isDue then "review"%string
    else "learning"%string in
  let difficulty :=
    if 2.5 <=? easeFactor card then "easy"%string
    else if 2.0 <=? easeFactor card then "medium"%string
    else "hard"%string in
  let mastery :=
    if repetitions card =? 0 then 0
    else if repetitions card <? 3 then 33
    else if repetitions card <? 6 then 66
    else 100 in
  {| status := status; difficulty := difficulty; mastery := mastery;
     isNew := isNew; isDue := isDue;
     daysSinceReview := if isDue then daysSinceReview else - daysSinceReview |}.

(** The object literal [{1: 0, 2: 3, 3: 4, 4: 5}]: property keys with
    their values.  A number [k] used as a key selects the entry whose
    key it equals. *)
Definition mapping : list (number * number) :=
  [(1, 0); (2, 3); (3, 4); (4, 5)].

Fixpoint get_property (o : list (number * number)) (k : number) : option number :=
  match o with
  | [] => None
  | (k', v) :: o' => if k =? k' then Some v else get_property o' k
  end.

(** [mapSimpleRatingToQuality(simpleRating)]: [mapping[simpleRating] || 3]. *)
Definition mapSimpleRatingToQuality (simpleRating : number) : number :=
  or_else (get_property mapping simpleRating) 3.

Record RecommendedSession := mkRecommendedSession {
  totalCards : nat;
  dueCards : nat;
  newCards : nat;
  learningCards : nat;
  recommendedDue : number;
  recommendedNew : number;
  recommendedTotal : number
}.

(** [array.filter(callback)] where the callback reads the clock: the
    [i]-th call made during the filter finds the reading [clock i]. *)
Fixpoint filter_at (clock : nat → number) (test : number → Card → bool)
    (cards : list Card) : list Card :=
  match cards with
  | [] => []
  | c :: cards' =>
      let rest := filter_at (λ i, clock (S i)) test cards' in
      if test (clock 0%nat) c then c :: rest else rest
  end.

(** [getRecommendedSession(cards)].  [isCardDue] reads the clock at each
    call: [clock i] is the reading at the [i]-th call, the calls of the
    first filter coming before those of the third. *)
Definition getRecommendedSession (clock : nat → number) (cards : list Card)
    : RecommendedSession :=
  let dueCards := filter_at clock isCardDue cards in
  let newCards := filter (λ c, (repetitions c =? 0) = true) cards in
  let learningCards :=
    filter_at (λ i, clock (length cards + i)%nat)
      (λ now c, negb (isCardDue now c) && (0 <? repetitions c)) cards in
  let totalDue := number_of_nat (length dueCards) in
  let totalNew := number_of_nat (length newCards) in
  let recommendedDue := Math_min totalDue 15 in
  let recommendedNew :=
    Math_min totalNew (or_else (Some (Math_floor (recommendedDue / 3))) 5) in
  {| totalCards := length cards;
     dueCards := length dueCards;
     newCards := length newCards;
     learningCards := length learningCards;
     recommendedDue := recommendedDue;
     recommendedNew := recommendedNew;
     recommendedTotal := recommendedDue + recommendedNew |}.

End SRSAlgorithm.

Import SRSAlgorithm.

(** ** js/utils.js: shuffleArray *)

Module Utils.

(** The source of randomness of one call of [shuffleArray]:
    [Math.random()] lies in [0, 1), so
    [Math.floor(Math.random() * (i + 1))] is one of [0, ..., i]. *)
Definition Random := ∀ i : nat, fin (S i).

Section Shuffle.
Context {A : Type}.

(** [[a[i], a[j]] = [a[j], a[i]]].  The loop below only swaps at indices
    [j <= i < length], inside the array. *)
Definition swap (i j : nat) (a : list A) : list A :=
  match a !! i, a !! j with
  | Some x, Some y => <[j := x]> (<[i := y]> a)
  | _, _ => a
  end.

(** The loop [for (i = length - 1; i > 0; i--)].  [rnd i] is the value
    [j] of [Math.floor(Math.random() * (i + 1))] drawn at index [i]. *)
Fixpoint shuffle_from (rnd : Random) (i : nat) (a : list A) : list A :=
  match i with
  | O => a
  | S i' => shuffle_from rnd i' (swap i (rnd i) a)
  end.

(** The contents of the array [shuffleArray] returns. *)
Definition shuffled (rnd : Random) (array : list A) : list A :=
  shuffle_from rnd (length array - 1) array.

(** Arrays are objects: a store maps references to array contents. *)
Definition ref := positive.

Fixpoint shuffle_in_place (rnd : Random) (i : nat) (r : ref)
    (h : gmap ref (list A)) : gmap ref (list A) :=
  match i with
  | O => h
  | S i' => shuffle_in_place rnd i' r (alter (swap i (rnd i)) r h)
  end.

(** [shuffleArray(array)]: [const shuffled = [...array]] allocates a new
    array, the loop swaps inside it, and its reference is returned. *)
Definition shuffleArray (rnd : Random) (array : ref)
    (h : gmap ref (list A)) : option (ref * gmap ref (list A)) :=
  contents ← h !! array;
  let shuffled := fresh (dom h) in
  let h1 := <[shuffled := contents]> h in
  Some (shuffled, shuffle_in_place rnd (length contents - 1) shuffled h1).
End Shuffle.

(** ** js/utils.js: calculateSimilarity, isAnswerCorrect *)

(** [for] loops over a range of indices, in code that can throw: the body
    returns [None] when it throws, and the loop stops there. *)
Fixpoint for_each {St} (body : nat → St → option St) (range : list nat)
    (s : St) : option St :=
  match range with
  | [] => Some s
  | i :: range' => s' ← body i s; for_each body range' s'
  end.

Section Similarity.
(** A string is the list of its code units.  [toLowerCase] and [trim] are
    the methods of the same names. *)
Context {char : Type} `{EqDecision char}.
Context (toLowerCase trim : list char → list char).

(** The matrix is an array of arrays of numbers.  An array is an object
    with its indices as keys; an index without a value reads as
    [undefined].  A cell that holds [undefined] or [NaN] is [None]: in the
    arithmetic below both give [NaN]. *)

(** [matrix[i][j]]; it throws when [matrix[i]] is [undefined]. *)
Definition read (i j : nat) (matrix : gmap nat (gmap nat nat))
    : option (option nat) :=
  row ← matrix !! i; Some (row !! j).

(** [matrix[i][j] = v]; it throws when [matrix[i]] is [undefined]. *)
Definition write (i j : nat) (v : option nat)
    (matrix : gmap nat (gmap nat nat)) : option (gmap nat (gmap nat nat)) :=
  row ← matrix !! i;
  let row' : gmap nat nat :=
    match v with Some x => <[j := x]> row | None => delete j row end in
  Some (<[i := row']> matrix).

(** [x + 1] and [Math.min(a, b, c)] on cells. *)
Definition plus1 (x : option nat) : option nat := S <$> x.

Definition min3 (a b c : option nat) : option nat :=
  a ← a; b ← b; c ← c; Some ((a `min` b) `min` c)%nat.

(** One turn of the inner loop. *)
Definition fill (s1 s2 : list char) (i j : nat)
    (matrix : gmap nat (gmap nat nat)) : option (gmap nat (gmap nat nat)) :=
  if decide (s2 !! (i - 1)%nat = s1 !! (j - 1)%nat) then
    v ← read (i - 1) (j - 1) matrix;
    write i j v matrix
  else
    a ← read (i - 1) (j - 1) matrix;
    b ← read i (j - 1) matrix;
    c ← read (i - 1) j matrix;
    write i j (min3 (plus1 a) (plus1 b) (plus1 c)) matrix.

(** The three loops, and [matrix[s2.length][s1.length]]. *)
Definition levenshtein (s1 s2 : list char) : option (option nat) :=
  let matrix : gmap nat (gmap nat nat) :=
    foldl (λ matrix i, <[i := {[0%nat := i]}]> matrix) ∅
          (seq 0 (S (length s2))) in
  matrix ← for_each (λ j, write 0 j (Some j)) (seq 0 (S (length s1))) matrix;
  matrix ← for_each (λ i, for_each (fill s1 s2 i) (seq 1 (length s1)))
                    (seq 1 (length s2)) matrix;
  read (length s2) (length s1) matrix.

(** [calculateSimilarity(str1, str2)]; [None] when it throws. *)
Definition calculateSimilarity (str1 str2 : list char) : option number :=
  let s1 := trim (toLowerCase str1) in
  let s2 := trim (toLowerCase str2) in
  if decide (s1 = s2) then Some 100
  else if (length s1 =? 0)%nat || (length s2 =? 0)%nat then Some 0
  else
    distance ← levenshtein s1 s2;
    let maxLength := number_of_nat (length s1 `max` length s2) in
    let similarity :=
      match distance with
      | Some d => ((maxLength - number_of_nat d) / maxLength) * 100
      | None => nan
      end in
    Some (Math_round similarity).

(** [isAnswerCorrect(userAnswer, correctAnswer, threshold)]; the callers
    leave [threshold] at its default, 80. *)
Definition isAnswerCorrect (userAnswer correctAnswer : list char)
    (threshold : number) : option bool :=
  if (length userAnswer =? 0)%nat || (length correctAnswer =? 0)%nat
  then Some false
  else
    similarity ← calculateSimilarity userAnswer correctAnswer;
    Some (threshold <=? similarity).

End Similarity.

(** ** js/utils.js: escapeHtml *)

Section EscapeHtml.
Import Stdlib.Strings.Ascii.

(** The five characters the pattern matches: ampersand, less-than,
    greater-than, double quote (code 34) and apostrophe. *)
Definition ampersand : ascii := "&"%char.
Definition less_than : ascii := "<"%char.
Definition greater_than : ascii := ">"%char.
Definition double_quote : ascii := "034"%char.
Definition apostrophe : ascii := "'"%char.

(** [map[m]]: the entity that replaces the character [m], if [m] is one of
    the five. *)
Definition entity (m : ascii) : option string :=
  if decide (m = ampersand) then Some "&amp;"%string
  else if decide (m = less_than) then Some "&lt;"%string
  else if decide (m = greater_than) then Some "&gt;"%string
  else if decide (m = double_quote) then Some "&quot;"%string
  else if decide (m = apostrophe) then Some "&#039;"%string
  else None.

(** [escapeHtml(text)]: every match of the pattern is replaced, the other
    characters are kept. *)
Fixpoint escapeHtml (text : string) : string :=
  match text with
  | EmptyString => EmptyString
  | String c text' =>
      match entity c with
      | Some e => e +:+ escapeHtml text'
      | None => String c (escapeHtml text')
      end
  end.

End EscapeHtml.

(** ** js/utils.js: the preferences kept in localStorage *)

(** What the preference functions read and write: the items of
    [localStorage], and the [data-theme] attribute of the document
    element. *)
Record Page := mkPage {
  localStorage : gmap string string;
  dataTheme : option string
}.

(** [stored || dflt] on a string or [null]: the empty string is falsy. *)
Definition string_or (stored : option string) (dflt : string) : string :=
  match stored with
  | Some s => if decide (s = ""%string) then dflt else s
  | None => dflt
  end.

(** [getThemePreference()]; [prefersDark] is whether [window.matchMedia]
    exists and reports a dark colour scheme. *)
Definition getThemePreference (prefersDark : bool) (p : Page) : string :=
  string_or (localStorage p !! "theme"%string)
            (if prefersDark then "dark"%string else "light"%string).

(** [setThemePreference(theme)]. *)
Definition setThemePreference (theme : string) (p : Page) : Page :=
  {| localStorage := <["theme"%string := theme]> (localStorage p);
     dataTheme := Some theme |}.

(** [toggleTheme()]: the new page and the value returned. *)
Definition toggleTheme (prefersDark : bool) (p : Page) : Page * string :=
  let current := getThemePreference prefersDark p in
  let newTheme :=
    if decide (current = "light"%string) then "dark"%string
    else "light"%string in
  (setThemePreference newTheme p, newTheme).

(** [getTestQuestionTypePreference()]. *)
Definition getTestQuestionTypePreference (p : Page) : string :=
  string_or (localStorage p !! "testQuestionType"%string) "mix"%string.

(** [setTestQuestionTypePreference(type)]. *)
Definition setTestQuestionTypePreference (type : string) (p : Page) : Page :=
  if bool_decide (type ∈ ["mc"; "written"; "mix"]%string) then
    {| localStorage := <["testQuestionType"%string := type]> (localStorage p);
       dataTheme := dataTheme p |}
  else p.

End Utils.

Import Utils.

(** ** js/srs-algorithm.js: class StudyModesManager, test mode *)

Module StudyModesManager.

Record Stats := mkStats {
  cardsStudied : nat;
  correctCount : nat;
  incorrectCount : nat
}.

(** The fields of the manager that the test mode uses, and the calls it
    makes to the database and to [endSession], recorded in order:
    [updatedCards] holds the cards passed to [db.updateCard], [performance]
    the card id and correctness passed to [db.recordPerformance] (the time
    spent is left out). *)
Record Manager := mkManager {
  cards : list Card;
  testTargetCount : option Z;
  testCards : list Card;
  currentIndex : nat;
  incorrectCards : list Card;
  correctCards : list Card;
  stats : Stats;
  updatedCards : list Card;
  performance : list (Z * bool);
  sessionEnded : bool
}.

(** The constructor, with [cards] as [loadSet] leaves them (sorted by
    priority; [s] is what that run of the sort meets) and
    [testTargetCount] from the [count] URL parameter: [None] when the
    parameter is absent or does not parse. *)
Definition loadSet (s : Sorting) (count : option Z) (dbCards : list Card) : Manager :=
  {| cards := sortCardsByPriority s dbCards;
     testTargetCount := count;
     testCards := [];
     currentIndex := 0;
     incorrectCards := [];
     correctCards := [];
     stats := mkStats 0 0 0;
     updatedCards := [];
     performance := [];
     sessionEnded := false |}.

(** [this.testTargetCount || dflt]: [null] and [0] are falsy. *)
Definition targetCount_or (count : option Z) (dflt : Z) : Z :=
  match count with
  | Some n => if (n =? 0)%Z then dflt else n
  | None => dflt
  end.

(** [array.slice(0, end)]; a negative [end] counts from the back. *)
Definition slice0 {A} (finish : Z) (a : list A) : list A :=
  let len := Z.of_nat (length a) in
  let k := if (finish <? 0)%Z then Z.max (len + finish) 0 else Z.min finish len in
  take (Z.to_nat k) a.

(** [prepareTestCards()].  A copy of the cards is sorted again; [s] is
    what this run of the sort meets. *)
Definition prepareTestCards (s : Sorting) (rnd : Random) (m : Manager) : Manager :=
  let totalCards := Z.of_nat (length (cards m)) in
  let targetCount := targetCount_or (testTargetCount m) totalCards in
  let selected :=
    if (targetCount <=? totalCards)%Z then
      slice0 targetCount (sortCardsByPriority s (cards m))
    else cards m in
  {| cards := cards m;
     testTargetCount := testTargetCount m;
     testCards := shuffled rnd selected;
     currentIndex := currentIndex m;
     incorrectCards := incorrectCards m;
     correctCards := correctCards m;
     stats := stats m;
     updatedCards := updatedCards m;
     performance := performance m;
     sessionEnded := sessionEnded m |}.

(** [startTestMode()]: the index is reset and the deck prepared. *)
Definition startTestMode (s : Sorting) (rnd : Random) (m : Manager) : Manager :=
  prepareTestCards s rnd
    {| cards := cards m;
       testTargetCount := testTargetCount m;
       testCards := testCards m;
       currentIndex := 0;
       incorrectCards := incorrectCards m;
       correctCards := correctCards m;
       stats := stats m;
       updatedCards := updatedCards m;
       performance := performance m;
       sessionEnded := sessionEnded m |}.

(** [list.find(c => c.id === card.id)] as a test. *)
Definition has_id (i : Z) (l : list Card) : bool :=
  existsb (λ c, (id c =? i)%Z) l.

Definition track (card : Card) (l : list Card) : list Card :=
  if has_id (id card) l then l else l ++ [card].

(** [checkTestAnswer()].  [answer] is what the page holds when the button
    is pressed: [None] if no choice is selected or the text is empty (the
    handler returns at once), otherwise whether the answer is correct.
    [now] is the clock value read by [calculateNextReview]. *)
Definition checkTestAnswer (now : number) (answer : option bool) (m : Manager) : Manager :=
  match testCards m !! currentIndex m, answer with
  | Some card, Some correct =>
      let quality := if correct then 4 else 1 in
      let updatedCard := calculateNextReview now card quality in
      {| cards := cards m;
         testTargetCount := testTargetCount m;
         testCards := testCards m;
         currentIndex := currentIndex m;
         incorrectCards :=
           if correct then incorrectCards m else track card (incorrectCards m);
         correctCards :=
           if correct then track card (correctCards m) else correctCards m;
         stats :=
           {| cardsStudied := S (cardsStudied (stats m));
              correctCount :=
                if correct then S (correctCount (stats m))
                else correctCount (stats m);
              incorrectCount :=
                if correct then incorrectCount (stats m)
                else S (incorrectCount (stats m)) |};
         updatedCards := updatedCards m ++ [updatedCard];
         performance := performance m ++ [(id card, correct)];
         sessionEnded := sessionEnded m |}
  | _, _ => m
  end.

(** [for (i = 0; i < n && source.length > 0; i++) push(source[i % source.length])]. *)
Definition draw_cyclic (n : Z) (source : list Card) : list Card :=
  if (0 <? length source)%nat then
    omap (λ i, source !! (i mod length source)%nat) (seq 0 (Z.to_nat n))
  else [].

(** The cards [selectAdditionalCards(count)] collects, before it shuffles
    them. *)
Definition additionalCards (count : Z) (m : Manager) : list Card :=
  let incorrectWeight := 3%Z in
  let correctWeight := 1%Z in
  let totalWeight := (incorrectWeight + correctWeight)%Z in
  let incorrectCount := ceil_div (count * incorrectWeight) totalWeight in
  let correctCount := (count - incorrectCount)%Z in
  let additional :=
    draw_cyclic incorrectCount (incorrectCards m)
    ++ draw_cyclic correctCount (correctCards m) in
  if (Z.of_nat (length additional) <? count)%Z then
    let remaining := (count - Z.of_nat (length additional))%Z in
    additional ++ draw_cyclic remaining (cards m)
  else additional.

(** [selectAdditionalCards(count)]. *)
Definition selectAdditionalCards (rnd : Random) (count : Z) (m : Manager) : list Card :=
  shuffled rnd (additionalCards count m).

Definition endSession (m : Manager) : Manager :=
  {| cards := cards m;
     testTargetCount := testTargetCount m;
     testCards := testCards m;
     currentIndex := currentIndex m;
     incorrectCards := incorrectCards m;
     correctCards := correctCards m;
     stats := stats m;
     updatedCards := updatedCards m;
     performance := performance m;
     sessionEnded := true |}.

Definition advance (newCards : list Card) (m : Manager) : Manager :=
  {| cards := cards m;
     testTargetCount := testTargetCount m;
     testCards := testCards m ++ newCards;
     currentIndex := S (currentIndex m);
     incorrectCards := incorrectCards m;
     correctCards := correctCards m;
     stats := stats m;
     updatedCards := updatedCards m;
     performance := performance m;
     sessionEnded := sessionEnded m |}.

(** [nextTestQuestion()]. *)
Definition nextTestQuestion (rnd : Random) (m : Manager) : Manager :=
  let len := Z.of_nat (length (testCards m)) in
  let targetCount := targetCount_or (testTargetCount m) len in
  if (Z.of_nat (currentIndex m) <? len - 1)%Z then advance [] m
  else if (len <? targetCount)%Z then
    let cardsNeeded := (targetCount - len)%Z in
    let newCards := selectAdditionalCards rnd cardsNeeded m in
    if (0 <? length newCards)%nat then advance newCards m
    else endSession m
  else endSession m.

(** What the user does on the test page. *)
Inductive TestEvent :=
| SubmitTest (now : number) (answer : option bool)
| NextTest (rnd : Random).

Definition handle (m : Manager) (ev : TestEvent) : Manager :=
  match ev with
  | SubmitTest now answer => checkTestAnswer now answer m
  | NextTest rnd => nextTestQuestion rnd m
  end.

Definition run (evs : list TestEvent) (m : Manager) : Manager :=
  foldl handle m evs.

(** The replenishment batch in the words of the specification:
    [ceil(deficit * 3/4)] items drawn cyclically from [answeredIncorrectly],
    and the remainder of the deficit drawn cyclically from
    [answeredCorrectly]. *)
Definition spec_replenishment (deficit : Z)
    (answeredIncorrectly answeredCorrectly : list Card) : list Card :=
  let fromIncorrect :=
    draw_cyclic (ceil_div (deficit * 3) 4) answeredIncorrectly in
  fromIncorrect
  ++ draw_cyclic (deficit - Z.of_nat (length fromIncorrect)) answeredCorrectly.

(** *** Flashcards mode and learn mode *)

(** The database calls and the statistics that follow an answer: the card
    is rescheduled with [quality] and written back, the attempt is
    recorded, the counters are advanced. *)
Definition recordAnswer (now : number) (card : Card) (quality : number)
    (correct : bool) (m : Manager) : Manager :=
  let updatedCard := calculateNextReview now card quality in
  {| cards := cards m;
     testTargetCount := testTargetCount m;
     testCards := testCards m;
     currentIndex := currentIndex m;
     incorrectCards := incorrectCards m;
     correctCards := correctCards m;
     stats :=
       {| cardsStudied := S (cardsStudied (stats m));
          correctCount :=
            if correct then S (correctCount (stats m))
            else correctCount (stats m);
          incorrectCount :=
            if correct then incorrectCount (stats m)
            else S (incorrectCount (stats m)) |};
     updatedCards := updatedCards m ++ [updatedCard];
     performance := performance m ++ [(id card, correct)];
     sessionEnded := sessionEnded m |}.

(** [if (this.currentIndex < this.cards.length - 1) { this.currentIndex++ }
    else { this.endSession() }], the end of [rateFlashcard], and the whole
    of [nextFlashcard] and [nextLearnCard]. *)
Definition nextCard (m : Manager) : Manager :=
  if (Z.of_nat (currentIndex m) <? Z.of_nat (length (cards m)) - 1)%Z
  then advance [] m
  else endSession m.

(** [rateFlashcard(rating)]; [rating] is [parseInt] of the button's
    [data-rating].  Without a card at the index the call throws inside
    [calculateNextReview], before anything is changed. *)
Definition rateFlashcard (now : number) (rating : number) (m : Manager) : Manager :=
  match cards m !! currentIndex m with
  | Some card =>
      let quality := mapSimpleRatingToQuality rating in
      let correct := 3 <=? rating in
      nextCard (recordAnswer now card quality correct m)
  | None => m
  end.

(** [prevFlashcard()]. *)
Definition prevFlashcard (m : Manager) : Manager :=
  if (0 <? currentIndex m)%nat then
    {| cards := cards m;
       testTargetCount := testTargetCount m;
       testCards := testCards m;
       currentIndex := currentIndex m - 1;
       incorrectCards := incorrectCards m;
       correctCards := correctCards m;
       stats := stats m;
       updatedCards := updatedCards m;
       performance := performance m;
       sessionEnded := sessionEnded m |}
  else m.

(** [nextFlashcard()]. *)
Definition nextFlashcard (m : Manager) : Manager := nextCard m.

(** [shuffleFlashcards()].  The cards of the array are distinct objects:
    each is tagged with its position before the shuffle, and
    [indexOf(current)] finds the card tagged [currentIndex].  Without a
    card at the index, [indexOf] gives -1 and [showFlashcard] throws on
    the missing card: [None]. *)
Definition shuffleFlashcards (rnd : Random) (m : Manager) : option Manager :=
  let tagged := shuffled rnd (imap (λ i card, (i, card)) (cards m)) in
  found ← list_find (λ p : nat * Card, p.1 = currentIndex m) tagged;
  Some {| cards := tagged.*2;
          testTargetCount := testTargetCount m;
          testCards := testCards m;
          currentIndex := found.1;
          incorrectCards := incorrectCards m;
          correctCards := correctCards m;
          stats := stats m;
          updatedCards := updatedCards m;
          performance := performance m;
          sessionEnded := sessionEnded m |}.

(** [checkLearnAnswer()]; [answer] is [None] when the input is empty after
    trimming (the handler returns at once), otherwise whether
    [isAnswerCorrect] accepts the input.  Without a card at the index a
    non-empty answer makes the call throw at [card.back], before anything
    is changed. *)
Definition checkLearnAnswer (now : number) (answer : option bool) (m : Manager) : Manager :=
  match cards m !! currentIndex m, answer with
  | Some card, Some correct =>
      let quality := if correct then 4 else 1 in
      recordAnswer now card quality correct m
  | _, _ => m
  end.

(** [nextLearnCard()]. *)
Definition nextLearnCard (m : Manager) : Manager := nextCard m.

(** What the user does on the flashcards page and on the learn page. *)
Inductive StudyEvent :=
| RateFlashcard (now : number) (rating : number)
| PrevFlashcard
| NextFlashcard
| ShuffleFlashcards (rnd : Random)
| CheckLearnAnswer (now : number) (answer : option bool)
| NextLearnCard.

(** The handler of an event; [None] when it throws with the index at -1. *)
Definition handleStudy (m : Manager) (ev : StudyEvent) : option Manager :=
  match ev with
  | RateFlashcard now rating => Some (rateFlashcard now rating m)
  | PrevFlashcard => Some (prevFlashcard m)
  | NextFlashcard => Some (nextFlashcard m)
  | ShuffleFlashcards rnd => shuffleFlashcards rnd m
  | CheckLearnAnswer now answer => Some (checkLearnAnswer now answer m)
  | NextLearnCard => Some (nextLearnCard m)
  end.

Fixpoint runStudy (evs : list StudyEvent) (m : Manager) : option Manager :=
  match evs with
  | [] => Some m
  | ev :: evs' => m' ← handleStudy m ev; runStudy evs' m'
  end.

End StudyModesManager.

(** ** The IndexedDB wrapper: getSetStatistics *)

Module QuizItDB.

(** A record of the [sessions] store.  [endTime] is [null] ([None]) until
    the session ends; the counters may be missing from imported data. *)
Record Session := mkSession {
  startTime : number;
  endTime : option number;
  correctCount : option number;
  incorrectCount : option number
}.

Record SetStatistics := mkSetStatistics {
  totalCards : nat;
  totalSessions : nat;
  totalTime : number;
  accuracy : number;
  masteryLevel : number;
  totalCorrect : number;
  totalIncorrect : number
}.

(** One turn of the loop over the sessions; the accumulator is
    [(totalCorrect, totalIncorrect, totalTime)]. *)
Definition add_session (acc : number * number * number) (session : Session)
    : number * number * number :=
  let '(totalCorrect, totalIncorrect, totalTime) := acc in
  match endTime session with
  | Some t =>
      if truthy t then
        (totalCorrect + or_else (correctCount session) 0,
         totalIncorrect + or_else (incorrectCount session) 0,
         totalTime + (t - startTime session))
      else acc
  | None => acc
  end.

Definition mastered (c : Card) : bool :=
  (2.5 <? easeFactor c) && (1 <=? interval c).

(** [getSetStatistics(setId)], given the cards and sessions of the set. *)
Definition getSetStatistics (cards : list Card) (sessions : list Session) : SetStatistics :=
  let '(totalCorrect, totalIncorrect, totalTime) :=
    foldl add_session (0, 0, 0) sessions in
  let totalAttempts := totalCorrect + totalIncorrect in
  let accuracy :=
    if 0 <? totalAttempts then (totalCorrect / totalAttempts) * 100 else 0 in
  let masteredCards := length (filter (λ c, mastered c = true) cards) in
  let masteryLevel :=
    if (0 <? length cards)%nat then
      (number_of_nat masteredCards / number_of_nat (length cards)) * 100
    else 0 in
  {| totalCards := length cards;
     totalSessions := length sessions;
     totalTime := totalTime;
     accuracy := accuracy;
     masteryLevel := masteryLevel;
     totalCorrect := totalCorrect;
     totalIncorrect := totalIncorrect |}.

End QuizItDB.

(** ** The IndexedDB wrapper: getCardStatistics *)

Module CardStatistics.

(** A record of the [cardPerformance] store, as [recordPerformance] writes
    it. *)
Record Performance := mkPerformance {
  cardId : Z;
  sessionId : Z;
  correct : bool;
  timeSpent : number;
  confidence : number;
  timestamp : number
}.

Record CardStatistics := mkCardStatistics {
  totalAttempts : nat;
  correctCount : nat;
  incorrectCount : nat;
  accuracy : number;
  avgTime : number;
  lastStudied : option number
}.

(** [getCardStatistics(cardId)], given the performance records of the
    card in the order [getPerformanceByCardId] returns them. *)
Definition getCardStatistics (performances : list Performance) : CardStatistics :=
  let totalAttempts := length performances in
  let correctCount := length (filter (λ p, correct p = true) performances) in
  let incorrectCount := (totalAttempts - correctCount)%nat in
  let accuracy :=
    if (0 <? totalAttempts)%nat then
      (number_of_nat correctCount / number_of_nat totalAttempts) * 100
    else 0 in
  let totalTime :=
    foldl (λ sum p, sum + or_else (Some (timeSpent p)) 0) 0 performances in
  let avgTime :=
    if (0 <? totalAttempts)%nat then totalTime / number_of_nat totalAttempts
    else 0 in
  let lastStudied :=
    if (0 <? totalAttempts)%nat then timestamp <$> last performances
    else None in
  {| totalAttempts := totalAttempts;
     correctCount := correctCount;
     incorrectCount := incorrectCount;
     accuracy := accuracy;
     avgTime := avgTime;
     lastStudied := lastStudied |}.

End CardStatistics.

(** ** The IndexedDB wrapper: deleteSet, deleteCard *)

Module ObjectStores.

(** The four object stores.  The methods of the wrapper are asynchronous;
    they are modelled as run one after the other, with no other access to
    the database in between. *)
Inductive StoreName := Sets | Cards | Sessions | CardPerformance.

Section Stores.
(** Every store has the key path [id]: a store is a map from the [id] of
    a record to its other fields.  Of these, the functions below read the
    [setId] of a card and of a session and the [cardId] of a performance
    record; the remaining fields of a record form its data. *)
Context {SetData CardData SessionData PerformanceData : Type}.

Record Database := mkDatabase {
  sets : gmap Z SetData;
  cards : gmap Z (Z * CardData);
  sessions : gmap Z (Z * SessionData);
  cardPerformance : gmap Z (Z * PerformanceData)
}.

(** [delete(storeName, id)]. *)
Definition delete_record (storeName : StoreName) (id : Z) (db : Database)
    : Database :=
  match storeName with
  | Sets =>
      {| sets := delete id (sets db); cards := cards db;
         sessions := sessions db; cardPerformance := cardPerformance db |}
  | Cards =>
      {| sets := sets db; cards := delete id (cards db);
         sessions := sessions db; cardPerformance := cardPerformance db |}
  | Sessions =>
      {| sets := sets db; cards := cards db;
         sessions := delete id (sessions db);
         cardPerformance := cardPerformance db |}
  | CardPerformance =>
      {| sets := sets db; cards := cards db; sessions := sessions db;
         cardPerformance := delete id (cardPerformance db) |}
  end.

(** Records are listed by ascending key. *)
Definition by_key {A} (a b : Z * A) : Prop := (a.1 ≤ b.1)%Z.

#[global] Instance by_key_dec {A} : RelDecision (@by_key A) :=
  λ a b, decide (a.1 ≤ b.1)%Z.

(** [index.getAll(value)] on a store with an index on the field kept
    first: the records whose field is [value], each with its [id], by
    ascending [id]. *)
Definition getByIndex {R} (store : gmap Z (Z * R)) (value : Z)
    : list (Z * (Z * R)) :=
  filter (λ r, r.2.1 = value)
         (merge_sort by_key (map_to_list store)).

(** [getCardsBySetId(setId)]. *)
Definition getCardsBySetId (setId : Z) (db : Database) : list (Z * (Z * CardData)) :=
  getByIndex (cards db) setId.

(** [deleteSet(id)]. *)
Definition deleteSet (id : Z) (db : Database) : Database :=
  let db := delete_record Sets id db in
  let cards := getCardsBySetId id db in
  let db :=
    foldl (λ db card,
             let db := delete_record Cards card.1 db in
             let performances := getByIndex (cardPerformance db) card.1 in
             foldl (λ db perf, delete_record CardPerformance perf.1 db)
                   db performances)
          db cards in
  let sessions := getByIndex (sessions db) id in
  foldl (λ db session, delete_record Sessions session.1 db) db sessions.

(** [deleteCard(id)]. *)
Definition deleteCard (id : Z) (db : Database) : Database :=
  let performances := getByIndex (cardPerformance db) id in
  let db :=
    foldl (λ db perf, delete_record CardPerformance perf.1 db)
          db performances in
  delete_record Cards id db.

End Stores.
End ObjectStores.

Import StudyModesManager.

(** ** js/srs-algorithm.js: class StudyModesManager, match mode *)

Module MatchMode.

(** The [type] of a tile: ['front'] or ['back']. *)
Inductive TileType := Front | Back.

#[global] Instance TileType_eq_dec : EqDecision TileType.
Proof. solve_decision. Defined.

(** A tile of the grid: the object [{ id, text, type }] ([cardId] is its
    [id]) and the classes [matched] and [selected] of its element. *)
Record Tile := mkTile {
  cardId : Z;
  text : string;
  type : TileType;
  matched : bool;
  selected : bool
}.

(** The fields of the manager that the match mode uses.  A pair of
    [matchPairs] is kept as the card it is made from; its [id], [front]
    and [back] are what is read.  [grid] holds the tiles in the order they
    are rendered; [selectedTiles] holds positions in the grid;
    [performance] records the calls of [db.recordPerformance] (card id and
    correctness). *)
Record Match := mkMatch {
  matchPairs : list Card;
  grid : list Tile;
  selectedTiles : list nat;
  matchedPairs : nat;
  stats : Stats;
  performance : list (Z * bool);
  sessionEnded : bool
}.

(** The tiles [renderMatchGrid] creates, before it shuffles them. *)
Definition tilesOf (pairs : list Card) : list Tile :=
  flat_map (λ pair, [mkTile (id pair) (front pair) Front false false;
                     mkTile (id pair) (back pair) Back false false]) pairs.

(** [startMatchMode()], with [renderMatchGrid()]. *)
Definition startMatchMode (rnd : Random) (m : Manager) : Match :=
  let matchCards := slice0 6 (StudyModesManager.cards m) in
  {| matchPairs := matchCards;
     grid := shuffled rnd (tilesOf matchCards);
     selectedTiles := [];
     matchedPairs := 0;
     stats := StudyModesManager.stats m;
     performance := StudyModesManager.performance m;
     sessionEnded := StudyModesManager.sessionEnded m |}.

(** Changing the classes of the element at position [i]. *)
Definition setClasses (i : nat) (isMatched isSelected : bool)
    (grid : list Tile) : list Tile :=
  match grid !! i with
  | Some t =>
      <[i := mkTile (cardId t) (text t) (type t) isMatched isSelected]> grid
  | None => grid
  end.

(** [selectMatchTile(tileEl, tile)] for the tile at position [i].  With
    the second tile selected, [checkMatch] is set to run 500 ms later. *)
Definition selectMatchTile (i : nat) (m : Match) : Match :=
  match grid m !! i with
  | Some t =>
      if matched t || selected t then m
      else if (2 <=? length (selectedTiles m))%nat then m
      else
        {| matchPairs := matchPairs m;
           grid := setClasses i (matched t) true (grid m);
           selectedTiles := selectedTiles m ++ [i];
           matchedPairs := matchedPairs m;
           stats := stats m;
           performance := performance m;
           sessionEnded := sessionEnded m |}
  | None => m
  end.

(** [checkMatch()], run by the timer when two tiles are selected; run
    with fewer it throws on the missing tile, before anything is changed.
    If [find] gave no pair for the first tile, [card.id] would throw after
    the tiles are marked and the pair counted. *)
Definition checkMatch (m : Match) : Match :=
  match selectedTiles m with
  | [i; j] =>
      match grid m !! i, grid m !! j with
      | Some first, Some second =>
          if bool_decide (cardId first = cardId second)
             && negb (bool_decide (type first = type second)) then
            let grid' :=
              setClasses j true false (setClasses i true false (grid m)) in
            let matchedPairs' := S (matchedPairs m) in
            match List.find (λ p, bool_decide (id p = cardId first))
                            (matchPairs m) with
            | Some card =>
                {| matchPairs := matchPairs m;
                   grid := grid';
                   selectedTiles := [];
                   matchedPairs := matchedPairs';
                   stats :=
                     {| cardsStudied := S (cardsStudied (stats m));
                        correctCount := S (correctCount (stats m));
                        incorrectCount := incorrectCount (stats m) |};
                   performance := performance m ++ [(id card, true)];
                   sessionEnded :=
                     if (matchedPairs' =? length (matchPairs m))%nat then true
                     else sessionEnded m |}
            | None =>
                {| matchPairs := matchPairs m;
                   grid := grid';
                   selectedTiles := selectedTiles m;
                   matchedPairs := matchedPairs';
                   stats := stats m;
                   performance := performance m;
                   sessionEnded := sessionEnded m |}
            end
          else
            {| matchPairs := matchPairs m;
               grid :=
                 setClasses j (matched second) false
                   (setClasses i (matched first) false (grid m));
               selectedTiles := [];
               matchedPairs := matchedPairs m;
               stats :=
                 {| cardsStudied := cardsStudied (stats m);
                    correctCount := correctCount (stats m);
                    incorrectCount := S (incorrectCount (stats m)) |};
               performance := performance m;
               sessionEnded := sessionEnded m |}
      | _, _ => m
      end
  | _ => m
  end.

(** What happens on the match page, the restart button apart: a tile is
    clicked, or the timer set at the second selection fires. *)
Inductive MatchEvent := ClickTile (i : nat) | TimerFires.

Definition handleMatch (m : Match) (ev : MatchEvent) : Match :=
  match ev with
  | ClickTile i => selectMatchTile i m
  | TimerFires => checkMatch m
  end.

Definition runMatch (evs : list MatchEvent) (m : Match) : Match :=
  foldl handleMatch m evs.

End MatchMode.

(** ** Two sessions *)

(** A session on a single card with two questions: the card is missed,
    asked again, and answered correctly. *)
Definition missed_then_known : Manager :=
  run [SubmitTest 1000 (Some false); NextTest (λ _, 0%fin);
       SubmitTest 2000 (Some true)]
    (startTestMode (steady 1000) (λ _, 0%fin)
       (loadSet (steady 1000) (Some 2%Z)
          [mkCard 7 "front" "back" 2.5 0 0 0])).

(** Scenario D: a pool of three cards, five questions asked for, the three
    cards of the deck answered correctly. *)
Definition scenario_D : Manager :=
  run [SubmitTest 1000 (Some true); NextTest (λ _, 0%fin);
       SubmitTest 2000 (Some true); NextTest (λ _, 0%fin);
       SubmitTest 3000 (Some true)]
    (startTestMode (steady 1000) (λ _, 0%fin)
       (loadSet (steady 1000) (Some 5%Z)
          [mkCard 1 "a" "A" 2.5 0 0 0; mkCard 2 "b" "B" 2.5 0 0 0;
           mkCard 3 "c" "C" 2.5 0 0 0])).

(** ** Notions used in the statements *)

(** *** Test sessions *)

Definition isNextTest (ev : TestEvent) : bool :=
  match ev with NextTest _ => true | SubmitTest _ _ => false end.

(** The number of times [nextTest] is pressed. *)
Definition nextPresses (evs : list TestEvent) : nat :=
  length (filter (λ ev, isNextTest ev = true) evs).

(** The state of a test session for [T] questions after [k] presses of
    [nextTest]. *)
Definition session_after (T : Z) (k : nat) (m : Manager) : Prop :=
  cards m ≠ []
  ∧ targetCount_or (testTargetCount m) (Z.of_nat (length (testCards m))) = T
  ∧ (Z.of_nat (length (testCards m)) ≤ T)%Z
  ∧ ((Z.of_nat k < T)%Z ∧ sessionEnded m = false ∧ currentIndex m = k
       ∧ (k < length (testCards m))%nat
     ∨ (T ≤ Z.of_nat k)%Z ∧ sessionEnded m = true
       ∧ Z.of_nat (currentIndex m) = (T - 1)%Z
       ∧ Z.of_nat (length (testCards m)) = T).

(** What a test session keeps true of its records, for the cards [pool]
    that were loaded. *)
Definition records_ok (pool : list Card) (m : Manager) : Prop :=
  Forall (.∈ pool) (cards m)
  ∧ Forall (.∈ pool) (testCards m)
  ∧ Forall (.∈ pool) (incorrectCards m)
  ∧ Forall (.∈ pool) (correctCards m)
  ∧ cardsStudied (stats m)
    = (correctCount (stats m) + incorrectCount (stats m))%nat
  ∧ length (performance m) = cardsStudied (stats m)
  ∧ correctCount (stats m)
    = length (filter (λ p : Z * bool, p.2 = true) (performance m))
  ∧ Forall2 (λ (u : Card) (p : Z * bool), ∃ card now,
               card ∈ pool ∧ p.1 = id card
               ∧ u = calculateNextReview now card (if p.2 then 4 else 1))
      (updatedCards m) (performance m).

(** Sessions over the whole deck keep the index inside the deck. *)
Definition study_ok (pool : list Card) (m : Manager) : Prop :=
  cards m ≡ₚ pool
  ∧ (currentIndex m < length pool)%nat
  ∧ Forall2 (λ (u : Card) (p : Z * bool), ∃ card now quality,
               card ∈ pool ∧ p.1 = id card
               ∧ u = calculateNextReview now card quality)
      (updatedCards m) (performance m)
  ∧ length (performance m) = cardsStudied (stats m)
  ∧ cardsStudied (stats m)
    = (correctCount (stats m) + incorrectCount (stats m))%nat.

(** *** The edit distance *)

Section Levenshtein.
Local Open Scope nat_scope.
Context {char : Type} `{EqDecision char}.
Context (s1 s2 : list char).

(** The number the loops put into [matrix[i][j]]. *)
Fixpoint dist (i : nat) : nat → nat :=
  match i with
  | O => λ j, j
  | S i' =>
      fix row (j : nat) : nat :=
        match j with
        | O => S i'
        | S j' =>
            if decide (s2 !! i' = s1 !! j') then dist i' j'
            else S ((dist i' j' `min` row j') `min` dist i' (S j'))
        end
  end.

(** [matrix[i][j]] holds [x]. *)
Definition holds (matrix : gmap nat (gmap nat nat)) (i j x : nat) : Prop :=
  ∃ row, matrix !! i = Some row ∧ row !! j = Some x.

(** The cells filled when row [i] has been filled up to column [j]. *)
Definition filled (i j : nat) (matrix : gmap nat (gmap nat nat)) : Prop :=
  (∀ i', i' ≤ length s2 → is_Some (matrix !! i'))
  ∧ ∀ i' j', i' ≤ length s2 → j' ≤ length s1 →
      i' < i ∨ i' = i ∧ j' < j ∨ j' = 0 →
      holds matrix i' j' (dist i' j').

End Levenshtein.

(** The similarity of two strings at edit distance [d], the longer of
    length [L]. *)
Definition similarity_of (L d : nat) : number :=
  Math_round ((number_of_nat L - number_of_nat d) / number_of_nat L * 100).

(** *** Checks over a range of machine integers *)

Section IntLoops.
Import Uint63.

(** [P] holds of the [n] machine integers from [i] on. *)
Fixpoint forall_int (n : nat) (i : int) (P : int → bool) : bool :=
  match n with
  | O => true
  | S n' => P i && forall_int n' (i + 1)%uint63 P
  end.

(** The test [similarity >= 80] against [200 d <= 41 L], for the longer
    length [L] and every distance [d <= L]. *)
Definition accepted_as_expected (L d : int) : bool :=
  Bool.eqb (79.5 <=? (of_uint63 L - of_uint63 d) / of_uint63 L * 100)
           (200 * d <=? 41 * L)%uint63.

(** The same for the [n] lengths from [L] on; [Ln] is [L] as a natural
    number. *)
Fixpoint similarity_rows (n Ln : nat) (L : int) : bool :=
  match n with
  | O => true
  | S n' =>
      forall_int (S Ln) 0%uint63 (accepted_as_expected L)
      && similarity_rows n' (S Ln) (L + 1)%uint63
  end.

End IntLoops.

(** *** Occurrences of a character *)

(** The character [c] occurs in [s]. *)
Fixpoint occurs (c : Ascii.ascii) (s : string) : bool :=
  match s with
  | EmptyString => false
  | String c' s' => bool_decide (c' = c) || occurs c s'
  end.

(** *** Match games *)

Section MatchNotions.
Import MatchMode.

(** The number of tiles marked as matched. *)
Definition matchedTiles (g : list Tile) : nat :=
  length (filter (λ t, matched t = true) g).

(** What a match game keeps true, for the pairs [pairs] it was started
    with and the statistics [s0] and records [p0] found at the start. *)
Definition match_ok (pairs : list Card) (s0 : Stats) (p0 : list (Z * bool))
    (m : Match) : Prop :=
  matchPairs m = pairs
  ∧ length (grid m) = (2 * length pairs)%nat
  ∧ Forall (λ t, ∃ p, p ∈ pairs ∧ id p = cardId t) (grid m)
  ∧ matchedTiles (grid m) = (2 * matchedPairs m)%nat
  ∧ NoDup (selectedTiles m)
  ∧ (length (selectedTiles m) ≤ 2)%nat
  ∧ Forall (λ i, ∃ t, grid m !! i = Some t ∧ matched t = false
                      ∧ selected t = true) (selectedTiles m)
  ∧ (∀ i t, grid m !! i = Some t → selected t = true → i ∈ selectedTiles m)
  ∧ cardsStudied (stats m) = (cardsStudied s0 + matchedPairs m)%nat
  ∧ correctCount (stats m) = (correctCount s0 + matchedPairs m)%nat
  ∧ (∃ records, performance m = p0 ++ records
       ∧ length records = matchedPairs m
       ∧ Forall (λ r : Z * bool, r.2 = true ∧ ∃ p, p ∈ pairs ∧ r.1 = id p)
                records)
  ∧ (sessionEnded m = true ↔ matchedPairs m = length pairs).

(** With distinct card ids: the cards recorded are the cards whose tiles
    are matched, each recorded once. *)
Definition match_once (p0 : list (Z * bool)) (m : Match) : Prop :=
  (∀ i j t t', grid m !! i = Some t → grid m !! j = Some t' →
     cardId t = cardId t' → type t = type t' → i = j)
  ∧ ∃ records, performance m = p0 ++ records
      ∧ NoDup records.*1
      ∧ ∀ i t, grid m !! i = Some t →
          (matched t = true ↔ cardId t ∈ records.*1).

End MatchNotions.

(** * Properties *)

(** ** Facts about binary64 arithmetic

    The primitive operations are specified by [SpecFloat]; the facts below
    are read off that specification. *)

Section FloatFacts.

Local Open Scope Z_scope.

Lemma shr_1_nonneg mrs : 0 ≤ shr_m mrs → 0 ≤ shr_m (shr_1 mrs).
Proof.
  destruct mrs as [m r s]; simpl.
  destruct m as [|p|p]; try destruct p; simpl; lia.
Qed.

Lemma iter_shr_1_nonneg p : ∀ mrs,
  0 ≤ shr_m mrs → 0 ≤ shr_m (SpecFloat.iter_pos shr_1 p mrs).
Proof.
  induction p as [p IH|p IH|]; simpl; intros mrs Hm.
  - apply IH, IH, shr_1_nonneg, Hm.
  - apply IH, IH, Hm.
  - apply shr_1_nonneg, Hm.
Qed.

Lemma shr_fexp_nonneg m e l :
  0 ≤ m → 0 ≤ shr_m (shr_fexp prec emax m e l).1.
Proof.
  intros Hm. unfold shr_fexp, shr.
  assert (0 ≤ shr_m (shr_record_of_loc m l)) by (by destruct l as [|[]]).
  destruct (_ - e); simpl; auto using iter_shr_1_nonneg.
Qed.

Lemma round_nearest_even_nonneg m l : 0 ≤ m → 0 ≤ round_nearest_even m l.
Proof.
  intros Hm. destruct l as [|[]]; simpl; try lia.
  destruct (Z.even m); lia.
Qed.

Lemma binary_round_aux_signed sx mx ex lx :
  0 ≤ mx → signed_as sx (binary_round_aux prec emax sx mx ex lx).
Proof.
  intros Hm. unfold binary_round_aux.
  pose proof (shr_fexp_nonneg mx ex lx Hm) as H1.
  destruct (shr_fexp prec emax mx ex lx) as [mrs1 e1]; simpl in H1.
  pose proof (shr_fexp_nonneg _ e1 loc_Exact
    (round_nearest_even_nonneg _ (loc_of_shr_record mrs1) H1)) as H2.
  destruct (shr_fexp prec emax _ e1 loc_Exact) as [mrs2 e2]; simpl in H2.
  destruct (shr_m mrs2); [done| |lia].
  by destruct (_ <=? _).
Qed.

Lemma binary_round_signed sx mx ex :
  signed_as sx (binary_round prec emax sx mx ex).
Proof.
  unfold binary_round. destruct (shl_align _ _ _) as [mz ez].
  by apply binary_round_aux_signed.
Qed.

Lemma binary_normalize_signed z e :
  match z with
  | 0 => binary_normalize prec emax z e false = S754_zero false
  | Z.pos _ => signed_as false (binary_normalize prec emax z e false)
  | Z.neg _ => signed_as true (binary_normalize prec emax z e false)
  end.
Proof. destruct z; simpl; auto using binary_round_signed. Qed.

Lemma signed_as_not_nan s x : signed_as s x → x ≠ S754_nan.
Proof. by destruct x. Qed.

Lemma binary_normalize_not_nan z e :
  binary_normalize prec emax z e false ≠ S754_nan.
Proof.
  pose proof (binary_normalize_signed z e) as H.
  destruct z; [by rewrite H|..]; eapply signed_as_not_nan, H.
Qed.

(** *** Comparisons *)

Lemma SFcompare_refl x : x ≠ S754_nan → SFcompare x x = Some Eq.
Proof.
  destruct x as [s|s| |s m e]; try done; intros _; simpl.
  - by destruct s.
  - rewrite Z.compare_refl, Pos.compare_cont_refl. by destruct s.
Qed.

Lemma SFcompare_antisym x y :
  SFcompare y x = CompOpp <$> SFcompare x y.
Proof.
  destruct x as [s1|s1| |s1 m1 e1], y as [s2|s2| |s2 m2 e2]; simpl;
    try done; try (by destruct s1); try (by destruct s2);
    try (by destruct s1, s2).
  assert (Pos.compare_cont Eq m2 m1 = CompOpp (Pos.compare_cont Eq m1 m2))
    as -> by (by rewrite Pos.compare_cont_antisym).
  rewrite (Z.compare_antisym e1 e2).
  destruct s1, s2; simpl; try done;
    destruct (e1 ?= e2); simpl; try done;
    by rewrite ?CompOpp_involutive.
Qed.

Lemma SFcompare_None x y :
  SFcompare x y = None → x = S754_nan ∨ y = S754_nan.
Proof.
  destruct x as [s1|s1| |s1 m1 e1], y as [s2|s2| |s2 m2 e2]; simpl;
    try done; auto.
Qed.

Lemma SFeqb_finite s1 m1 e1 s2 m2 e2 :
  SFeqb (S754_finite s1 m1 e1) (S754_finite s2 m2 e2) = true →
  s1 = s2 ∧ m1 = m2 ∧ e1 = e2.
Proof.
  unfold SFeqb; simpl.
  destruct s1, s2; try done;
    destruct (e1 ?= e2) eqn:He; try done;
    destruct (Pos.compare_cont Eq m1 m2) eqn:Hm; try done;
    apply Z.compare_eq in He; apply (Pos.compare_eq m1 m2) in Hm; done.
Qed.

(** *** Signs of differences *)

Lemma signed_as_true_not_pos x : signed_as true x → SFpos x = false.
Proof. destruct x as [s|s| |s m e]; simpl; try done; by intros ->. Qed.

Lemma SFpos_signed x : SFpos x = true → signed_as false x.
Proof. destruct x as [s|s| |s m e]; simpl; try done; by destruct s. Qed.

Lemma SFsub_pos_asym x y :
  SFpos (SF64sub x y) = true → SFpos (SF64sub y x) = false.
Proof.
  destruct x as [s1|s1| |s1 m1 e1], y as [s2|s2| |s2 m2 e2];
    try (by destruct s1, s2); try (by destruct s1); try (by destruct s2);
    try done.
  unfold SF64sub, SFsub. rewrite (Z.min_comm e2 e1).
  set (ez := Z.min e1 e2).
  set (a := cond_Zopp s1 _). set (b := cond_Zopp s2 _).
  intros Hab.
  pose proof (binary_normalize_signed (a - b) ez) as H1.
  pose proof (binary_normalize_signed (b - a) ez) as H2.
  destruct (a - b) as [|p|p] eqn:Hz.
  - by rewrite H1 in Hab.
  - replace (b - a) with (Z.neg p) in * by lia.
    by apply signed_as_true_not_pos.
  - apply SFpos_signed in Hab.
    destruct (binary_normalize prec emax (Z.neg p) ez false);
      simpl in Hab, H1; try done; congruence.
Qed.

Lemma SFsub_diag_not_pos x y z :
  SFeqb x z = true → SFeqb y z = true → SFpos (SF64sub x y) = false.
Proof.
  destruct x as [s1|s1| |s1 m1 e1], y as [s2|s2| |s2 m2 e2],
    z as [s3|s3| |s3 m3 e3];
    try done; try (by destruct s1, s2, s3).
  intros (-> & -> & ->)%SFeqb_finite (-> & -> & ->)%SFeqb_finite.
  unfold SF64sub, SFsub. by rewrite Z.sub_diag.
Qed.

(** *** No underflow to zero

    The difference of two floats is computed from an integer at the smaller
    of the two exponents; rounding it never gives zero, so the sign of the
    result is the sign of that integer. *)

Lemma digits2_pos_bounds p :
  2 ^ (Z.pos (digits2_pos p) - 1) ≤ Z.pos p < 2 ^ Z.pos (digits2_pos p).
Proof.
  induction p as [p IH|p IH|]; simpl digits2_pos; [| |simpl; lia];
    rewrite Pos2Z.inj_succ;
    replace (Z.succ (Z.pos (digits2_pos p)) - 1)
      with (Z.succ (Z.pos (digits2_pos p) - 1)) by lia;
    rewrite !Z.pow_succ_r by lia; lia.
Qed.

Lemma shr_1_div2 mrs : 0 ≤ shr_m mrs → shr_m (shr_1 mrs) = shr_m mrs / 2.
Proof.
  destruct mrs as [m r s]. cbn [shr_m]. intros Hm.
  destruct m as [|[p|p|]|p]; cbn [shr_1 shr_m]; try done.
  - apply Z.div_unique with 1; lia.
  - apply Z.div_unique with 0; lia.
Qed.

Lemma iter_shr_1_div p : ∀ mrs,
  0 ≤ shr_m mrs →
  shr_m (SpecFloat.iter_pos shr_1 p mrs) = shr_m mrs / 2 ^ Z.pos p.
Proof.
  induction p as [p IH|p IH|]; simpl SpecFloat.iter_pos; intros mrs Hm.
  - rewrite !IH, shr_1_div2 by auto using iter_shr_1_nonneg, shr_1_nonneg.
    rewrite !Z.div_div by lia. f_equal.
    rewrite Pos2Z.inj_xI, Z.pow_add_r, Z.pow_1_r, <-Z.pow_twice_r by lia.
    lia.
  - rewrite !IH by auto using iter_shr_1_nonneg.
    rewrite !Z.div_div by lia. f_equal.
    by rewrite Pos2Z.inj_xO, <-Z.pow_twice_r.
  - by rewrite shr_1_div2.
Qed.

Lemma round_nearest_even_ge m l : m ≤ round_nearest_even m l.
Proof.
  destruct l as [|[]]; simpl; try lia.
  destruct (Z.even m); lia.
Qed.

Lemma shr_fexp_pos m e l :
  0 < m → emin ≤ e →
  0 < shr_m (shr_fexp prec emax m e l).1 ∧ emin ≤ (shr_fexp prec emax m e l).2.
Proof.
  intros Hm He. unfold shr_fexp, shr.
  assert (shr_m (shr_record_of_loc m l) = m) as Hrec
    by (by destruct l as [|[]]).
  destruct m as [|p|p]; try lia. cbn [Zdigits2].
  pose proof (digits2_pos_bounds p) as [Hlo _].
  destruct (fexp prec emax (Z.pos (digits2_pos p) + e) - e) as [|q|q] eqn:Hn;
    cbn [fst snd]; try (rewrite Hrec; lia).
  rewrite iter_shr_1_div, Hrec by lia.
  unfold fexp, SpecFloat.emin, prec, emax in *.
  split; [|lia].
  apply Z.div_str_pos. split; [by apply Z.pow_pos_nonneg|].
  etrans; [|exact Hlo]. apply Z.pow_le_mono_r; lia.
Qed.

Lemma binary_round_aux_pos mx ex lx :
  0 < mx → emin ≤ ex →
  SFpos (binary_round_aux prec emax false mx ex lx) = true.
Proof.
  intros Hm He. unfold binary_round_aux.
  destruct (shr_fexp_pos mx ex lx Hm He) as [H1 He1].
  destruct (shr_fexp prec emax mx ex lx) as [mrs1 e1]; cbn [fst snd] in *.
  pose proof (round_nearest_even_ge (shr_m mrs1) (loc_of_shr_record mrs1)).
  destruct (shr_fexp_pos
    (round_nearest_even (shr_m mrs1) (loc_of_shr_record mrs1)) e1 loc_Exact)
    as [H2 _]; [lia|done|].
  destruct (shr_fexp prec emax _ e1 loc_Exact) as [mrs2 e2];
    cbn [fst snd] in *.
  destruct (shr_m mrs2); [lia| |lia].
  by destruct (_ <=? _).
Qed.

Lemma binary_round_pos m e :
  emin ≤ e → SFpos (binary_round prec emax false m e) = true.
Proof.
  intros He. unfold binary_round, shl_align.
  destruct (fexp prec emax (Z.pos (digits2_pos m) + e) - e) eqn:Hn;
    apply binary_round_aux_pos; try done.
  unfold fexp, SpecFloat.emin, prec, emax in *. lia.
Qed.

Lemma binary_normalize_pos z e :
  emin ≤ e → SFpos (binary_normalize prec emax z e false) = (0 <? z).
Proof.
  intros He. destruct z as [|p|p]; simpl binary_normalize.
  - done.
  - by apply binary_round_pos.
  - apply signed_as_true_not_pos, binary_round_signed.
Qed.

Lemma pos_iter_xO m d : Z.pos (Pos.iter xO m d) = Z.pos m * 2 ^ Z.pos d.
Proof.
  induction d as [|d IH] using Pos.peano_ind.
  - simpl. lia.
  - rewrite Pos.iter_succ, Pos2Z.inj_succ, Z.pow_succ_r by lia.
    rewrite Pos2Z.inj_xO, IH. lia.
Qed.

Lemma shl_align_fst m e ez :
  ez ≤ e → Z.pos (shl_align m e ez).1 = Z.pos m * 2 ^ (e - ez).
Proof.
  intros He. unfold shl_align.
  destruct (ez - e) as [|d|d] eqn:Hd; cbn [fst]; try lia.
  - replace (e - ez) with 0 by lia. lia.
  - rewrite pos_iter_xO. do 2 f_equal. lia.
Qed.

(** What it means for a mantissa and exponent to be those of a binary64
    number. *)
Lemma bounded_inv m e :
  bounded prec emax m e = true →
  Z.pos (digits2_pos m) ≤ 53 ∧ emin ≤ e
  ∧ (Z.pos (digits2_pos m) = 53 ∨ e = emin).
Proof.
  unfold bounded, canonical_mantissa, fexp, SpecFloat.emin, prec, emax.
  intros [Hc _]%andb_prop. apply Z.eqb_eq in Hc. lia.
Qed.

Lemma aligned_lt m1 e1 m2 e2 :
  bounded prec emax m1 e1 = true → bounded prec emax m2 e2 = true →
  e1 < e2 →
  Z.pos m1 * 2 ^ (e1 - e1 `min` e2) < Z.pos m2 * 2 ^ (e2 - e1 `min` e2).
Proof.
  intros (Hd1 & He1 & _)%bounded_inv (Hd2 & He2 & Hc2)%bounded_inv He.
  unfold SpecFloat.emin, prec, emax in *.
  replace (e1 `min` e2) with e1 by lia.
  replace (e1 - e1) with 0 by lia.
  destruct Hc2 as [Hc2|]; [|lia].
  pose proof (digits2_pos_bounds m1) as [_ Hm1].
  pose proof (digits2_pos_bounds m2) as [Hm2 _]. rewrite Hc2 in Hm2.
  assert (2 ^ Z.pos (digits2_pos m1) ≤ 2 ^ 53)
    by (apply Z.pow_le_mono_r; lia).
  assert (2 ^ 1 ≤ 2 ^ (e2 - e1)) by (apply Z.pow_le_mono_r; lia).
  change (2 ^ 53) with (2 ^ (53 - 1) * 2 ^ 1) in *.
  nia.
Qed.

Lemma SFsub_pos_finite s1 m1 e1 s2 m2 e2 :
  bounded prec emax m1 e1 = true → bounded prec emax m2 e2 = true →
  SFpos (SF64sub (S754_finite s1 m1 e1) (S754_finite s2 m2 e2))
  = SFltb (S754_finite s2 m2 e2) (S754_finite s1 m1 e1).
Proof.
  intros H1 H2. unfold SF64sub, SFsub.
  pose proof (bounded_inv _ _ H1) as (_ & He1 & _).
  pose proof (bounded_inv _ _ H2) as (_ & He2 & _).
  rewrite binary_normalize_pos by lia.
  rewrite !shl_align_fst by lia.
  pose proof (aligned_lt m1 e1 m2 e2 H1 H2) as Hlt.
  pose proof (aligned_lt m2 e2 m1 e1 H2 H1) as Hgt.
  rewrite (Z.min_comm e2 e1) in Hgt.
  assert (e1 = e2 → Z.pos m1 * 2 ^ (e1 - e1 `min` e2) = Z.pos m1
                  ∧ Z.pos m2 * 2 ^ (e2 - e1 `min` e2) = Z.pos m2) as Heq.
  { intros ->. rewrite Z.min_id, Z.sub_diag. lia. }
  set (a := Z.pos m1 * 2 ^ (e1 - e1 `min` e2)) in *.
  set (b := Z.pos m2 * 2 ^ (e2 - e1 `min` e2)) in *.
  assert (0 < a ∧ 0 < b) as [Ha Hb].
  { unfold a, b. split; apply Z.mul_pos_pos; try done;
      apply Z.pow_pos_nonneg; lia. }
  unfold SFltb, SFcompare.
  change (Pos.compare_cont Eq m2 m1) with (Pos.compare m2 m1).
  destruct (Z.compare_spec e2 e1) as [He|He|He];
    destruct (Pos.compare_spec m2 m1) as [Hm|Hm|Hm];
    destruct s1, s2; cbn [cond_Zopp CompOpp];
    first [apply Z.ltb_lt|apply Z.ltb_ge]; lia.
Qed.

(** [x - y] is positive exactly when [y < x]. *)
Lemma SFsub_pos x y :
  valid_binary x = true → valid_binary y = true →
  SFpos (SF64sub x y) = SFltb y x.
Proof.
  destruct x as [s1|s1| |s1 m1 e1], y as [s2|s2| |s2 m2 e2];
    try done; try (by destruct s1, s2); try (by destruct s1);
    try (by destruct s2).
  apply SFsub_pos_finite.
Qed.

(** *** The comparison of a difference with zero *)

Lemma binary_round_aux_strict sx mx ex lx :
  0 < mx → emin ≤ ex →
  match binary_round_aux prec emax sx mx ex lx with
  | S754_finite s _ _ | S754_infinity s => s = sx
  | _ => False
  end.
Proof.
  intros Hm He. unfold binary_round_aux.
  destruct (shr_fexp_pos mx ex lx Hm He) as [H1 He1].
  destruct (shr_fexp prec emax mx ex lx) as [mrs1 e1]; cbn [fst snd] in *.
  pose proof (round_nearest_even_ge (shr_m mrs1) (loc_of_shr_record mrs1)).
  destruct (shr_fexp_pos
    (round_nearest_even (shr_m mrs1) (loc_of_shr_record mrs1)) e1 loc_Exact)
    as [H2 _]; [lia|done|].
  destruct (shr_fexp prec emax _ e1 loc_Exact) as [mrs2 e2];
    cbn [fst snd] in *.
  destruct (shr_m mrs2); [lia| |lia].
  by destruct (_ <=? _).
Qed.

Lemma binary_round_strict s m e :
  emin ≤ e →
  match binary_round prec emax s m e with
  | S754_finite s' _ _ | S754_infinity s' => s' = s
  | _ => False
  end.
Proof.
  intros He. unfold binary_round, shl_align.
  destruct (fexp prec emax (Z.pos (digits2_pos m) + e) - e) eqn:Hn;
    apply binary_round_aux_strict; try done.
  unfold fexp, SpecFloat.emin, prec, emax in *. lia.
Qed.

Lemma binary_normalize_compare z e :
  emin ≤ e →
  SFcompare (binary_normalize prec emax z e false) (S754_zero false)
  = Some (z ?= 0).
Proof.
  intros He. destruct z as [|p|p]; simpl binary_normalize; [done|..].
  - pose proof (binary_round_strict false p e He) as H.
    destruct (binary_round prec emax false p e); try done; by subst.
  - pose proof (binary_round_strict true p e He) as H.
    destruct (binary_round prec emax true p e); try done; by subst.
Qed.

Lemma SFsub_compare_finite s1 m1 e1 s2 m2 e2 :
  bounded prec emax m1 e1 = true → bounded prec emax m2 e2 = true →
  SFcompare (SF64sub (S754_finite s1 m1 e1) (S754_finite s2 m2 e2))
    (S754_zero false)
  = SFcompare (S754_finite s1 m1 e1) (S754_finite s2 m2 e2).
Proof.
  intros H1 H2. unfold SF64sub, SFsub.
  pose proof (bounded_inv _ _ H1) as (_ & He1 & _).
  pose proof (bounded_inv _ _ H2) as (_ & He2 & _).
  rewrite binary_normalize_compare by lia.
  rewrite !shl_align_fst by lia.
  pose proof (aligned_lt m1 e1 m2 e2 H1 H2) as Hlt.
  pose proof (aligned_lt m2 e2 m1 e1 H2 H1) as Hgt.
  rewrite (Z.min_comm e2 e1) in Hgt.
  assert (e1 = e2 → Z.pos m1 * 2 ^ (e1 - e1 `min` e2) = Z.pos m1
                  ∧ Z.pos m2 * 2 ^ (e2 - e1 `min` e2) = Z.pos m2) as Heq.
  { intros ->. rewrite Z.min_id, Z.sub_diag. lia. }
  set (a := Z.pos m1 * 2 ^ (e1 - e1 `min` e2)) in *.
  set (b := Z.pos m2 * 2 ^ (e2 - e1 `min` e2)) in *.
  assert (0 < a ∧ 0 < b) as [Ha Hb].
  { unfold a, b. split; apply Z.mul_pos_pos; try done;
      apply Z.pow_pos_nonneg; lia. }
  unfold SFcompare. f_equal.
  change (Pos.compare_cont Eq m1 m2) with (Pos.compare m1 m2).
  destruct (Z.compare_spec e1 e2) as [He|He|He];
    destruct (Pos.compare_spec m1 m2) as [Hm|Hm|Hm];
    destruct s1, s2; cbn [cond_Zopp CompOpp];
    first [apply Z.compare_eq_iff|apply Z.compare_lt_iff
          |apply Z.compare_gt_iff]; lia.
Qed.

(** Unless it is NaN, [x - y] compares with zero as [x] with [y]. *)
Lemma SFsub_compare x y :
  valid_binary x = true → valid_binary y = true →
  SF64sub x y ≠ S754_nan →
  SFcompare (SF64sub x y) (S754_zero false) = SFcompare x y.
Proof.
  destruct x as [s1|s1| |s1 m1 e1], y as [s2|s2| |s2 m2 e2];
    try done; try (by destruct s1, s2); try (by destruct s1);
    try (by destruct s2).
  intros H1 H2 _. by apply SFsub_compare_finite.
Qed.

(** *** Small integers, quotients *)

Lemma digits2_pos_le p k : Z.pos p < 2 ^ k → Z.pos (digits2_pos p) ≤ k.
Proof.
  intros Hp. pose proof (digits2_pos_bounds p) as [Hlo _].
  destruct (Z.le_gt_cases (Z.pos (digits2_pos p)) k) as [|Hk]; [done|].
  assert (2 ^ k ≤ 2 ^ (Z.pos (digits2_pos p) - 1)); [|lia].
  apply Z.pow_le_mono_r; lia.
Qed.

Lemma digits2_pos_unique p k :
  2 ^ (k - 1) ≤ Z.pos p < 2 ^ k → Z.pos (digits2_pos p) = k.
Proof.
  intros [Hlo Hhi]. pose proof (digits2_pos_bounds p) as [Hlo' Hhi'].
  apply Z.le_antisymm.
  - by apply digits2_pos_le.
  - destruct (Z.le_gt_cases k (Z.pos (digits2_pos p))) as [|Hk]; [done|].
    assert (0 ≤ k - 1 → 2 ^ Z.pos (digits2_pos p) ≤ 2 ^ (k - 1))
      by (intros; apply Z.pow_le_mono_r; lia).
    destruct (Z.le_gt_cases 0 (k - 1)); [lia|].
    rewrite Z.pow_neg_r in Hlo by lia. lia.
Qed.

(** Shifting out zero bits loses nothing. *)
Lemma shr_1_exact M m :
  0 ≤ m → M = 2 * m →
  shr_1 (Build_shr_record M false false) = Build_shr_record m false false.
Proof. intros Hm ->. by destruct m. Qed.

Lemma iter_shr_1_exact p : ∀ M m,
  0 ≤ m → M = m * 2 ^ Z.pos p →
  SpecFloat.iter_pos shr_1 p (Build_shr_record M false false)
  = Build_shr_record m false false.
Proof.
  induction p as [p IH|p IH|]; intros M m Hm HM; cbn [SpecFloat.iter_pos].
  - assert (0 < 2 ^ Z.pos p) by (by apply Z.pow_pos_nonneg).
    rewrite (Pos2Z.inj_xI p), Z.pow_add_r, Z.pow_1_r, Z.pow_twice_r in HM by lia.
    rewrite (shr_1_exact M (m * 2 ^ Z.pos p * 2 ^ Z.pos p)) by nia.
    rewrite (IH _ (m * 2 ^ Z.pos p)) by nia. by apply IH.
  - assert (0 < 2 ^ Z.pos p) by (by apply Z.pow_pos_nonneg).
    rewrite (Pos2Z.inj_xO p), Z.pow_twice_r in HM.
    rewrite (IH M (m * 2 ^ Z.pos p)) by nia. by apply IH.
  - apply shr_1_exact; [done|]. rewrite HM, Z.pow_1_r. lia.
Qed.

(** Rounding a 53-digit mantissa followed by [n] zero bits returns the
    mantissa. *)
Lemma binary_round_aux_exact s m n mx e :
  Z.pos (digits2_pos m) = 53 → 0 ≤ n → Z.pos mx = Z.pos m * 2 ^ n →
  emin ≤ e + n ≤ emax - prec →
  binary_round_aux prec emax s (Z.pos mx) e loc_Exact
  = S754_finite s m (e + n).
Proof.
  intros Hm Hn Hmx He.
  assert (Z.pos (digits2_pos mx) = 53 + n) as Hdmx.
  { apply digits2_pos_unique. rewrite Hmx.
    pose proof (digits2_pos_bounds m) as [Hlo Hhi]. rewrite Hm in Hlo, Hhi.
    replace (53 + n - 1) with (53 - 1 + n) by lia.
    rewrite !Z.pow_add_r by lia.
    assert (0 < 2 ^ n) by (by apply Z.pow_pos_nonneg). nia. }
  assert (fexp prec emax (53 + n + e) - e = n) as Hshift.
  { unfold fexp, SpecFloat.emin, prec, emax in *. lia. }
  assert (fexp prec emax (53 + (e + n)) - (e + n) = 0) as Hshift'.
  { unfold fexp, SpecFloat.emin, prec, emax in *. lia. }
  assert (shr_fexp prec emax (Z.pos mx) e loc_Exact
          = (Build_shr_record (Z.pos m) false false, e + n)) as Hfirst.
  { unfold shr_fexp. cbn [Zdigits2 shr_record_of_loc]. rewrite Hdmx, Hshift.
    unfold shr. destruct n as [|n|n]; [|by rewrite (iter_shr_1_exact n _ (Z.pos m))|lia].
    rewrite Z.add_0_r. do 2 f_equal. lia. }
  unfold binary_round_aux. rewrite Hfirst.
  cbn [shr_m loc_of_shr_record round_nearest_even].
  unfold shr_fexp. cbn [Zdigits2 shr_record_of_loc]. rewrite Hm, Hshift'.
  cbn [shr shr_m].
  by replace (e + n <=? emax - prec) with true by (symmetry; apply Z.leb_le; lia).
Qed.

Lemma shl_align_snd m e ez : ez ≤ e → (shl_align m e ez).2 = ez.
Proof.
  intros He. unfold shl_align.
  destruct (ez - e) as [|d|d] eqn:Hd; cbn [snd]; lia.
Qed.

Lemma SFint_mantissa p :
  Z.pos p < 2 ^ 53 →
  let m := Z.to_pos (Z.pos p * 2 ^ (53 - Z.pos (digits2_pos p))) in
  Z.pos m = Z.pos p * 2 ^ (53 - Z.pos (digits2_pos p))
  ∧ Z.pos (digits2_pos m) = 53.
Proof.
  intros Hp%digits2_pos_le m.
  pose proof (digits2_pos_bounds p) as [Hlo Hhi].
  set (d := Z.pos (digits2_pos p)) in *.
  assert (0 < 2 ^ (53 - d)) by (apply Z.pow_pos_nonneg; lia).
  assert (Z.pos m = Z.pos p * 2 ^ (53 - d)) as Hm
    by (unfold m; rewrite Z2Pos.id; lia).
  split; [done|]. apply digits2_pos_unique. rewrite Hm.
  replace (2 ^ 53) with (2 ^ d * 2 ^ (53 - d))
    by (rewrite <-Z.pow_add_r by lia; f_equal; lia).
  replace (2 ^ (53 - 1)) with (2 ^ (d - 1) * 2 ^ (53 - d))
    by (rewrite <-Z.pow_add_r by lia; f_equal; lia).
  nia.
Qed.

Lemma SFint_valid s p : Z.pos p < 2 ^ 53 → valid_binary (SFint s p) = true.
Proof.
  intros Hp. destruct (SFint_mantissa p Hp) as [_ Hd].
  pose proof (digits2_pos_le p 53 Hp).
  unfold SFint, valid_binary, bounded, canonical_mantissa. rewrite Hd.
  apply andb_true_intro. split; [apply Z.eqb_eq|apply Z.leb_le];
    unfold fexp, SpecFloat.emin, prec, emax; lia.
Qed.

Lemma binary_round_int s p :
  Z.pos p < 2 ^ 53 → binary_round prec emax s p 0 = SFint s p.
Proof.
  intros Hp. destruct (SFint_mantissa p Hp) as [Hm Hd].
  pose proof (digits2_pos_le p 53 Hp).
  unfold binary_round.
  assert (fexp prec emax (Z.pos (digits2_pos p) + 0)
          = Z.pos (digits2_pos p) - 53) as ->.
  { unfold fexp, SpecFloat.emin, prec, emax. lia. }
  pose proof (shl_align_fst p 0 (Z.pos (digits2_pos p) - 53)) as Hfst.
  pose proof (shl_align_snd p 0 (Z.pos (digits2_pos p) - 53)) as Hsnd.
  destruct (shl_align p 0 _) as [mz ez]; cbn [fst snd] in *.
  rewrite Hsnd by lia.
  rewrite (binary_round_aux_exact s
    (Z.to_pos (Z.pos p * 2 ^ (53 - Z.pos (digits2_pos p)))) 0 mz);
    unfold SpecFloat.emin, prec, emax; try lia.
  - unfold SFint. f_equal. lia.
  - rewrite Hfst by lia. rewrite Hm, Z.pow_0_r, Z.mul_1_r.
    do 2 f_equal. lia.
Qed.

Lemma SFmul_int s1 p1 s2 p2 :
  Z.pos (p1 * p2) < 2 ^ 53 →
  SF64mul (SFint s1 p1) (SFint s2 p2) = SFint (xorb s1 s2) (p1 * p2).
Proof.
  intros Hp.
  assert (Z.pos p1 < 2 ^ 53 ∧ Z.pos p2 < 2 ^ 53) as [Hp1 Hp2] by nia.
  destruct (SFint_mantissa p1 Hp1) as [Hm1 Hd1].
  destruct (SFint_mantissa p2 Hp2) as [Hm2 Hd2].
  destruct (SFint_mantissa (p1 * p2) Hp) as [Hm Hd].
  pose proof (digits2_pos_bounds p1) as [Hlo1 Hhi1].
  pose proof (digits2_pos_bounds p2) as [Hlo2 Hhi2].
  pose proof (digits2_pos_bounds (p1 * p2)) as [Hlo Hhi].
  pose proof (digits2_pos_le _ _ Hp1). pose proof (digits2_pos_le _ _ Hp2).
  pose proof (digits2_pos_le _ _ Hp).
  set (d1 := Z.pos (digits2_pos p1)) in *.
  set (d2 := Z.pos (digits2_pos p2)) in *.
  set (d := Z.pos (digits2_pos (p1 * p2))) in *.
  assert (d1 + d2 - 1 ≤ d) as Hdd.
  { destruct (Z.le_gt_cases (d1 + d2 - 1) d) as [|Hgt]; [done|].
    assert (2 ^ d ≤ 2 ^ (d1 - 1 + (d2 - 1))) by (apply Z.pow_le_mono_r; lia).
    rewrite Z.pow_add_r in * by lia. rewrite Pos2Z.inj_mul in Hhi. nia. }
  unfold SF64mul, SFint at 1 2, SFmul. fold d1 d2.
  rewrite (binary_round_aux_exact _
    (Z.to_pos (Z.pos (p1 * p2) * 2 ^ (53 - d))) (53 + d - d1 - d2));
    unfold SpecFloat.emin, prec, emax; try lia.
  - unfold SFint. fold d. f_equal. lia.
  - rewrite Pos2Z.inj_mul, Hm1, Hm2, Hm, Pos2Z.inj_mul.
    replace (53 + d - d1 - d2) with ((53 - d1) + (53 - d2) - (53 - d)) by lia.
    assert (2 ^ (53 - d1) * 2 ^ (53 - d2)
            = 2 ^ (53 - d) * 2 ^ (53 - d1 + (53 - d2) - (53 - d))) as Hpow.
    { rewrite <-!Z.pow_add_r by lia. f_equal. lia. }
    nia.
Qed.

Lemma SFdiv_finite_not_nan s1 m1 e1 s2 m2 e2 :
  SF64div (S754_finite s1 m1 e1) (S754_finite s2 m2 e2) ≠ S754_nan.
Proof.
  unfold SF64div, SFdiv, SFdiv_core_binary.
  set (m' := match _ - _ with Z.pos _ => _ | 0 => _ | Z.neg _ => _ end).
  assert (0 ≤ m') as Hm'.
  { unfold m'. destruct (_ - _); [lia| |lia]. by apply Z.shiftl_nonneg. }
  pose proof (Z.div_pos m' (Z.pos m2) Hm' eq_refl) as Hq.
  unfold Z.div in Hq. destruct (Z.div_eucl m' (Z.pos m2)) as [q r].
  eapply signed_as_not_nan, binary_round_aux_signed. done.
Qed.

Lemma SFmul_not_nan_r x s m e :
  x ≠ S754_nan → SF64mul x (S754_finite s m e) ≠ S754_nan.
Proof.
  destruct x as [s1|s1| |s1 m1 e1]; try done.
  intros _. eapply signed_as_not_nan, binary_round_aux_signed. lia.
Qed.

(** *** The order is transitive *)

Lemma SFleb_rank x y :
  x ≠ S754_nan → y ≠ S754_nan →
  SFleb x y = true ↔ lex_le (SFrank x) (SFrank y).
Proof.
  unfold SFleb, lex_le.
  destruct x as [s1|s1| |s1 m1 e1], y as [s2|s2| |s2 m2 e2];
    try done; intros _ _; cbn [SFcompare SFrank];
    try change (Pos.compare_cont Eq m1 m2) with (Pos.compare m1 m2);
    try destruct s1; try destruct s2; cbn [fst snd];
    try destruct (Z.compare_spec e1 e2);
    try destruct (Pos.compare_spec m1 m2);
    cbn [CompOpp]; split; intros Hle; first [done|lia].
Qed.

Lemma lex_le_trans a b c : lex_le a b → lex_le b c → lex_le a c.
Proof. unfold lex_le. lia. Qed.

Lemma SFleb_trans x y z :
  SFleb x y = true → SFleb y z = true → SFleb x z = true.
Proof.
  intros Hxy Hyz.
  assert (x ≠ S754_nan ∧ y ≠ S754_nan ∧ z ≠ S754_nan) as (Hx & Hy & Hz).
  { by destruct x, y, z. }
  rewrite SFleb_rank in * by done. by eapply lex_le_trans.
Qed.

Close Scope Z_scope.

(** *** The same facts on primitive floats *)

Lemma is_nan_spec x :
  is_nan x = match Prim2SF x with S754_nan => true | _ => false end.
Proof.
  unfold is_nan. rewrite FloatAxioms.eqb_spec. unfold SFeqb.
  destruct (Prim2SF x) as [s|s| |s m e]; [| |done|];
    by rewrite SFcompare_refl.
Qed.

Lemma is_nan_false x : is_nan x = false ↔ Prim2SF x ≠ S754_nan.
Proof. rewrite is_nan_spec. by destruct (Prim2SF x). Qed.

Lemma ltb_leb a b : (a <? b) = true → (a <=? b) = true.
Proof.
  rewrite FloatAxioms.ltb_spec, FloatAxioms.leb_spec. unfold SFltb, SFleb.
  by destruct (SFcompare _ _) as [[]|].
Qed.

Lemma leb_refl a : is_nan a = false → (a <=? a) = true.
Proof.
  intros Ha%is_nan_false. rewrite FloatAxioms.leb_spec. unfold SFleb.
  by rewrite SFcompare_refl.
Qed.

Lemma not_ltb_leb a b :
  is_nan a = false → is_nan b = false →
  (b <? a) = false → (a <=? b) = true.
Proof.
  intros Ha%is_nan_false Hb%is_nan_false.
  rewrite FloatAxioms.ltb_spec, FloatAxioms.leb_spec. unfold SFltb, SFleb.
  rewrite (SFcompare_antisym (Prim2SF a) (Prim2SF b)).
  destruct (SFcompare _ _) as [[]|] eqn:Hc; try done.
  by destruct (SFcompare_None _ _ Hc).
Qed.

Lemma Math_max_lower a x :
  is_nan a = false → is_nan x = false → (a <=? Math_max a x) = true.
Proof.
  intros Ha Hx. unfold Math_max. rewrite Ha, Hx. simpl.
  destruct (a <? x) eqn:Hax; [by apply ltb_leb|].
  destruct (x <? a) eqn:Hxa; [by apply leb_refl|].
  destruct (get_sign a); [by apply not_ltb_leb|by apply leb_refl].
Qed.

Lemma gt_asym a b : (0 <? a - b) = true → (0 <? b - a) = false.
Proof.
  rewrite !FloatAxioms.ltb_spec, !FloatAxioms.sub_spec. apply SFsub_pos_asym.
Qed.

Lemma eq_not_gt a b c :
  (a =? c) = true → (b =? c) = true → (0 <? a - b) = false.
Proof.
  rewrite !FloatAxioms.eqb_spec, FloatAxioms.ltb_spec, FloatAxioms.sub_spec. apply SFsub_diag_not_pos.
Qed.

Lemma sub_pos_ltb a b : (0 <? a - b) = (b <? a).
Proof.
  rewrite !FloatAxioms.ltb_spec, FloatAxioms.sub_spec.
  apply SFsub_pos; apply Prim2SF_valid.
Qed.

Lemma leb_trans a b c :
  (a <=? b) = true → (b <=? c) = true → (a <=? c) = true.
Proof. rewrite !FloatAxioms.leb_spec. apply SFleb_trans. Qed.

Lemma sub_neg_ltb a b : is_nan (a - b) = false → (a - b <? 0) = (a <? b).
Proof.
  intros Hnan%is_nan_false. rewrite FloatAxioms.sub_spec in Hnan.
  rewrite !FloatAxioms.ltb_spec, FloatAxioms.sub_spec. unfold SFltb.
  change (Prim2SF 0) with (S754_zero false).
  by rewrite SFsub_compare by (done || apply Prim2SF_valid).
Qed.

Lemma sub_zero_eqb a b : is_nan (a - b) = false → (a - b =? 0) = (a =? b).
Proof.
  intros Hnan%is_nan_false. rewrite FloatAxioms.sub_spec in Hnan.
  rewrite !FloatAxioms.eqb_spec, FloatAxioms.sub_spec. unfold SFeqb.
  change (Prim2SF 0) with (S754_zero false).
  by rewrite SFsub_compare by (done || apply Prim2SF_valid).
Qed.

Lemma ltb_iff a b :
  (a <? b) = true ↔ (a <=? b) = true ∧ (b <=? a) = false.
Proof.
  rewrite FloatAxioms.ltb_spec, !FloatAxioms.leb_spec. unfold SFltb, SFleb.
  rewrite (SFcompare_antisym (Prim2SF a) (Prim2SF b)).
  destruct (SFcompare _ _) as [[]|]; simpl; intuition congruence.
Qed.

Lemma eqb_iff a b :
  (a =? b) = true ↔ (a <=? b) = true ∧ (b <=? a) = true.
Proof.
  rewrite FloatAxioms.eqb_spec, !FloatAxioms.leb_spec. unfold SFeqb, SFleb.
  rewrite (SFcompare_antisym (Prim2SF a) (Prim2SF b)).
  destruct (SFcompare _ _) as [[]|]; simpl; intuition congruence.
Qed.

Lemma ltb_trans a b c :
  (a <? b) = true → (b <? c) = true → (a <? c) = true.
Proof.
  rewrite !ltb_iff. intros [Hab Hba] [Hbc Hcb].
  split; [by eapply leb_trans|].
  destruct (c <=? a) eqn:Hca; [|done].
  by rewrite (leb_trans _ _ _ Hca Hab) in Hcb.
Qed.

Lemma eqb_sym a b : (a =? b) = true → (b =? a) = true.
Proof. rewrite !eqb_iff. tauto. Qed.

Lemma eqb_trans a b c :
  (a =? b) = true → (b =? c) = true → (a =? c) = true.
Proof. rewrite !eqb_iff. intros [] []. split; by eapply leb_trans. Qed.

Lemma eqb_refl a : is_nan a = false → (a =? a) = true.
Proof. intros Ha. rewrite eqb_iff. split; by apply leb_refl. Qed.

Lemma leb_not_nan a b :
  (a <=? b) = true → is_nan a = false ∧ is_nan b = false.
Proof.
  rewrite FloatAxioms.leb_spec, !is_nan_spec. unfold SFleb.
  by destruct (Prim2SF a), (Prim2SF b).
Qed.

Lemma number_of_nat_finite n :
  (0 < n)%nat → (Z.of_nat n < 2 ^ 53)%Z →
  ∃ m e, Prim2SF (number_of_nat n) = S754_finite false m e.
Proof.
  intros Hn Hlt. unfold number_of_nat, number_of_Z.
  destruct (Z.of_nat n) as [|p|p] eqn:Hp; try lia.
  simpl binary_normalize. rewrite binary_round_int by done.
  eexists _, _. by apply Prim2SF_SF2Prim, SFint_valid.
Qed.

(** A share [k / n * 100] of a list of fewer than 2^53 elements is a
    number. *)
Lemma share_not_nan k n :
  (k ≤ n)%nat → (0 < n)%nat → (Z.of_nat n < 2 ^ 53)%Z →
  is_nan (number_of_nat k / number_of_nat n * 100) = false.
Proof.
  intros Hk Hn Hlt. rewrite is_nan_false, mul_spec, div_spec.
  destruct (number_of_nat_finite n Hn Hlt) as (m & e & ->).
  apply (SFmul_not_nan_r _ false 7036874417766400 (-46)).
  destruct k as [|k].
  - by vm_compute.
  - destruct (number_of_nat_finite (S k)) as (m' & e' & ->); [lia..|].
    apply SFdiv_finite_not_nan.
Qed.

Lemma number_of_Z_mul a b :
  a ≠ 0%Z → b ≠ 0%Z → (Z.abs (a * b) < 2 ^ 53)%Z →
  number_of_Z a * number_of_Z b = number_of_Z (a * b).
Proof.
  intros Ha Hb Hab. apply Prim2SF_inj. rewrite mul_spec.
  assert ((Z.abs a < 2 ^ 53)%Z ∧ (Z.abs b < 2 ^ 53)%Z) as [Ha' Hb'] by nia.
  unfold number_of_Z.
  destruct a as [|p1|p1], b as [|p2|p2]; try done;
    simpl (_ * _)%Z in *; simpl Z.abs in *; simpl binary_normalize;
    rewrite !binary_round_int, !Prim2SF_SF2Prim by auto using SFint_valid;
    by apply SFmul_int.
Qed.

(** Whole days of at most 10^8 turn into milliseconds without rounding. *)
Lemma days_in_ms z :
  (Z.abs z ≤ 100000000)%Z →
  number_of_Z z * 24 * 60 * 60 * 1000 = number_of_Z z * 86400000.
Proof.
  intros Hz. destruct (decide (z = 0%Z)) as [->|Hz0]; [by vm_compute|].
  change 24 with (number_of_Z 24). change 60 with (number_of_Z 60).
  change 1000 with (number_of_Z 1000).
  change 86400000 with (number_of_Z 86400000).
  rewrite !number_of_Z_mul by lia. f_equal. lia.
Qed.

End FloatFacts.

(** ** The Math functions on examples *)

Example Math_round_examples :
  Math_round <$> [0.5; 1.5; 2.5; 15.6; 2.4999; 0.4; -0.4; -0.5; -1.5; -2.6]
  = [1; 2; 3; 16; 2; 0; -0; -0; -1; -3].
Proof. by vm_compute. Qed.

Example Math_floor_examples :
  Math_floor <$> [0.5; 1.5; 15.6; 3; -0.4; -1.5; infinity]
  = [0; 1; 15; 3; -1; -2; infinity].
Proof. by vm_compute. Qed.

Example Math_max_min_examples :
  Math_max 0 (Math_min 5 7) = 5 ∧ Math_max 0 (Math_min 5 (-2)) = 0
  ∧ Math_max 0 (Math_min 5 2.5) = 2.5
  ∧ is_nan (Math_max 0 (Math_min 5 nan)) = true.
Proof. by vm_compute. Qed.

(** ** The simplified rating scale *)

(** Two floats that a boolean test tells apart are different. *)
Lemma float_neq (x y : number) : (x =? y) = false → is_nan x = false → x ≠ y.
Proof.
  intros Hxy Hx <-. unfold is_nan in Hx.
  rewrite Hxy in Hx. discriminate.
Qed.

(** C1 (the code departs from the claim at rating 1): evaluated on the
    simplified ratings, [mapSimpleRatingToQuality] returns 3 for rating 1,
    because the table entry [0] is falsy and [|| 3] replaces it; ratings 2, 3
    and 4 give 3, 4 and 5, and every rating that equals none of 1, 2, 3, 4
    gives 3.  The claim, like the comment in the source, asks for 1 → 0. *)
Theorem mapSimpleRatingToQuality_values :
  mapSimpleRatingToQuality 1 = 3
  ∧ mapSimpleRatingToQuality 2 = 3
  ∧ mapSimpleRatingToQuality 3 = 4
  ∧ mapSimpleRatingToQuality 4 = 5
  ∧ ∀ r, (r =? 1) = false → (r =? 2) = false → (r =? 3) = false →
         (r =? 4) = false → mapSimpleRatingToQuality r = 3.
Proof.
  repeat split; try reflexivity.
  intros r H1 H2 H3 H4. unfold mapSimpleRatingToQuality, mapping.
  simpl. by rewrite H1, H2, H3, H4.
Qed.

(** ** The status classifier *)

(** C2, the claim fails as stated: a card with one repetition whose review
    time has passed is not labelled 'due'. *)
Lemma getCardStudyStatus_not_due :
  let card := mkCard 1 "front" "back" 2.5 1 1 0 in
  (repetitions card =? 0) = false
  ∧ (nextReview card <=? 1000) = true
  ∧ status (getCardStudyStatus 1000 1000 card) ≠ "due"%string.
Proof. by vm_compute. Qed.

(** C2, amended: [getCardStudyStatus] returns status 'new' with mastery 0
    when [repetitions] is 0, whatever the ease factor and interval;
    otherwise status 'review' when [nextReview <= now], and status
    'learning' otherwise, [now] being the clock value read by [isCardDue]. *)
Theorem getCardStudyStatus_status now now' card :
  let s := getCardStudyStatus now now' card in
  ((repetitions card =? 0) = true →
     status s = "new"%string ∧ mastery s = 0)
  ∧ ((repetitions card =? 0) = false → (nextReview card <=? now) = true →
     status s = "review"%string)
  ∧ ((repetitions card =? 0) = false → (nextReview card <=? now) = false →
     status s = "learning"%string).
Proof.
  unfold getCardStudyStatus, isCardDue; simpl.
  split; [|split].
  - intros H. by rewrite H.
  - intros H1 H2. by rewrite H1, H2.
  - intros H1 H2. by rewrite H1, H2.
Qed.

(** ** The scheduler *)

(** C3, the claim fails as stated: after quality 1 the ease factor of the
    item [{easeFactor: 2.0, interval: 6, repetitions: 2}] is not 1.3. *)
Lemma scenario_C_ease_is_not_minimum :
  let card := mkCard 1 "front" "back" 2.0 6 2 0 in
  ¬ (repetitions (calculateNextReview 1000 card 1) = 0
     ∧ interval (calculateNextReview 1000 card 1) = 0
     ∧ easeFactor (calculateNextReview 1000 card 1) = 1.3).
Proof.
  intros card (_ & _ & H). revert H.
  apply float_neq; by vm_compute.
Qed.

(** C3, amended: applying [calculateNextReview] to the item
    [{easeFactor: 2.0, interval: 6, repetitions: 2}] with quality 1 yields
    repetitions 0, interval 0 and ease factor
    max(1.3, 2.0 + (0.1 - 4 * (0.08 + 4 * 0.02))) = max(1.3, 2.0 - 0.54)
    = 1.46. *)
Theorem scenario_C now i f b next :
  let card' := calculateNextReview now (mkCard i f b 2.0 6 2 next) 1 in
  repetitions card' = 0
  ∧ interval card' = 0
  ∧ easeFactor card' = Math_max 1.3 (2.0 + (0.1 - 4 * (0.08 + 4 * 0.02)))
  ∧ easeFactor card' = 1.46.
Proof. by vm_compute. Qed.

(** C4, the claim fails as stated: [calculateNextReview(card, quality)] has
    no [now] argument and reads the clock itself, so two calls with the same
    arguments, made at different times, return different cards. *)
Lemma calculateNextReview_reads_the_clock :
  let card := mkCard 1 "front" "back" 2.5 0 0 0 in
  calculateNextReview 1000 card 4 ≠ calculateNextReview 2000 card 4.
Proof.
  intros card H. apply (f_equal nextReview) in H. revert H.
  apply float_neq; by vm_compute.
Qed.

(** C4, amended: the result of [calculateNextReview] is a function of the
    card, the quality and the value [now] that its call of [Date.now()]
    returns.  The clock value enters the next review time only: the other
    fields are the same at any two clock values, and
    [nextReview = now + interval' * 24 * 60 * 60 * 1000], the new interval in
    milliseconds (86,400,000 per day).  The new interval is a whole number
    (or -0, or the product [interval * easeFactor] where that is 2^52 or
    more in magnitude, infinite or NaN), and for a whole number of days up
    to 10^8 the next review time is [now + interval' * 86400000]. *)
Theorem calculateNextReview_clock now now' card quality :
  let r := calculateNextReview now card quality in
  let r' := calculateNextReview now' card quality in
  id r = id r' ∧ front r = front r' ∧ back r = back r'
  ∧ easeFactor r = easeFactor r'
  ∧ interval r = interval r'
  ∧ repetitions r = repetitions r'
  ∧ nextReview r = now + interval r * 24 * 60 * 60 * 1000
  ∧ 24 * 60 * 60 * 1000 = 86400000
  ∧ ((∃ z, interval r = number_of_Z z) ∨ interval r = neg_zero
     ∨ interval r = interval card * easeFactor card)
  ∧ (∀ z, (Z.abs z ≤ 100000000)%Z → interval r = number_of_Z z →
          nextReview r = now + interval r * 86400000).
Proof.
  assert (∀ days z, (Z.abs z ≤ 100000000)%Z → days = number_of_Z z →
    now + days * 24 * 60 * 60 * 1000 = now + days * 86400000) as Hdays.
  { intros days z Hz ->. by rewrite days_in_ms. }
  assert (∀ y, (∃ z, Math_round y = number_of_Z z)
               ∨ Math_round y = neg_zero ∨ Math_round y = y) as Hround.
  { intros y. unfold Math_round, integral.
    destruct (Prim2SF y) as [| | |s m e]; auto.
    destruct (0 <=? e)%Z; auto.
    destruct (_ =? 0)%Z; [|by eauto].
    destruct s; [by auto|]. left. by exists 0%Z. }
  unfold calculateNextReview.
  destruct (_ <? 3); [|destruct (_ =? 1); [|destruct (_ =? 2)]];
    cbn [id front back easeFactor interval repetitions nextReview];
    do 8 (split; [done|]); (split; [|apply Hdays]).
  - left. by exists 0%Z.
  - left. by exists 1%Z.
  - left. by exists 6%Z.
  - apply Hround.
Qed.

(** Scenarios A and B of the specification: a new card rated 4, then 5. *)
Example scenario_A now i f b next :
  let card' := calculateNextReview now (mkCard i f b 2.5 0 0 next) 4 in
  repetitions card' = 1 ∧ interval card' = 1 ∧ easeFactor card' = 2.5
  ∧ nextReview card' = now + 86400000.
Proof. by vm_compute. Qed.

Example scenario_B now i f b next :
  let card' := calculateNextReview now (mkCard i f b 2.5 1 1 next) 5 in
  repetitions card' = 2 ∧ interval card' = 6
  ∧ easeFactor card' = 2.6 ∧ nextReview card' = now + 518400000.
Proof. by vm_compute. Qed.

(** A third success multiplies the interval by the ease factor and rounds:
    round(6 * 2.6) = 16. *)
Example third_success now i f b next :
  let card' := calculateNextReview now (mkCard i f b 2.6 6 2 next) 3 in
  repetitions card' = 3 ∧ interval card' = 16 ∧ easeFactor card' = 2.46.
Proof. by vm_compute. Qed.

(** The scheduler's arithmetic never produces NaN from numbers. *)
Section NotNaN.

Lemma SFadd_not_nan x y :
  SFfinite0 x → y ≠ S754_nan → SF64add x y ≠ S754_nan.
Proof.
  destruct x as [s1|s1| |s1 m1 e1], y as [s2|s2| |s2 m2 e2];
    try done;
    first [by destruct s1, s2|intros _ _; apply binary_normalize_not_nan].
Qed.

Lemma SFsub_not_nan x y :
  SFfinite0 x → y ≠ S754_nan → SF64sub x y ≠ S754_nan.
Proof.
  destruct x as [s1|s1| |s1 m1 e1], y as [s2|s2| |s2 m2 e2];
    try done;
    first [by destruct s1, s2|intros _ _; apply binary_normalize_not_nan].
Qed.

Lemma SFmul_not_nan s m e y :
  y ≠ S754_nan → SF64mul (S754_finite s m e) y ≠ S754_nan.
Proof.
  destruct y as [s2|s2| |s2 m2 e2]; try done.
  intros _. eapply signed_as_not_nan, binary_round_aux_signed. lia.
Qed.

Lemma is_finite_spec x : is_finite x = true → SFfinite0 (Prim2SF x).
Proof.
  unfold is_finite, is_infinity.
  rewrite is_nan_spec, FloatAxioms.eqb_spec, abs_spec.
  by destruct (Prim2SF x) as [s|s| |s m e].
Qed.

Lemma Math_max_not_nan a b :
  is_nan a = false → is_nan b = false → is_nan (Math_max a b) = false.
Proof.
  intros Ha Hb. unfold Math_max. rewrite Ha, Hb; simpl.
  by repeat case_match.
Qed.

Lemma Math_min_not_nan a b :
  is_nan a = false → is_nan b = false → is_nan (Math_min a b) = false.
Proof.
  intros Ha Hb. unfold Math_min. rewrite Ha, Hb; simpl.
  by repeat case_match.
Qed.

(** The SM-2 adjustment [0.1 - (5 - q) * (0.08 + (5 - q) * 0.02)]. *)
Lemma adjustment_not_nan q :
  is_nan q = false →
  is_nan (0.1 - (5 - q) * (0.08 + (5 - q) * 0.02)) = false.
Proof.
  rewrite !is_nan_false. intros Hq.
  rewrite sub_spec, mul_spec, add_spec, mul_spec, sub_spec.
  assert (SF64sub (Prim2SF 5) (Prim2SF q) ≠ S754_nan) as Ht
    by (by apply SFsub_not_nan).
  destruct (SF64sub (Prim2SF 5) (Prim2SF q)) as [s|s| |s m e];
    [by destruct s; vm_compute..|done|].
  apply SFsub_not_nan; [done|].
  apply SFmul_not_nan, SFadd_not_nan; [done|].
  by apply SFmul_not_nan.
Qed.

Lemma add_not_nan x d :
  is_finite x = true → is_nan d = false → is_nan (x + d) = false.
Proof.
  rewrite !is_nan_false, add_spec. intros Hx%is_finite_spec Hd.
  by apply SFadd_not_nan.
Qed.

Lemma Math_min_upper a x :
  is_nan a = false → is_nan x = false → (Math_min a x <=? a) = true.
Proof.
  intros Ha Hx. unfold Math_min. rewrite Ha, Hx. simpl.
  destruct (a <? x) eqn:Hax; [by apply leb_refl|].
  destruct (x <? a) eqn:Hxa; [by apply ltb_leb|].
  destruct (get_sign a); [by apply leb_refl|by apply not_ltb_leb].
Qed.

Lemma Math_max_upper a x c :
  (a <=? c) = true → (x <=? c) = true →
  is_nan a = false → is_nan x = false → (Math_max a x <=? c) = true.
Proof.
  intros Hac Hxc Ha Hx. unfold Math_max. rewrite Ha, Hx. simpl.
  by repeat case_match.
Qed.

Lemma is_finite_not_nan x : is_finite x = true → is_nan x = false.
Proof.
  intros Hx%is_finite_spec. apply is_nan_false. by destruct (Prim2SF x).
Qed.

Lemma sub_not_nan x y :
  is_finite x = true → is_finite y = true → is_nan (x - y) = false.
Proof.
  intros Hx%is_finite_spec Hy%is_finite_not_nan%is_nan_false.
  rewrite is_nan_false, sub_spec. by apply SFsub_not_nan.
Qed.

End NotNaN.

(** C7: for every item with a finite ease factor and every quality rating
    that is a number, the quality [q] used after clamping lies in [0, 5], the
    ease factor returned by [calculateNextReview] equals
    max(1.3, easeFactor + (0.1 - (5 - q) * (0.08 + (5 - q) * 0.02))), and it
    is at least 1.3. *)
Theorem calculateNextReview_easeFactor now card quality :
  is_finite (easeFactor card) = true →
  is_nan quality = false →
  let q := Math_max 0 (Math_min 5 quality) in
  (0 <=? q) = true ∧ (q <=? 5) = true
  ∧ easeFactor (calculateNextReview now card quality)
    = Math_max 1.3 (easeFactor card + (0.1 - (5 - q) * (0.08 + (5 - q) * 0.02)))
  ∧ (1.3 <=? easeFactor (calculateNextReview now card quality)) = true.
Proof.
  intros Hease Hquality q.
  assert (is_nan (Math_min 5 quality) = false) as Hmin
    by (by apply Math_min_not_nan).
  assert (is_nan q = false) as Hq by (by apply Math_max_not_nan).
  assert (easeFactor (calculateNextReview now card quality)
    = Math_max 1.3
        (easeFactor card + (0.1 - (5 - q) * (0.08 + (5 - q) * 0.02)))) as ->.
  { unfold calculateNextReview. fold q. by repeat case_match. }
  split; [by apply Math_max_lower|].
  split; [apply Math_max_upper; auto using Math_min_upper|].
  split; [done|].
  apply Math_max_lower; [done|].
  by apply add_not_nan, adjustment_not_nan.
Qed.

(** The hypotheses of [calculateNextReview_easeFactor] hold for a card with
    ease factor 1.3 that is failed with quality 0. *)
Lemma calculateNextReview_easeFactor_witness :
  let card := mkCard 1 "front" "back" 1.3 6 2 0 in
  (0 <=? Math_max 0 (Math_min 5 0)) = true
  ∧ (Math_max 0 (Math_min 5 0) <=? 5) = true
  ∧ easeFactor (calculateNextReview 1000 card 0)
    = Math_max 1.3 (1.3 + (0.1 - (5 - Math_max 0 (Math_min 5 0))
        * (0.08 + (5 - Math_max 0 (Math_min 5 0)) * 0.02)))
  ∧ (1.3 <=? easeFactor (calculateNextReview 1000 card 0)) = true.
Proof.
  exact (calculateNextReview_easeFactor 1000
           (mkCard 1 "front" "back" 1.3 6 2 0) 0 eq_refl eq_refl).
Defined.

(** ** The priority ranking *)

Section StableSortFacts.
Context {A : Type} (comparefn : A → A → number).

Lemma sort_insert_perm x l : sort_insert comparefn x l ≡ₚ x :: l.
Proof.
  induction l as [|y l IH]; simpl; [done|].
  destruct (0 <? comparefn x y); [|done].
  by rewrite IH, Permutation_swap.
Qed.

Lemma stable_sort_perm l : stable_sort comparefn l ≡ₚ l.
Proof.
  induction l as [|x l IH]; simpl; [done|].
  by rewrite sort_insert_perm, IH.
Qed.

Lemma Sorted_stable_sort_id l :
  Sorted (in_order comparefn) l → stable_sort comparefn l = l.
Proof.
  induction 1 as [|x l Hl IH Hx]; simpl; [done|].
  rewrite IH. destruct Hx as [|y l Hxy]; simpl; [done|].
  unfold in_order in Hxy. by rewrite Hxy.
Qed.

Lemma sort_insert_filter (P : A → Prop) `{!∀ x, Decision (P x)} x l :
  (∀ y, P x → P y → in_order comparefn x y) →
  filter P (sort_insert comparefn x l) = filter P (x :: l).
Proof.
  intros HP. induction l as [|y l IH]; simpl; [done|].
  destruct (0 <? comparefn x y) eqn:Hxy; [|done].
  rewrite (filter_cons _ y), IH, !filter_cons.
  destruct (decide (P x)) as [Hx|], (decide (P y)) as [Hy|]; try done.
  specialize (HP y Hx Hy). unfold in_order in HP. congruence.
Qed.

Lemma stable_sort_filter (P : A → Prop) `{!∀ x, Decision (P x)} l :
  (∀ x y, P x → P y → in_order comparefn x y) →
  filter P (stable_sort comparefn l) = filter P l.
Proof.
  intros HP. induction l as [|x l IH]; simpl; [done|].
  rewrite sort_insert_filter by auto.
  by rewrite !filter_cons, IH.
Qed.

Hypothesis comparefn_asym :
  ∀ x y, (0 <? comparefn x y) = true → in_order comparefn y x.

Lemma HdRel_sort_insert a x l :
  in_order comparefn a x → HdRel (in_order comparefn) a l →
  HdRel (in_order comparefn) a (sort_insert comparefn x l).
Proof.
  intros Hax Hal. destruct Hal as [|y l Hay]; simpl; [by constructor|].
  destruct (0 <? comparefn x y); by constructor.
Qed.

Lemma Sorted_sort_insert x l :
  Sorted (in_order comparefn) l →
  Sorted (in_order comparefn) (sort_insert comparefn x l).
Proof.
  induction 1 as [|y l Hl IH Hy]; simpl; [by repeat constructor|].
  destruct (0 <? comparefn x y) eqn:Hxy.
  - constructor; [done|]. apply HdRel_sort_insert; [|done].
    by apply comparefn_asym.
  - by repeat constructor.
Qed.

Lemma Sorted_stable_sort l :
  Sorted (in_order comparefn) (stable_sort comparefn l).
Proof.
  induction l as [|x l IH]; simpl; [constructor|].
  by apply Sorted_sort_insert.
Qed.

End StableSortFacts.

Section ArraySortFacts.
Context {A T : Type} (comparefn : T → A → A → number).

(** Whatever the comparator and the engine, the sorted array holds the
    elements it held before. *)
Lemma Array_sort_perm engine calls l :
  Array_sort comparefn engine calls l ≡ₚ l.
Proof.
  unfold Array_sort. destruct calls as [|t calls].
  - apply order_Permutation.
  - destruct (consistent _ _ _ _);
      [apply stable_sort_perm|apply order_Permutation].
Qed.

Lemma Array_sort_consistent engine t calls l :
  consistent comparefn (t :: calls) t l = true →
  Array_sort comparefn engine (t :: calls) l = stable_sort (comparefn t) l.
Proof. unfold Array_sort. by intros ->. Qed.

End ArraySortFacts.

Lemma sortCardsByPriority_Permutation s cards :
  sortCardsByPriority s cards ≡ₚ cards.
Proof. apply Array_sort_perm. Qed.

Lemma implb_intro (a b : bool) : (a = true → b = true) → implb a b = true.
Proof. destruct a, b; simpl; auto. Qed.

Lemma comparisons_constant now l :
  Forall (λ t, t = now) l →
  Forall (λ t, t = (now, now)) (comparisons l).
Proof.
  induction 1 as [|t l -> Hl IH]; simpl; [constructor|].
  constructor; [done|]. apply Forall_app. split; [|done].
  apply Forall_fmap. eapply Forall_impl; [exact Hl|]. by intros t ->.
Qed.

Lemma steady_shows_only now : shows_only (steady now) now.
Proof. split; [done|by repeat constructor]. Qed.

(** At one reading of the clock and on priorities that are finite numbers
    the comparator is consistent. *)
Lemma comparePriority_consistent now calls l :
  Forall (λ t, t = (now, now)) calls →
  Forall (λ c, is_finite (getCardPriority now c) = true) l →
  consistent comparePriority calls (now, now) l = true.
Proof.
  intros Hcalls Hfin.
  assert (∀ a, In a l → is_finite (getCardPriority now a) = true) as Hl.
  { intros a Ha%list_elem_of_In. by apply (proj1 (Forall_forall _ _) Hfin). }
  assert (∀ a b, In a l → In b l →
            is_nan (getCardPriority now a - getCardPriority now b) = false)
    as Hnan by (intros; apply sub_not_nan; auto).
  unfold consistent. apply andb_true_intro. split.
  - unfold same_value.
    apply forallb_forall; intros a Ha. apply forallb_forall; intros b Hb.
    apply andb_true_intro. split.
    + unfold comparePriority; cbn [fst snd]. by rewrite Hnan.
    + apply forallb_forall; intros t Ht%list_elem_of_In.
      rewrite (proj1 (Forall_forall _ _) Hcalls t Ht).
      by apply Leibniz.eqb_spec.
  - unfold ordering, eqCF, ltCF, gtCF, comparePriority; cbn [fst snd].
    apply forallb_forall; intros a Ha. apply andb_true_intro. split.
    { rewrite sub_zero_eqb by auto.
      apply eqb_refl, is_finite_not_nan; auto. }
    apply forallb_forall; intros b Hb. apply andb_true_intro. split.
    { rewrite !sub_zero_eqb by auto. apply implb_intro, eqb_sym. }
    apply forallb_forall; intros c Hc.
    rewrite !sub_zero_eqb, !sub_neg_ltb, !sub_pos_ltb by auto.
    repeat (apply andb_true_intro; split); apply implb_intro;
      intros [H1 H2]%andb_prop.
    + by eapply eqb_trans.
    + by eapply ltb_trans.
    + by eapply ltb_trans.
Qed.

(** The sort that meets one reading of the clock, on finite priorities, is
    the stable sort by the priorities at that reading. *)
Lemma sortCardsByPriority_steady s now l :
  shows_only s now →
  Forall (λ c, is_finite (getCardPriority now c) = true) l →
  sortCardsByPriority s l = stable_sort (comparePriority (now, now)) l.
Proof.
  intros [Hs Hnow] Hfin. unfold sortCardsByPriority.
  pose proof (comparisons_constant now _ Hnow) as Hcalls.
  destruct (readings s) as [|t later]; [done|].
  cbn [comparisons] in *.
  apply Forall_cons in Hcalls as [[= ->] Hcalls].
  apply Array_sort_consistent, comparePriority_consistent; [|done].
  by constructor.
Qed.

(** Priorities that are numbers are compared by their difference as by
    [<=]. *)
Lemma in_order_leb now a b :
  is_nan (getCardPriority now a) = false →
  is_nan (getCardPriority now b) = false →
  in_order (comparePriority (now, now)) a b →
  (getCardPriority now a <=? getCardPriority now b) = true.
Proof.
  unfold in_order, comparePriority; cbn [fst snd]. rewrite sub_pos_ltb.
  intros Ha Hb Hab. by apply not_ltb_leb.
Qed.

Lemma Sorted_priority now l :
  Forall (λ c, is_nan (getCardPriority now c) = false) l →
  Sorted (in_order (comparePriority (now, now))) l →
  StronglySorted
    (λ a b, (getCardPriority now a <=? getCardPriority now b) = true) l.
Proof.
  intros Hnan Hl.
  assert (Transitive
    (λ a b, (getCardPriority now a <=? getCardPriority now b) = true)).
  { intros a b c. apply leb_trans. }
  apply Sorted_StronglySorted; [done|].
  induction Hl as [|x l Hl IH Hx]; [constructor|].
  apply Forall_cons in Hnan as [Hx' Hnan].
  constructor; [by apply IH|].
  destruct Hx as [|y l Hxy]; constructor.
  apply Forall_cons in Hnan as [Hy' _]. by apply in_order_leb.
Qed.

Lemma Sorted_stable_sort_priority now l :
  Sorted (in_order (comparePriority (now, now)))
    (stable_sort (comparePriority (now, now)) l).
Proof. apply Sorted_stable_sort. intros x y. apply gt_asym. Qed.

(** C5: a run of [sortCardsByPriority] during which the clock shows one
    value [now], on cards whose priorities at [now] are finite numbers,
    rearranges the cards into ascending order of priority: no card is
    directly followed by one that the comparator puts before it, and every
    card has a priority of at most that of each card behind it.  The sort
    is stable: the cards of any one priority keep their original relative
    order.  Sorting the result again, or any list in that order, at the
    same reading of the clock returns the same sequence. *)
Theorem sortCardsByPriority_stable s now cards :
  shows_only s now →
  Forall (λ c, is_finite (getCardPriority now c) = true) cards →
  let sorted := sortCardsByPriority s cards in
  sorted ≡ₚ cards
  ∧ Sorted (in_order (comparePriority (now, now))) sorted
  ∧ StronglySorted
      (λ a b, (getCardPriority now a <=? getCardPriority now b) = true)
      sorted
  ∧ (∀ priority,
       filter (λ c, (getCardPriority now c =? priority) = true) sorted
       = filter (λ c, (getCardPriority now c =? priority) = true) cards)
  ∧ sortCardsByPriority s sorted = sorted
  ∧ (∀ s' l,
       shows_only s' now →
       Forall (λ c, is_finite (getCardPriority now c) = true) l →
       Sorted (in_order (comparePriority (now, now))) l →
       sortCardsByPriority s' l = l).
Proof.
  intros Hs Hfin sorted.
  assert (sorted ≡ₚ cards) as Hperm by apply sortCardsByPriority_Permutation.
  assert (Forall (λ c, is_finite (getCardPriority now c) = true) sorted)
    as Hfin' by (by rewrite Hperm).
  assert (∀ s' l,
    shows_only s' now →
    Forall (λ c, is_finite (getCardPriority now c) = true) l →
    Sorted (in_order (comparePriority (now, now))) l →
    sortCardsByPriority s' l = l) as Hid.
  { intros s' l Hs' Hl Hsorted.
    rewrite (sortCardsByPriority_steady s' now) by done.
    by apply Sorted_stable_sort_id. }
  assert (Sorted (in_order (comparePriority (now, now))) sorted) as Hsorted.
  { unfold sorted. rewrite (sortCardsByPriority_steady s now) by done.
    apply Sorted_stable_sort_priority. }
  split; [done|]. split; [done|]. split.
  { apply Sorted_priority; [|done].
    eapply Forall_impl; [exact Hfin'|]. intros c. apply is_finite_not_nan. }
  split; [|split; [by apply Hid|done]].
  intros priority. unfold sorted.
  rewrite (sortCardsByPriority_steady s now) by done.
  apply stable_sort_filter.
  intros x y Hx Hy. unfold in_order, comparePriority; cbn [fst snd].
  by apply (eq_not_gt _ _ priority).
Qed.

(** C5: the hypotheses of [sortCardsByPriority_stable] hold for four cards
    at day 2: one a day overdue, two new ones due now, one hard and two
    days overdue.  The two new cards have the same priority and stay in
    their order. *)
Lemma sortCardsByPriority_stable_witness :
  let now := 172800000 in
  let cards := [mkCard 1 "a" "A" 2.5 1 1 86400000;
                mkCard 2 "b" "B" 2.5 0 0 172800000;
                mkCard 3 "c" "C" 1.3 6 2 0;
                mkCard 4 "d" "D" 2.5 0 0 172800000] in
  let sorted := sortCardsByPriority (steady now) cards in
  id <$> sorted = [3; 1; 2; 4]%Z
  ∧ sorted ≡ₚ cards
  ∧ Sorted (in_order (comparePriority (now, now))) sorted
  ∧ StronglySorted
      (λ a b, (getCardPriority now a <=? getCardPriority now b) = true)
      sorted
  ∧ (∀ priority,
       filter (λ c, (getCardPriority now c =? priority) = true) sorted
       = filter (λ c, (getCardPriority now c =? priority) = true) cards)
  ∧ sortCardsByPriority (steady now) sorted = sorted
  ∧ (∀ s' l,
       shows_only s' now →
       Forall (λ c, is_finite (getCardPriority now c) = true) l →
       Sorted (in_order (comparePriority (now, now))) l →
       sortCardsByPriority s' l = l).
Proof.
  split; [by vm_compute|].
  apply (sortCardsByPriority_stable (steady 172800000) 172800000
           [mkCard 1 "a" "A" 2.5 1 1 86400000;
            mkCard 2 "b" "B" 2.5 0 0 172800000;
            mkCard 3 "c" "C" 1.3 6 2 0;
            mkCard 4 "d" "D" 2.5 0 0 172800000]).
  - split; [discriminate|by repeat constructor].
  - repeat constructor.
Defined.

(** C5: a second sort is a later sort, and reads the clock again.  A card
    due in one day and a new card due now have the same priority at
    millisecond 1000, and a sort at that reading leaves them in their
    order.  One millisecond later the priority of the new card, now
    overdue, is the lower one, and sorting the sorted list again exchanges
    the two cards, whatever the engine. *)
Lemma sortCardsByPriority_resorted_later :
  let a := mkCard 1 "a" "A" 2.5 6 2 86401000 in
  let b := mkCard 2 "b" "B" 2.5 0 0 1000 in
  Forall (λ c, getCardPriority 1000 c = 7.5) [a; b]
  ∧ (getCardPriority 1001 b <? getCardPriority 1001 a) = true
  ∧ ∀ s s',
      shows_only s 1000 → shows_only s' 1001 →
      let sorted := sortCardsByPriority s [a; b] in
      sorted = [a; b]
      ∧ sortCardsByPriority s' sorted = [b; a]
      ∧ sortCardsByPriority s' sorted ≠ sorted.
Proof.
  cbv zeta. split; [by repeat constructor|]. split; [by vm_compute|].
  intros s s' Hs Hs'.
  rewrite (sortCardsByPriority_steady s 1000)
    by (done || by repeat constructor).
  rewrite (sortCardsByPriority_steady s' 1001)
    by (done || by repeat constructor).
  by vm_compute.
Qed.

(** ** The shuffle *)

Section ShuffleFacts.
Context {A : Type}.
Implicit Types (a : list A) (h : gmap ref (list A)).

Lemma swap_Permutation i j a : swap i j a ≡ₚ a.
Proof.
  unfold swap.
  destruct (a !! i) as [x|] eqn:Hi; [|done].
  destruct (a !! j) as [y|] eqn:Hj; [|done].
  by apply Permutation_insert_swap.
Qed.

Lemma shuffle_from_Permutation rnd i : ∀ a, shuffle_from rnd i a ≡ₚ a.
Proof.
  induction i as [|i IH]; intros a; simpl; [done|].
  by rewrite IH, swap_Permutation.
Qed.

Lemma shuffled_Permutation rnd a : shuffled rnd a ≡ₚ a.
Proof. apply shuffle_from_Permutation. Qed.

Lemma shuffle_in_place_lookup rnd r i : ∀ h,
  shuffle_in_place rnd i r h !! r = shuffle_from rnd i <$> h !! r.
Proof.
  induction i as [|i IH]; intros h; simpl.
  - by destruct (h !! r).
  - rewrite IH, lookup_alter_eq. by destruct (h !! r).
Qed.

Lemma shuffle_in_place_lookup_ne rnd r r' i : ∀ h,
  r ≠ r' → shuffle_in_place rnd i r h !! r' = h !! r'.
Proof.
  induction i as [|i IH]; intros h Hr; simpl; [done|].
  by rewrite IH, lookup_alter_ne.
Qed.

End ShuffleFacts.

(** C10: called on an allocated array, [shuffleArray] returns a reference
    that was not allocated before; the array behind it holds a permutation of
    the input's contents (the list [shuffled] that the session code receives);
    the input array and every other array of the store are left as they
    were. *)
Theorem shuffleArray_fresh_permutation {A} (rnd : Random) (array : ref)
    (h : gmap ref (list A)) (contents : list A) :
  h !! array = Some contents →
  ∃ result h',
    shuffleArray rnd array h = Some (result, h')
    ∧ h !! result = None
    ∧ h' !! array = Some contents
    ∧ (∀ r, r ≠ result → h' !! r = h !! r)
    ∧ h' !! result = Some (shuffled rnd contents)
    ∧ shuffled rnd contents ≡ₚ contents
    ∧ length (shuffled rnd contents) = length contents.
Proof.
  intros Harray. unfold shuffleArray. rewrite Harray; simpl.
  set (result := fresh (dom h)).
  assert (h !! result = None) as Hfresh
    by apply not_elem_of_dom, is_fresh.
  assert (array ≠ result) as Hne by congruence.
  eexists _, _. split; [done|]. split; [done|].
  split; [by rewrite shuffle_in_place_lookup_ne, lookup_insert_ne|].
  split.
  { intros r Hr. by rewrite shuffle_in_place_lookup_ne, lookup_insert_ne. }
  split; [by rewrite shuffle_in_place_lookup, lookup_insert_eq|].
  split; [apply shuffled_Permutation|].
  by rewrite shuffled_Permutation.
Qed.

(** The hypothesis of [shuffleArray_fresh_permutation] holds for a store
    with one array of four elements. *)
Lemma shuffleArray_fresh_permutation_witness :
  ∃ result h',
    shuffleArray (λ _, 0%fin) 1%positive {[ 1%positive := [1; 2; 3; 4]%nat ]}
      = Some (result, h')
    ∧ ({[ 1%positive := [1; 2; 3; 4]%nat ]} : gmap ref (list nat)) !! result
      = None
    ∧ h' !! 1%positive = Some [1; 2; 3; 4]%nat
    ∧ (∀ r, r ≠ result →
         h' !! r = ({[ 1%positive := [1; 2; 3; 4]%nat ]} : gmap ref (list nat)) !! r)
    ∧ h' !! result = Some (shuffled (λ _, 0%fin) [1; 2; 3; 4]%nat)
    ∧ shuffled (λ _, 0%fin) [1; 2; 3; 4]%nat ≡ₚ [1; 2; 3; 4]%nat
    ∧ length (shuffled (λ _, 0%fin) [1; 2; 3; 4]%nat) = length [1; 2; 3; 4]%nat.
Proof.
  exact (shuffleArray_fresh_permutation (λ _, 0%fin) 1%positive
           {[ 1%positive := [1; 2; 3; 4]%nat ]} [1; 2; 3; 4]%nat eq_refl).
Defined.

(** The shuffles of the test mode keep the selected cards: the deck is a
    permutation of the selection, the replenishment batch a permutation of
    the cards collected for it. *)
Lemma prepareTestCards_Permutation s rnd m :
  let totalCards := Z.of_nat (length (cards m)) in
  let targetCount := targetCount_or (testTargetCount m) totalCards in
  testCards (prepareTestCards s rnd m)
  ≡ₚ (if (targetCount <=? totalCards)%Z
      then slice0 targetCount (sortCardsByPriority s (cards m))
      else cards m).
Proof. apply shuffled_Permutation. Qed.

Lemma selectAdditionalCards_Permutation rnd count m :
  selectAdditionalCards rnd count m ≡ₚ additionalCards count m.
Proof. apply shuffled_Permutation. Qed.

(** ** The answered sets of a test session *)

Section AnsweredSets.

Lemma has_id_false i l : has_id i l = false → i ∉ id <$> l.
Proof.
  unfold has_id. induction l as [|c l IH]; simpl.
  - intros _. apply not_elem_of_nil.
  - intros [Hc Hl]%orb_false_iff. rewrite not_elem_of_cons.
    split; [|by apply IH]. by apply Z.eqb_neq in Hc.
Qed.

Lemma track_prefix card l : l `prefix_of` track card l.
Proof.
  unfold track. destruct (has_id _ _); [done|]. by apply prefix_app_r.
Qed.

Lemma track_NoDup card l : NoDup (id <$> l) → NoDup (id <$> track card l).
Proof.
  intros Hl. unfold track. destruct (has_id _ _) eqn:Hid; [done|].
  rewrite fmap_app. apply NoDup_app. split; [done|]. split.
  - intros i Hi [->|[]%elem_of_nil]%elem_of_cons.
    by apply has_id_false in Hid.
  - apply NoDup_singleton.
Qed.

(** What one event does to the two sets. *)
Lemma handle_answered m ev :
  (correctCards m `prefix_of` correctCards (handle m ev)
   ∧ incorrectCards m `prefix_of` incorrectCards (handle m ev))
  ∧ (NoDup (id <$> correctCards m) → NoDup (id <$> incorrectCards m) →
     NoDup (id <$> correctCards (handle m ev))
     ∧ NoDup (id <$> incorrectCards (handle m ev))).
Proof.
  destruct ev as [now answer|rnd]; simpl.
  - unfold checkTestAnswer.
    destruct (testCards m !! currentIndex m) as [card|]; [|done].
    destruct answer as [[]|]; simpl; auto using track_prefix, track_NoDup.
  - unfold nextTestQuestion, advance, endSession.
    by repeat case_match.
Qed.

Lemma run_answered evs : ∀ m,
  (correctCards m `prefix_of` correctCards (run evs m)
   ∧ incorrectCards m `prefix_of` incorrectCards (run evs m))
  ∧ (NoDup (id <$> correctCards m) → NoDup (id <$> incorrectCards m) →
     NoDup (id <$> correctCards (run evs m))
     ∧ NoDup (id <$> incorrectCards (run evs m))).
Proof.
  induction evs as [|ev evs IH]; intros m; [done|].
  change (run (ev :: evs) m) with (run evs (handle m ev)).
  destruct (handle_answered m ev) as [[Hc Hi] Hnd].
  destruct (IH (handle m ev)) as [[Hc' Hi'] Hnd'].
  split; [split; by etrans|].
  intros H1 H2. destruct (Hnd H1 H2). auto.
Qed.

End AnsweredSets.

(** C8: in a test session the sets [correctCards] and [incorrectCards] only
    grow: whatever is submitted next, each set keeps its cards (the earlier
    list is a prefix of the later one), so no recorded id is ever removed;
    from the start of a session on, no id occurs twice in a set; and one id
    can be in both sets at once. *)
Theorem answered_sets_additive :
  (∀ evs m,
     correctCards m `prefix_of` correctCards (run evs m)
     ∧ incorrectCards m `prefix_of` incorrectCards (run evs m)
     ∧ (∀ i, i ∈ id <$> correctCards m → i ∈ id <$> correctCards (run evs m))
     ∧ (∀ i, i ∈ id <$> incorrectCards m →
             i ∈ id <$> incorrectCards (run evs m)))
  ∧ (∀ s0 s count dbCards rnd evs,
       let m := run evs (startTestMode s rnd (loadSet s0 count dbCards)) in
       NoDup (id <$> correctCards m) ∧ NoDup (id <$> incorrectCards m))
  ∧ (7%Z ∈ id <$> correctCards missed_then_known
     ∧ 7%Z ∈ id <$> incorrectCards missed_then_known).
Proof.
  split; [|split].
  - intros evs m. destruct (run_answered evs m) as [[Hc Hi] _].
    split; [done|]. split; [done|].
    destruct Hc as [kc ->], Hi as [ki ->].
    split; intros i Hin; rewrite fmap_app, elem_of_app; by left.
  - intros s0 s count dbCards rnd evs.
    apply run_answered; simpl; apply NoDup_nil_2.
  - vm_compute. split; by constructor.
Qed.

(** ** Replenishment of the test deck *)

Section Replenishment.

Lemma draw_cyclic_nil n : draw_cyclic n [] = [].
Proof. done. Qed.

Lemma omap_lookup_mod (source : list Card) (js : list nat) :
  source ≠ [] →
  length (omap (λ i, source !! (i mod length source)%nat) js) = length js
  ∧ ∀ k i, js !! k = Some i →
      omap (λ i, source !! (i mod length source)%nat) js !! k
      = source !! (i mod length source)%nat.
Proof.
  intros Hsource.
  assert (0 < length source)%nat as Hlen by (destruct source; simpl; [done|lia]).
  induction js as [|j js [IHlen IH]]; [done|]. simpl.
  destruct (lookup_lt_is_Some_2 source (j mod length source)%nat)
    as [c Hc]; [by apply Nat.mod_upper_bound, Nat.neq_0_lt_0|].
  rewrite Hc; simpl. split; [by f_equal|].
  intros [|k] i Hk; simplify_eq/=; [done|]. by apply IH.
Qed.

(** A draw from a non-empty list has as many cards as asked for, taken
    in a cycle. *)
Lemma draw_cyclic_spec n source :
  source ≠ [] →
  length (draw_cyclic n source) = Z.to_nat n
  ∧ ∀ i, (i < Z.to_nat n)%nat →
      draw_cyclic n source !! i = source !! (i mod length source)%nat.
Proof.
  intros Hsource. unfold draw_cyclic.
  destruct source as [|c source]; [done|].
  change (0 <? length (c :: source))%nat with true; simpl negb.
  destruct (omap_lookup_mod (c :: source) (seq 0 (Z.to_nat n)))
    as [Hlen Hlookup]; [done|].
  split; [by rewrite Hlen, length_seq|].
  intros i Hi. apply Hlookup. by rewrite lookup_seq_lt.
Qed.

Lemma draw_cyclic_nonpos n source : (n ≤ 0)%Z → draw_cyclic n source = [].
Proof.
  intros Hn. unfold draw_cyclic.
  replace (Z.to_nat n) with 0%nat by lia. by destruct (_ <? _)%nat.
Qed.

Lemma additionalCards_eq count m :
  let k := ceil_div (count * 3) 4 in
  let fromIncorrect := draw_cyclic k (incorrectCards m) in
  let fromCorrect := draw_cyclic (count - k) (correctCards m) in
  additionalCards count m
  = fromIncorrect ++ fromCorrect
    ++ draw_cyclic
         (count - Z.of_nat (length fromIncorrect) - Z.of_nat (length fromCorrect))
         (cards m).
Proof.
  intros k fromIncorrect fromCorrect. unfold additionalCards.
  change (3 + 1)%Z with 4%Z. cbv zeta. fold k. fold fromIncorrect fromCorrect.
  rewrite length_app, Nat2Z.inj_add, Z.sub_add_distr.
  destruct (_ <? count)%Z eqn:Hlt.
  - by rewrite <-(assoc (++)).
  - apply Z.ltb_ge in Hlt. rewrite draw_cyclic_nonpos by lia.
    by rewrite !app_nil_r.
Qed.

End Replenishment.

(** C6, the claim fails as stated: in scenario D the two replenished cards
    are not the batch the specification describes (the remaining two drawn
    from [answeredCorrectly]); no card is drawn from [answeredCorrectly] at
    all, and the batch is the first two cards of the pool. *)
Lemma scenario_D_not_from_answeredCorrectly :
  incorrectCards scenario_D = []
  ∧ id <$> correctCards scenario_D = [2; 3; 1]%Z
  ∧ id <$> cards scenario_D = [1; 2; 3]%Z
  ∧ id <$> additionalCards 2 scenario_D = [1; 2]%Z
  ∧ id <$> spec_replenishment 2 (incorrectCards scenario_D)
             (correctCards scenario_D) = [2; 3]%Z
  ∧ ¬ (selectAdditionalCards (λ _, 0%fin) 2 scenario_D
       ≡ₚ spec_replenishment 2 (incorrectCards scenario_D)
            (correctCards scenario_D)).
Proof.
  repeat (split; [by vm_compute|]).
  intros Hperm. apply (fmap_Permutation id) in Hperm.
  assert (3%Z ∈ id <$> selectAdditionalCards (λ _, 0%fin) 2 scenario_D) as Hin.
  { rewrite Hperm. vm_compute. by repeat constructor. }
  vm_compute in Hin.
  by repeat (apply elem_of_cons in Hin as [?|Hin]; [done|]);
    apply elem_of_nil in Hin.
Qed.

(** C6, amended: when the deck is used up before the target count is
    reached, [nextTestQuestion] appends the batch
    [selectAdditionalCards(targetCount - testCards.length)].  For a count
    [c] the batch is a permutation of three draws: [ceil(c * 3/4)] cards
    taken cyclically from [incorrectCards] if that list is not empty,
    [c - ceil(c * 3/4)] cards taken cyclically from [correctCards] if that
    list is not empty, and what is then still missing taken cyclically from
    the whole pool [cards].  With both lists non-empty the pool is not
    drawn from; with [incorrectCards] empty and [c = 2] both cards come
    from the pool. *)
Theorem selectAdditionalCards_batch rnd count m :
  let k := ceil_div (count * 3) 4 in
  let fromIncorrect := draw_cyclic k (incorrectCards m) in
  let fromCorrect := draw_cyclic (count - k) (correctCards m) in
  let fromPool :=
    draw_cyclic
      (count - Z.of_nat (length fromIncorrect) - Z.of_nat (length fromCorrect))
      (cards m) in
  selectAdditionalCards rnd count m ≡ₚ fromIncorrect ++ fromCorrect ++ fromPool
  ∧ (∀ n source, source ≠ [] →
       length (draw_cyclic n source) = Z.to_nat n
       ∧ ∀ i, (i < Z.to_nat n)%nat →
           draw_cyclic n source !! i = source !! (i mod length source)%nat)
  ∧ (∀ n, draw_cyclic n [] = [])
  ∧ (incorrectCards m ≠ [] → correctCards m ≠ [] → (0 ≤ count)%Z →
     fromPool = []
     ∧ length fromIncorrect = Z.to_nat k
     ∧ length fromCorrect = Z.to_nat (count - k))
  ∧ (incorrectCards m = [] → count = 2%Z →
     fromIncorrect = [] ∧ fromCorrect = []
     ∧ fromPool = draw_cyclic 2 (cards m))
  ∧ ((Z.of_nat (currentIndex m) <? Z.of_nat (length (testCards m)) - 1)%Z
       = false →
     let targetCount :=
       targetCount_or (testTargetCount m) (Z.of_nat (length (testCards m))) in
     let batch :=
       selectAdditionalCards rnd
         (targetCount - Z.of_nat (length (testCards m))) m in
     (Z.of_nat (length (testCards m)) <? targetCount)%Z = true →
     batch ≠ [] →
     testCards (nextTestQuestion rnd m) = testCards m ++ batch).
Proof.
  intros k fromIncorrect fromCorrect fromPool.
  split.
  { rewrite selectAdditionalCards_Permutation. by rewrite additionalCards_eq. }
  split; [intros n source; apply draw_cyclic_spec|].
  split; [done|].
  split; [|split].
  - intros Hinc Hcor Hcount.
    destruct (draw_cyclic_spec k (incorrectCards m) Hinc) as [Hk _].
    destruct (draw_cyclic_spec (count - k) (correctCards m) Hcor) as [Hck _].
    split; [|done].
    apply draw_cyclic_nonpos. fold fromIncorrect in Hk.
    fold fromCorrect in Hck. rewrite Hk, Hck.
    assert (0 ≤ k ≤ count)%Z; [|lia].
    unfold k, ceil_div. split.
    + apply Z.opp_nonneg_nonpos, Z.div_le_upper_bound; lia.
    + apply Z.opp_le_mono. rewrite Z.opp_involutive.
      apply Z.div_le_lower_bound; lia.
  - intros Hinc ->. unfold fromPool, fromCorrect, fromIncorrect, k.
    rewrite Hinc. change (ceil_div (2 * 3) 4) with 2%Z.
    by rewrite draw_cyclic_nil, (draw_cyclic_nonpos (2 - 2)).
  - intros Hlast targetCount batch Hshort Hbatch.
    unfold nextTestQuestion. fold targetCount. rewrite Hlast, Hshort.
    fold batch. by destruct batch.
Qed.

(** ** Set statistics *)

(** Two cards, one of them mastered; one ended session with three correct
    answers and one incorrect, one session that was never ended. *)
Example getSetStatistics_example :
  let st :=
    QuizItDB.getSetStatistics
      [mkCard 1 "a" "A" 2.6 6 2 0; mkCard 2 "b" "B" 2.5 0 0 0]
      [QuizItDB.mkSession 1000 (Some 61000) (Some 3) (Some 1);
       QuizItDB.mkSession 70000 None (Some 9) None] in
  QuizItDB.accuracy st = 75 ∧ QuizItDB.masteryLevel st = 50
  ∧ QuizItDB.totalTime st = 60000 ∧ QuizItDB.totalSessions st = 2%nat.
Proof. by vm_compute. Qed.

(** C9, the claim fails as stated: with no session at all, the mastery level
    of a set whose only card has ease factor 2.6 and interval 6 is 100, not
    0. *)
Lemma masteryLevel_without_sessions :
  QuizItDB.masteryLevel
    (QuizItDB.getSetStatistics [mkCard 1 "front" "back" 2.6 6 2 0] [])
  = 100
  ∧ QuizItDB.masteryLevel
      (QuizItDB.getSetStatistics [mkCard 1 "front" "back" 2.6 6 2 0] [])
    ≠ 0.
Proof.
  split; [by vm_compute|]. apply float_neq; by vm_compute.
Qed.

(** C9, amended: [getSetStatistics] computes
    accuracy = correct / (correct + incorrect) * 100 when there are attempts
    and takes 0, without dividing, when there are none; with zero sessions
    the totals and the accuracy are 0, not NaN.  The mastery level does not
    depend on the sessions: it is 0, without dividing, for an empty item
    list, and otherwise the share of the items with ease factor above 2.5
    and interval at least 1, times 100; it is not NaN (for a list of fewer
    than 2^53 items). *)
Theorem getSetStatistics_accuracy_mastery cards sessions :
  let st := QuizItDB.getSetStatistics cards sessions in
  let attempts := QuizItDB.totalCorrect st + QuizItDB.totalIncorrect st in
  QuizItDB.accuracy st
    = (if 0 <? attempts then QuizItDB.totalCorrect st / attempts * 100 else 0)
  ∧ ((0 <? attempts) = false → QuizItDB.accuracy st = 0)
  ∧ QuizItDB.accuracy (QuizItDB.getSetStatistics cards []) = 0
  ∧ is_nan (QuizItDB.accuracy (QuizItDB.getSetStatistics cards [])) = false
  ∧ QuizItDB.totalCorrect (QuizItDB.getSetStatistics cards []) = 0
  ∧ QuizItDB.totalIncorrect (QuizItDB.getSetStatistics cards []) = 0
  ∧ QuizItDB.masteryLevel st
    = QuizItDB.masteryLevel (QuizItDB.getSetStatistics cards [])
  ∧ QuizItDB.masteryLevel (QuizItDB.getSetStatistics [] sessions) = 0
  ∧ (cards ≠ [] →
     QuizItDB.masteryLevel st
     = number_of_nat
         (length (filter (λ c, QuizItDB.mastered c = true) cards))
       / number_of_nat (length cards) * 100)
  ∧ ((Z.of_nat (length cards) < 2 ^ 53)%Z →
     is_nan (QuizItDB.masteryLevel st) = false).
Proof.
  unfold QuizItDB.getSetStatistics.
  destruct (foldl QuizItDB.add_session (0, 0, 0) sessions)
    as [[totalCorrect totalIncorrect] totalTime]; simpl.
  split; [done|]. split; [by intros ->|].
  do 6 (split; [done|]).
  split; [by destruct cards|].
  intros Hlen. destruct (0 <? length cards)%nat eqn:Hcards; [|done].
  apply Nat.ltb_lt in Hcards.
  apply share_not_nan; [apply length_filter|done..].
Qed.

(** ** Whole numbers in binary64 *)

Section IntegerFacts.
Local Open Scope Z_scope.

Lemma binary_round_shifted s p n mx :
  Z.pos p < 2 ^ 53 → 0 ≤ n → Z.pos mx = Z.pos p * 2 ^ n →
  binary_round prec emax s mx (- n) = SFint s p.
Proof.
  intros Hp Hn Hmx. destruct (SFint_mantissa p Hp) as [Hm Hd].
  pose proof (digits2_pos_le p 53 Hp) as Hd53.
  pose proof (digits2_pos_bounds p) as [Hlo Hhi].
  set (d := Z.pos (digits2_pos p)) in *.
  assert (0 < 2 ^ n) as Hpow by (by apply Z.pow_pos_nonneg).
  assert (Z.pos (digits2_pos mx) = d + n) as Hdmx.
  { apply digits2_pos_unique. rewrite Hmx.
    replace (d + n - 1) with (d - 1 + n) by lia.
    rewrite !Z.pow_add_r by lia. nia. }
  unfold binary_round. rewrite Hdmx.
  assert (fexp prec emax (d + n + - n) = d - 53) as ->.
  { unfold fexp, SpecFloat.emin, prec, emax. lia. }
  set (m := Z.to_pos (Z.pos p * 2 ^ (53 - d))) in *.
  destruct (Z.le_gt_cases (d - 53) (- n)) as [Hle|Hgt].
  - pose proof (shl_align_fst mx (- n) (d - 53) Hle) as Hfst.
    pose proof (shl_align_snd mx (- n) (d - 53) Hle) as Hsnd.
    destruct (shl_align mx (- n) (d - 53)) as [mz ez]; cbn [fst snd] in *.
    subst ez.
    rewrite (binary_round_aux_exact s m 0 mz);
      unfold SpecFloat.emin, prec, emax; try lia.
    + unfold SFint. fold d. fold m. f_equal. lia.
    + rewrite Hfst, Hmx, Hm, Z.pow_0_r, Z.mul_1_r, <-Z.mul_assoc.
      rewrite <-Z.pow_add_r by lia. do 2 f_equal. lia.
  - assert (shl_align mx (- n) (d - 53) = (mx, - n)) as ->.
    { unfold shl_align. by destruct (d - 53 - - n) eqn:?; try lia. }
    rewrite (binary_round_aux_exact s m (n - (53 - d)) mx);
      unfold SpecFloat.emin, prec, emax; try lia.
    + unfold SFint. fold d. fold m. f_equal. lia.
    + rewrite Hmx, Hm, <-Z.mul_assoc, <-Z.pow_add_r by lia.
      do 2 f_equal. lia.
Qed.

Lemma binary_normalize_shifted z n :
  Z.abs z < 2 ^ 53 → 0 ≤ n →
  binary_normalize prec emax (z * 2 ^ n) (- n) false = SFZ z.
Proof.
  intros Hz Hn.
  assert (0 < 2 ^ n) as Hpow by (by apply Z.pow_pos_nonneg).
  destruct z as [|p|p]; simpl SFZ.
  - done.
  - destruct (Z.pos p * 2 ^ n) as [|q|q] eqn:Hq; try lia.
    simpl. apply binary_round_shifted; lia.
  - destruct (Z.neg p * 2 ^ n) as [|q|q] eqn:Hq; try lia.
    simpl. apply binary_round_shifted; lia.
Qed.

Lemma SFZ_spec z :
  Z.abs z < 2 ^ 53 → binary_normalize prec emax z 0 false = SFZ z.
Proof.
  intros Hz. rewrite <-(binary_normalize_shifted z 0) by lia.
  by rewrite Z.pow_0_r, Z.mul_1_r.
Qed.

Lemma SFZ_valid z : Z.abs z < 2 ^ 53 → valid_binary (SFZ z) = true.
Proof. destruct z; [done|apply SFint_valid..]. Qed.

Lemma SFint_aligned s p ez :
  Z.pos p < 2 ^ 53 → ez ≤ Z.pos (digits2_pos p) - 53 →
  cond_Zopp s
    (Z.pos (shl_align (Z.to_pos (Z.pos p * 2 ^ (53 - Z.pos (digits2_pos p))))
              (Z.pos (digits2_pos p) - 53) ez).1)
  = cond_Zopp s (Z.pos p) * 2 ^ (- ez).
Proof.
  intros Hp Hez. destruct (SFint_mantissa p Hp) as [Hm _].
  pose proof (digits2_pos_le p 53 Hp).
  rewrite shl_align_fst, Hm by done.
  rewrite <-Z.mul_assoc, <-Z.pow_add_r by lia.
  replace (53 - Z.pos (digits2_pos p) + (Z.pos (digits2_pos p) - 53 - ez))
    with (- ez) by lia.
  destruct s; simpl; lia.
Qed.

Lemma SFadd_int a b :
  Z.abs a < 2 ^ 53 → Z.abs b < 2 ^ 53 → Z.abs (a + b) < 2 ^ 53 →
  SF64add (SFZ a) (SFZ b) = SFZ (a + b).
Proof.
  intros Ha Hb Hab.
  destruct a as [|p1|p1]; [by destruct b|..];
    (destruct b as [|p2|p2]; [by rewrite Z.add_0_r|..]);
    unfold SFZ at 1 2, SFint, SF64add, SFadd;
    pose proof (digits2_pos_le p1 53 Ha);
    pose proof (digits2_pos_le p2 53 Hb);
    set (ez := Z.min _ _);
    rewrite !SFint_aligned by (simpl in *; lia);
    rewrite <-Z.mul_add_distr_r;
    rewrite <-(Z.opp_involutive ez) at 2;
    by apply binary_normalize_shifted; [|lia].
Qed.

Lemma SFsub_int a b :
  Z.abs a < 2 ^ 53 → Z.abs b < 2 ^ 53 → Z.abs (a - b) < 2 ^ 53 →
  SF64sub (SFZ a) (SFZ b) = SFZ (a - b).
Proof.
  intros Ha Hb Hab.
  destruct a as [|p1|p1]; [by destruct b|..];
    (destruct b as [|p2|p2]; [by rewrite Z.sub_0_r|..]);
    unfold SFZ at 1 2, SFint, SF64sub, SFsub;
    pose proof (digits2_pos_le p1 53 Ha);
    pose proof (digits2_pos_le p2 53 Hb);
    set (ez := Z.min _ _);
    rewrite !SFint_aligned by (simpl in *; lia);
    rewrite <-Z.mul_sub_distr_r;
    rewrite <-(Z.opp_involutive ez) at 2;
    by apply binary_normalize_shifted; [|lia].
Qed.

Lemma SFcompare_SFint s1 p1 s2 p2 :
  Z.pos p1 < 2 ^ 53 → Z.pos p2 < 2 ^ 53 →
  SFcompare (SFint s1 p1) (SFint s2 p2)
  = Some (cond_Zopp s1 (Z.pos p1) ?= cond_Zopp s2 (Z.pos p2)).
Proof.
  intros Hp1 Hp2. unfold SFint.
  destruct (SFint_mantissa p1 Hp1) as [Hm1 _].
  destruct (SFint_mantissa p2 Hp2) as [Hm2 _].
  pose proof (digits2_pos_bounds p1) as [Hlo1 Hhi1].
  pose proof (digits2_pos_bounds p2) as [Hlo2 Hhi2].
  pose proof (digits2_pos_le p1 53 Hp1).
  pose proof (digits2_pos_le p2 53 Hp2).
  revert Hm1 Hm2.
  generalize (Z.to_pos (Z.pos p1 * 2 ^ (53 - Z.pos (digits2_pos p1)))).
  generalize (Z.to_pos (Z.pos p2 * 2 ^ (53 - Z.pos (digits2_pos p2)))).
  intros m2 m1.
  set (d1 := Z.pos (digits2_pos p1)) in *.
  set (d2 := Z.pos (digits2_pos p2)) in *.
  intros Hm1 Hm2.
  assert (d1 < d2 → Z.pos p1 < Z.pos p2) as Hlt.
  { intros. assert (2 ^ d1 ≤ 2 ^ (d2 - 1)) by (apply Z.pow_le_mono_r; lia).
    lia. }
  assert (d2 < d1 → Z.pos p2 < Z.pos p1) as Hgt.
  { intros. assert (2 ^ d2 ≤ 2 ^ (d1 - 1)) by (apply Z.pow_le_mono_r; lia).
    lia. }
  assert (0 < 2 ^ (53 - d1)) by (apply Z.pow_pos_nonneg; lia).
  assert (d1 = d2 → (Z.pos m1 ?= Z.pos m2) = (Z.pos p1 ?= Z.pos p2)) as Heq.
  { intros <-. rewrite Hm1, Hm2.
    destruct (Z.compare_spec (Z.pos p1) (Z.pos p2)) as [E|E|E].
    - rewrite E. apply Z.compare_refl.
    - apply Z.compare_lt_iff. nia.
    - apply Z.compare_gt_iff. nia. }
  cbn [SFcompare].
  change (Pos.compare_cont Eq m1 m2) with (Z.pos m1 ?= Z.pos m2).
  f_equal. symmetry.
  destruct s1, s2; cbn [cond_Zopp]; try done;
    destruct (Z.compare_spec (d1 - 53) (d2 - 53)) as [He|He|He];
    cbn [CompOpp]; rewrite ?Heq by lia;
    rewrite <-?Pos2Z.inj_compare, ?Z.compare_opp;
    try done.
  all: try (apply Z.compare_lt_iff; lia).
  all: try (apply Z.compare_gt_iff; lia).
  all: simpl; rewrite <-?Pos.compare_antisym; try done.
  - apply Pos.compare_lt_iff. lia.
  - apply Pos.compare_gt_iff. lia.
Qed.

Lemma SFcompare_int a b :
  Z.abs a < 2 ^ 53 → Z.abs b < 2 ^ 53 →
  SFcompare (SFZ a) (SFZ b) = Some (a ?= b).
Proof.
  intros Ha Hb.
  destruct a as [|p1|p1], b as [|p2|p2]; try done;
    unfold SFZ; by rewrite SFcompare_SFint.
Qed.

End IntegerFacts.

Section IntegerNumbers.

Lemma Prim2SF_number_of_Z z :
  (Z.abs z < 2 ^ 53)%Z → Prim2SF (number_of_Z z) = SFZ z.
Proof.
  intros Hz. unfold number_of_Z. rewrite SFZ_spec by done.
  by apply Prim2SF_SF2Prim, SFZ_valid.
Qed.

Lemma number_of_Z_add a b :
  (Z.abs a < 2 ^ 53)%Z → (Z.abs b < 2 ^ 53)%Z → (Z.abs (a + b) < 2 ^ 53)%Z →
  number_of_Z a + number_of_Z b = number_of_Z (a + b).
Proof.
  intros Ha Hb Hab. apply Prim2SF_inj.
  rewrite add_spec, !Prim2SF_number_of_Z by done. by apply SFadd_int.
Qed.

Lemma number_of_Z_sub a b :
  (Z.abs a < 2 ^ 53)%Z → (Z.abs b < 2 ^ 53)%Z → (Z.abs (a - b) < 2 ^ 53)%Z →
  number_of_Z a - number_of_Z b = number_of_Z (a - b).
Proof.
  intros Ha Hb Hab. apply Prim2SF_inj.
  rewrite sub_spec, !Prim2SF_number_of_Z by done. by apply SFsub_int.
Qed.

Lemma number_of_Z_leb a b :
  (Z.abs a < 2 ^ 53)%Z → (Z.abs b < 2 ^ 53)%Z →
  (number_of_Z a <=? number_of_Z b) = (a <=? b)%Z.
Proof.
  intros Ha Hb. rewrite FloatAxioms.leb_spec, !Prim2SF_number_of_Z by done.
  unfold SFleb. rewrite SFcompare_int by done. unfold Z.leb.
  by destruct (a ?= b)%Z.
Qed.

Lemma number_of_Z_ltb a b :
  (Z.abs a < 2 ^ 53)%Z → (Z.abs b < 2 ^ 53)%Z →
  (number_of_Z a <? number_of_Z b) = (a <? b)%Z.
Proof.
  intros Ha Hb. rewrite FloatAxioms.ltb_spec, !Prim2SF_number_of_Z by done.
  unfold SFltb. rewrite SFcompare_int by done. unfold Z.ltb.
  by destruct (a ?= b)%Z.
Qed.

Lemma number_of_Z_eqb a b :
  (Z.abs a < 2 ^ 53)%Z → (Z.abs b < 2 ^ 53)%Z →
  (number_of_Z a =? number_of_Z b) = (a =? b)%Z.
Proof.
  intros Ha Hb. rewrite FloatAxioms.eqb_spec, !Prim2SF_number_of_Z by done.
  unfold SFeqb. rewrite SFcompare_int by done. rewrite Z.eqb_compare.
  by destruct (a ?= b)%Z.
Qed.

(** Adding [+0] changes no comparison. *)
Lemma add_zero_leb x y : (x + 0 <=? y) = (x <=? y).
Proof.
  rewrite !FloatAxioms.leb_spec, add_spec. unfold SFleb.
  change (Prim2SF 0) with (S754_zero false).
  by destruct (Prim2SF x) as [[]|[]| |s m e].
Qed.

Lemma leb_not_ltb a b : (a <=? b) = true → (b <? a) = false.
Proof.
  rewrite FloatAxioms.leb_spec, FloatAxioms.ltb_spec. unfold SFleb, SFltb.
  rewrite (SFcompare_antisym (Prim2SF a) (Prim2SF b)).
  by destruct (SFcompare _ _) as [[]|].
Qed.

Lemma ltb_not_nan a b : (a <? b) = true → is_nan a = false ∧ is_nan b = false.
Proof. intros H%ltb_leb. by apply leb_not_nan. Qed.

Lemma ltb_leb_trans a b c :
  (a <? b) = true → (b <=? c) = true → (a <? c) = true.
Proof.
  intros Hab Hbc.
  destruct (leb_not_nan _ _ Hbc) as [_ Hc].
  destruct (ltb_not_nan _ _ Hab) as [Ha _].
  destruct (a <? c) eqn:Hac; [done|].
  assert ((c <=? a) = true) as Hca by (by apply not_ltb_leb).
  pose proof (leb_trans _ _ _ Hbc Hca) as Hba.
  apply leb_not_ltb in Hba. congruence.
Qed.

Lemma leb_ltb_trans a b c :
  (a <=? b) = true → (b <? c) = true → (a <? c) = true.
Proof.
  intros Hab Hbc.
  destruct (leb_not_nan _ _ Hab) as [Ha _].
  destruct (ltb_not_nan _ _ Hbc) as [_ Hc].
  destruct (a <? c) eqn:Hac; [done|].
  assert ((c <=? a) = true) as Hca by (by apply not_ltb_leb).
  pose proof (leb_trans _ _ _ Hca Hab) as Hcb.
  apply leb_not_ltb in Hcb. congruence.
Qed.

(** The quality after clamping, [Math.max(0, Math.min(5, quality))]. *)
Lemma clamp_below quality :
  (quality <? 3) = true → (Math_max 0 (Math_min 5 quality) <? 3) = true.
Proof.
  intros Hq. destruct (ltb_not_nan _ _ Hq) as [Hnan _].
  assert (Math_min 5 quality = quality) as ->.
  { unfold Math_min. rewrite Hnan. simpl.
    destruct (5 <? quality) eqn:H5.
    - pose proof (ltb_leb_trans _ _ _ H5 (ltb_leb _ _ Hq)) as H. by vm_compute in H.
    - by destruct (quality <? 5). }
  unfold Math_max. rewrite Hnan. simpl. by repeat case_match.
Qed.

Lemma clamp_above quality :
  (3 <=? quality) = true → (Math_max 0 (Math_min 5 quality) <? 3) = false.
Proof.
  intros Hq. destruct (leb_not_nan _ _ Hq) as [_ Hnan].
  apply leb_not_ltb.
  assert ((3 <=? Math_min 5 quality) = true) as Hmin.
  { unfold Math_min. rewrite Hnan. simpl. by repeat case_match. }
  destruct (leb_not_nan _ _ Hmin) as [_ Hnan'].
  unfold Math_max. rewrite Hnan'. simpl. 
  destruct (0 <? Math_min 5 quality) eqn:H0; [done|].
  assert ((Math_min 5 quality <=? 0) = true) as H by (by apply not_ltb_leb).
  pose proof (leb_trans _ _ _ Hmin H) as H'. by vm_compute in H'.
Qed.

Lemma number_eqb_zero x : (x =? 0) = true → x = 0 ∨ x = neg_zero.
Proof.
  rewrite FloatAxioms.eqb_spec. change (Prim2SF 0) with (S754_zero false).
  intros H. rewrite <-(SF2Prim_Prim2SF x).
  destruct (Prim2SF x) as [[]|[]| |[] m e]; try done; auto.
Qed.

Lemma number_eqb_finite x y :
  (x =? y) = true → is_zero y = false → x = y.
Proof.
  rewrite FloatAxioms.eqb_spec. unfold is_zero.
  rewrite FloatAxioms.eqb_spec. change (Prim2SF 0) with (S754_zero false).
  intros H Hy. apply Prim2SF_inj.
  destruct (Prim2SF x) as [[]|[]| |s m e], (Prim2SF y) as [[]|[]| |s' m' e'];
    try done; try (by destruct s'); try (by destruct s).
  by apply SFeqb_finite in H as (-> & -> & ->).
Qed.

End IntegerNumbers.

(** ** Rounding against a threshold *)

Section Scaled.
Local Open Scope Z_scope.

Lemma scaled_compare_finite s1 m1 e1 s2 m2 e2 :
  bounded prec emax m1 e1 = true → bounded prec emax m2 e2 = true →
  SFcompare (S754_finite s1 m1 e1) (S754_finite s2 m2 e2)
  = Some (scaled (S754_finite s1 m1 e1) ?= scaled (S754_finite s2 m2 e2)).
Proof.
  intros H1 H2.
  pose proof (bounded_inv _ _ H1) as (_ & He1 & _).
  pose proof (bounded_inv _ _ H2) as (_ & He2 & _).
  pose proof (aligned_lt m1 e1 m2 e2 H1 H2) as Hlt.
  pose proof (aligned_lt m2 e2 m1 e1 H2 H1) as Hgt.
  rewrite (Z.min_comm e2 e1) in Hgt.
  set (ez := e1 `min` e2) in *.
  unfold SpecFloat.emin, prec, emax in *.
  assert (0 < 2 ^ (ez + 1100)) as Hpow by (apply Z.pow_pos_nonneg; lia).
  assert (2 ^ (e1 + 1100) = 2 ^ (e1 - ez) * 2 ^ (ez + 1100)) as Hp1.
  { rewrite <-Z.pow_add_r by lia. f_equal. lia. }
  assert (2 ^ (e2 + 1100) = 2 ^ (e2 - ez) * 2 ^ (ez + 1100)) as Hp2.
  { rewrite <-Z.pow_add_r by lia. f_equal. lia. }
  assert (e1 = e2 → 2 ^ (e1 - ez) = 1 ∧ 2 ^ (e2 - ez) = 1) as Heq.
  { intros ->. unfold ez. by rewrite Z.min_id, Z.sub_diag. }
  assert (0 < 2 ^ (e1 - ez) ∧ 0 < 2 ^ (e2 - ez)) as [Hq1 Hq2]
    by (split; apply Z.pow_pos_nonneg; lia).
  cbn [scaled SFcompare]. rewrite Hp1, Hp2.
  set (K := 2 ^ (ez + 1100)) in *.
  set (a := 2 ^ (e1 - ez)) in *. set (b := 2 ^ (e2 - ez)) in *.
  change (Pos.compare_cont Eq m1 m2) with (Z.pos m1 ?= Z.pos m2).
  f_equal. symmetry.
  destruct (Z.compare_spec e1 e2) as [He|He|He];
    [destruct (Heq He) as [Ha Hb]; rewrite Ha, Hb;
     destruct (Z.compare_spec (Z.pos m1) (Z.pos m2)) as [Hm|Hm|Hm]|..];
    destruct s1, s2; cbn [cond_Zopp CompOpp];
    first [apply Z.compare_eq_iff|apply Z.compare_lt_iff
          |apply Z.compare_gt_iff]; nia.
Qed.

Lemma scaled_compare x y :
  valid_binary x = true → valid_binary y = true →
  SFnumber x = true → SFnumber y = true →
  SFcompare x y = Some (scaled x ?= scaled y).
Proof.
  destruct x as [s1|s1| |s1 m1 e1], y as [s2|s2| |s2 m2 e2]; try done.
  - intros _ Hy _ _. pose proof (bounded_inv _ _ Hy) as (_ & He & _).
    unfold SpecFloat.emin, prec, emax in *.
    assert (0 < 2 ^ (e2 + 1100)) by (apply Z.pow_pos_nonneg; lia).
    cbn [scaled SFcompare]. f_equal. symmetry.
    destruct s2; cbn [cond_Zopp];
      [apply Z.compare_gt_iff|apply Z.compare_lt_iff]; nia.
  - intros Hx _ _ _. pose proof (bounded_inv _ _ Hx) as (_ & He & _).
    unfold SpecFloat.emin, prec, emax in *.
    assert (0 < 2 ^ (e1 + 1100)) by (apply Z.pow_pos_nonneg; lia).
    cbn [scaled SFcompare]. f_equal. symmetry.
    destruct s1; cbn [cond_Zopp];
      [apply Z.compare_lt_iff|apply Z.compare_gt_iff]; nia.
  - intros Hx Hy _ _. by apply scaled_compare_finite.
Qed.

Lemma scaled_SFint s p :
  Z.pos p < 2 ^ 53 → scaled (SFint s p) = cond_Zopp s (Z.pos p) * 2 ^ 1100.
Proof.
  intros Hp. destruct (SFint_mantissa p Hp) as [Hm _].
  pose proof (digits2_pos_le p 53 Hp).
  cbn [SFint scaled]. 
  set (d := Z.pos (digits2_pos p)) in *.
  assert (2 ^ 1100 = 2 ^ (53 - d) * 2 ^ (d - 53 + 1100)) as ->.
  { rewrite <-Z.pow_add_r by lia. f_equal. lia. }
  rewrite Hm. destruct s; unfold cond_Zopp; lia.
Qed.

Lemma scaled_SFZ z : Z.abs z < 2 ^ 53 → scaled (SFZ z) = z * 2 ^ 1100.
Proof.
  intros Hz. destruct z as [|p|p]; [done|..]; cbn [SFZ];
    by rewrite scaled_SFint.
Qed.

End Scaled.

Section RoundFacts.

Lemma scaled_leb a b :
  SFnumber (Prim2SF a) = true → SFnumber (Prim2SF b) = true →
  (a <=? b) = (scaled (Prim2SF a) <=? scaled (Prim2SF b))%Z.
Proof.
  intros Ha Hb. rewrite FloatAxioms.leb_spec. unfold SFleb.
  rewrite scaled_compare by auto using Prim2SF_valid.
  unfold Z.leb. by destruct (_ ?= _)%Z.
Qed.

Lemma Prim2SF_integral s z :
  (Z.abs z < 2 ^ 53)%Z →
  SFnumber (Prim2SF (integral s z)) = true
  ∧ scaled (Prim2SF (integral s z)) = (z * 2 ^ 1100)%Z.
Proof.
  intros Hz. unfold integral. destruct (Z.eqb_spec z 0) as [->|Hne].
  - by destruct s.
  - rewrite Prim2SF_number_of_Z by done. rewrite scaled_SFZ by done.
    split; [|done]. by destruct z.
Qed.

(** [Math.round(x)] is at least the whole number [k] exactly when [x] is
    at least [k - 1/2]. *)
Lemma Math_round_ge x h k :
  (Z.abs k < 2 ^ 52)%Z →
  SFnumber (Prim2SF h) = true →
  scaled (Prim2SF h) = ((2 * k - 1) * 2 ^ 1099)%Z →
  (number_of_Z k <=? Math_round x) = (h <=? x).
Proof.
  intros Hk Hh Hscaled.
  assert (SFnumber (Prim2SF (number_of_Z k)) = true
          ∧ scaled (Prim2SF (number_of_Z k)) = (k * 2 ^ 1100)%Z) as [Hnk Hsk].
  { rewrite Prim2SF_number_of_Z, scaled_SFZ by lia. split; [|done].
    by destruct k. }
  assert (∀ s z, (Z.abs z < 2 ^ 53)%Z →
    SFnumber (Prim2SF (integral s z)) = true
    ∧ scaled (Prim2SF (integral s z)) = (z * 2 ^ 1100)%Z) as Hintegral
    by apply Prim2SF_integral.
  assert (∀ e, (-1074 ≤ e < 0)%Z → (2 ^ (- e) * 2 ^ (e + 1100) = 2 ^ 1100)%Z)
    as Hsplit.
  { intros e He. rewrite <-Z.pow_add_r by lia. f_equal. lia. }
  assert (∀ e, (0 ≤ e)%Z → (2 ^ (e + 1100) = 2 ^ e * 2 ^ 1100)%Z) as Hsplit'.
  { intros e He. by rewrite Z.pow_add_r by lia. }
  change (2 ^ 1100)%Z with (2 * 2 ^ 1099)%Z in *.
  assert (0 < 2 ^ 1099)%Z as Hpos by done.
  set (C := (2 ^ 1099)%Z) in *. clearbody C.
  pose proof (Prim2SF_valid x) as Hvalid.
  unfold Math_round.
  destruct (Prim2SF x) as [s|s| |s m e] eqn:Hx.
  - rewrite !scaled_leb by (by rewrite ?Hx).
    rewrite Hsk, Hscaled, Hx. cbn [scaled].
    apply eq_true_iff_eq. rewrite !Z.leb_le.
    destruct (Z.le_gt_cases k 0); nia.
  - rewrite !FloatAxioms.leb_spec, Hx. unfold SFleb.
    destruct (Prim2SF (number_of_Z k)), (Prim2SF h); try done; by destruct s.
  - rewrite !FloatAxioms.leb_spec, Hx. unfold SFleb.
    by destruct (Prim2SF (number_of_Z k)), (Prim2SF h).
  - pose proof (bounded_inv _ _ Hvalid) as (Hd & He & _).
    pose proof (digits2_pos_bounds m) as [_ Hm].
    assert (Z.pos m < 2 ^ 53)%Z as Hm53.
    { eapply Z.lt_le_trans; [done|]. apply Z.pow_le_mono_r; lia. }
    unfold SpecFloat.emin, prec, emax in *.
    destruct (Z.leb_spec 0 e) as [Hpose|Hnege].
    + rewrite !scaled_leb by (by rewrite ?Hx).
      rewrite Hsk, Hscaled, Hx. cbn [scaled].
      rewrite Hsplit' by lia.
      assert (0 < 2 ^ e)%Z by (apply Z.pow_pos_nonneg; lia).
      set (M := cond_Zopp s (Z.pos m)). set (Q := (2 ^ e)%Z) in *.
      replace (M * (Q * (2 * C)))%Z with (M * Q * (2 * C))%Z by lia.
      generalize (M * Q)%Z. intros N.
      apply eq_true_iff_eq. rewrite !Z.leb_le.
      destruct (Z.le_gt_cases k N); nia.
    + set (M := if s then Z.neg m else Z.pos m).
      set (P := (2 ^ (- e))%Z).
      assert (2 ≤ P)%Z as HP.
      { unfold P. change 2%Z with (2 ^ 1)%Z at 1.
        apply Z.pow_le_mono_r; lia. }
      assert (2 ^ (1 - e) = 2 * P)%Z as ->.
      { unfold P. replace (1 - e)%Z with (1 + - e)%Z by lia.
        by rewrite Z.pow_add_r by lia. }
      set (z := ((2 * M + P) / (2 * P))%Z).
      assert (2 * P * z ≤ 2 * M + P < 2 * P * z + 2 * P)%Z as Hz.
      { unfold z. pose proof (Z.mul_div_le (2 * M + P) (2 * P)).
        pose proof (Z.mul_succ_div_gt (2 * M + P) (2 * P)). lia. }
      assert (Z.abs M < 2 ^ 53)%Z as HM by (unfold M; destruct s; simpl; lia).
      assert (Z.abs z < 2 ^ 53)%Z as Hz53 by nia.
      destruct (Hintegral s z Hz53) as [Hnum Hsz].
      rewrite !scaled_leb by (by rewrite ?Hx).
      rewrite Hsk, Hscaled, Hsz, Hx. cbn [scaled].
      assert (cond_Zopp s (Z.pos m) = M) as -> by (by destruct s).
      set (K := (2 ^ (e + 1100))%Z).
      assert (P * K = 2 * C)%Z as HPK by (apply Hsplit; lia).
      assert (0 < K)%Z by (apply Z.pow_pos_nonneg; lia).
      apply eq_true_iff_eq. rewrite !Z.leb_le.
      split; intros Hle.
      * assert (k ≤ z)%Z by nia.
        assert ((2 * k - 1) * P ≤ 2 * M)%Z by nia.
        assert ((2 * k - 1) * C * P ≤ M * K * P)%Z; [|nia].
        replace (M * K * P)%Z with (M * (P * K))%Z by lia. rewrite HPK. nia.
      * assert ((2 * k - 1) * C * P ≤ M * K * P)%Z as Hle' by nia.
        replace (M * K * P)%Z with (M * (P * K))%Z in Hle' by lia.
        rewrite HPK in Hle'.
        assert ((2 * k - 1) * P ≤ 2 * M)%Z by nia.
        assert (k ≤ z)%Z by nia. nia.
Qed.

End RoundFacts.

(** ** The scheduler: lapses and successful reviews *)

(** X1: a lapse.  When the quality is below 3, [calculateNextReview] sets the
    repetitions and the interval to 0 and schedules the card at the clock
    reading itself ([now + 0]): the card is due at a reading [later] exactly
    when [now <= later], and [getCardStudyStatus] reports it as new, with
    mastery 0. *)
Theorem calculateNextReview_lapse now card quality :
  (quality <? 3) = true →
  let r := calculateNextReview now card quality in
  repetitions r = 0 ∧ interval r = 0 ∧ nextReview r = now + 0
  ∧ (∀ later, isCardDue later r = (now <=? later))
  ∧ (∀ t t', status (getCardStudyStatus t t' r) = "new"%string
             ∧ mastery (getCardStudyStatus t t' r) = 0).
Proof.
  intros Hq%clamp_below r. unfold r, calculateNextReview. rewrite Hq.
  cbn [repetitions interval nextReview].
  split; [done|]. split; [done|].
  assert (0 * 24 * 60 * 60 * 1000 = 0) as -> by (by vm_compute).
  split; [done|]. split.
  - intros later. unfold isCardDue. cbn [nextReview]. apply add_zero_leb.
  - intros t t'. by vm_compute.
Qed.

(** X1: the hypothesis of [calculateNextReview_lapse] holds for a card
    rated with quality 2. *)
Lemma calculateNextReview_lapse_witness :
  let r := calculateNextReview 1000 (mkCard 1 "front" "back" 2.5 6 2 0) 2 in
  repetitions r = 0 ∧ interval r = 0 ∧ nextReview r = 1000 + 0
  ∧ (∀ later, isCardDue later r = (1000 <=? later))
  ∧ (∀ t t', status (getCardStudyStatus t t' r) = "new"%string
             ∧ mastery (getCardStudyStatus t t' r) = 0).
Proof.
  exact (calculateNextReview_lapse 1000 (mkCard 1 "front" "back" 2.5 6 2 0) 2
           eq_refl).
Defined.

(** X2: a successful review.  When the quality is 3 or more,
    [calculateNextReview] adds one to the repetitions; a card without
    repetitions gets the interval 1 and is scheduled 86400000 ms after the
    clock reading, a card with one repetition gets the interval 6 and
    518400000 ms, and any other card gets its interval times its ease
    factor, rounded.  With a clock that counts whole milliseconds the card
    is due again exactly from that instant on. *)
Theorem calculateNextReview_success now card quality :
  (3 <=? quality) = true →
  let r := calculateNextReview now card quality in
  repetitions r = repetitions card + 1
  ∧ ((repetitions card =? 0) = true →
     interval r = 1 ∧ nextReview r = now + 86400000)
  ∧ ((repetitions card =? 1) = true →
     interval r = 6 ∧ nextReview r = now + 518400000)
  ∧ ((repetitions card + 1 =? 1) = false →
     (repetitions card + 1 =? 2) = false →
     interval r = Math_round (interval card * easeFactor card))
  ∧ (∀ t t' : Z, (0 ≤ t < 2 ^ 52)%Z → (0 ≤ t' < 2 ^ 53)%Z →
       now = number_of_Z t →
       ((repetitions card =? 0) = true →
        isCardDue (number_of_Z t') r = (t + 86400000 <=? t')%Z)
       ∧ ((repetitions card =? 1) = true →
          isCardDue (number_of_Z t') r = (t + 518400000 <=? t')%Z)).
Proof.
  intros Hq%clamp_above r. unfold r, calculateNextReview. rewrite Hq.
  assert ((repetitions card =? 0) = true →
          (repetitions card + 1 =? 1) = true) as H0.
  { intros [->| ->]%number_eqb_zero; by vm_compute. }
  assert ((repetitions card =? 1) = true →
          (repetitions card + 1 =? 1) = false
          ∧ (repetitions card + 1 =? 2) = true) as H1.
  { intros ->%number_eqb_finite; by vm_compute. }
  assert (∀ t t' d : Z, (0 ≤ t < 2 ^ 52)%Z → (0 ≤ t' < 2 ^ 53)%Z →
    (0 ≤ d < 2 ^ 52)%Z →
    (number_of_Z t + number_of_Z d <=? number_of_Z t') = (t + d <=? t')%Z)
    as Hdue.
  { intros t t' d Ht Ht' Hd.
    change (2 ^ 53)%Z with (2 ^ 52 + 2 ^ 52)%Z in *.
    rewrite number_of_Z_add, number_of_Z_leb; [done|lia..]. }
  cbv zeta.
  destruct (repetitions card + 1 =? 1) eqn:E1;
    [|destruct (repetitions card + 1 =? 2) eqn:E2];
    cbn [repetitions interval nextReview isCardDue];
    (split; [done|]); (split; [|split; [|split]]).
  all: try (intros H; first [apply H0 in H|apply H1 in H as [? ?]]; congruence).
  all: try (intros; congruence).
  all: try (by intros _; vm_compute).
  all: intros t t' Ht Ht' ->; unfold isCardDue; cbn [nextReview]; split.
  all: try (intros H; first [apply H0 in H|apply H1 in H as [? ?]]; congruence).
  - intros _. change (1 * 24 * 60 * 60 * 1000) with (number_of_Z 86400000).
    by apply Hdue.
  - intros _. change (6 * 24 * 60 * 60 * 1000) with (number_of_Z 518400000).
    by apply Hdue.
Qed.

(** X2: the hypothesis of [calculateNextReview_success] holds for a new
    card rated with quality 4. *)
Lemma calculateNextReview_success_witness :
  let now := 1000 in
  let card := mkCard 1 "front" "back" 2.5 0 0 0 in
  let r := calculateNextReview now card 4 in
  repetitions r = repetitions card + 1
  ∧ ((repetitions card =? 0) = true →
     interval r = 1 ∧ nextReview r = now + 86400000)
  ∧ ((repetitions card =? 1) = true →
     interval r = 6 ∧ nextReview r = now + 518400000)
  ∧ ((repetitions card + 1 =? 1) = false →
     (repetitions card + 1 =? 2) = false →
     interval r = Math_round (interval card * easeFactor card))
  ∧ (∀ t t' : Z, (0 ≤ t < 2 ^ 52)%Z → (0 ≤ t' < 2 ^ 53)%Z →
       now = number_of_Z t →
       ((repetitions card =? 0) = true →
        isCardDue (number_of_Z t') r = (t + 86400000 <=? t')%Z)
       ∧ ((repetitions card =? 1) = true →
          isCardDue (number_of_Z t') r = (t + 518400000 <=? t')%Z)).
Proof.
  exact (calculateNextReview_success 1000 (mkCard 1 "front" "back" 2.5 0 0 0) 4
           eq_refl).
Defined.

(** ** The recommended session *)

Lemma number_of_Z_not_nan z :
  (Z.abs z < 2 ^ 53)%Z → is_nan (number_of_Z z) = false.
Proof.
  intros Hz. rewrite is_nan_false, Prim2SF_number_of_Z by done.
  by destruct z.
Qed.

Lemma Math_min_int a b :
  (Z.abs a < 2 ^ 53)%Z → (Z.abs b < 2 ^ 53)%Z →
  Math_min (number_of_Z a) (number_of_Z b) = number_of_Z (Z.min a b).
Proof.
  intros Ha Hb. unfold Math_min.
  rewrite !number_of_Z_not_nan, !number_of_Z_ltb by done. simpl.
  destruct (Z.ltb_spec a b); [by rewrite Z.min_l by lia|].
  destruct (Z.ltb_spec b a); [by rewrite Z.min_r by lia|].
  replace b with a by lia. rewrite Z.min_id. by destruct (get_sign _).
Qed.

Lemma filter_at_length clock test cards :
  (length (filter_at clock test cards) ≤ length cards)%nat.
Proof.
  revert clock. induction cards as [|c cards IH]; intros clock; simpl; [done|].
  specialize (IH (λ i, clock (S i))). destruct (test _ _); simpl; lia.
Qed.

(** The quotient [floor(k / 3) || 5] for the whole numbers up to 15. *)
Lemma third_or_five k :
  (k ≤ 15)%nat →
  or_else (Some (Math_floor (number_of_nat k / 3))) 5
  = number_of_nat (if (k <? 3)%nat then 5 else k / 3).
Proof.
  intros Hk. do 16 (destruct k as [|k]; [by vm_compute|]). lia.
Qed.

Lemma recommended_numbers (d n : nat) :
  (Z.of_nat d < 2 ^ 53)%Z → (Z.of_nat n < 2 ^ 53)%Z →
  let due := (d `min` 15)%nat in
  let new := (n `min` (if (due <? 3)%nat then 5 else due / 3))%nat in
  let recommendedDue := Math_min (number_of_nat d) 15 in
  let recommendedNew :=
    Math_min (number_of_nat n)
      (or_else (Some (Math_floor (recommendedDue / 3))) 5) in
  recommendedDue = number_of_nat due
  ∧ recommendedNew = number_of_nat new
  ∧ recommendedDue + recommendedNew = number_of_nat (due + new)
  ∧ (due ≤ 15)%nat ∧ (new ≤ 5)%nat.
Proof.
  intros Hd Hn due new recommendedDue recommendedNew.
  assert (due ≤ 15)%nat as Hdue by (unfold due; lia).
  assert ((if (due <? 3)%nat then 5 else due / 3) ≤ 5)%nat as Hthird.
  { destruct (due <? 3)%nat; [lia|].
    apply Nat.Div0.div_le_upper_bound. lia. }
  assert (new ≤ 5)%nat as Hnew by (unfold new; lia).
  assert (recommendedDue = number_of_nat due) as HrDue.
  { unfold recommendedDue, number_of_nat. change 15 with (number_of_Z 15).
    rewrite Math_min_int by lia. f_equal. unfold due. lia. }
  assert (recommendedNew = number_of_nat new) as HrNew.
  { unfold recommendedNew. rewrite HrDue, third_or_five by done.
    unfold number_of_nat. rewrite Math_min_int by lia.
    f_equal. unfold new. lia. }
  split; [done|]. split; [done|]. split; [|done].
  rewrite HrDue, HrNew. unfold number_of_nat.
  rewrite number_of_Z_add by lia. f_equal. lia.
Qed.

(** X3: the sizes [getRecommendedSession] recommends.  Whatever the clock
    does, the counts of due, new and learning cards are at most the number
    of cards; [recommendedDue] is the number of due cards capped at 15;
    [recommendedNew] is the number of new cards capped at a third of
    [recommendedDue] rounded down, or at 5 when [recommendedDue] is below 3;
    [recommendedTotal] is their sum.  So at most 15 due and 5 new cards are
    recommended. *)
Theorem getRecommendedSession_sizes clock cards :
  (Z.of_nat (length cards) < 2 ^ 53)%Z →
  let r := getRecommendedSession clock cards in
  let due := (dueCards r `min` 15)%nat in
  let new := (newCards r `min` (if (due <? 3)%nat then 5 else due / 3))%nat in
  (dueCards r ≤ totalCards r)%nat ∧ (newCards r ≤ totalCards r)%nat
  ∧ (learningCards r ≤ totalCards r)%nat
  ∧ recommendedDue r = number_of_nat due
  ∧ recommendedNew r = number_of_nat new
  ∧ recommendedTotal r = number_of_nat (due + new)
  ∧ (due ≤ 15)%nat ∧ (new ≤ 5)%nat.
Proof.
  intros Hlen r due new.
  assert (dueCards r ≤ length cards)%nat as Hdue by apply filter_at_length.
  assert (newCards r ≤ length cards)%nat as Hnew by apply length_filter.
  split; [done|]. split; [done|]. split; [apply filter_at_length|].
  apply (recommended_numbers (dueCards r) (newCards r)); lia.
Qed.

(** X3: the hypothesis of [getRecommendedSession_sizes] holds for three
    cards. *)
Lemma getRecommendedSession_sizes_witness :
  let cards := [mkCard 1 "a" "A" 2.5 0 0 0; mkCard 2 "b" "B" 2.5 6 2 5000;
                mkCard 3 "c" "C" 2.5 1 1 500] in
  let r := getRecommendedSession (λ i, number_of_nat (1000 + i)) cards in
  let due := (dueCards r `min` 15)%nat in
  let new := (newCards r `min` (if (due <? 3)%nat then 5 else due / 3))%nat in
  (dueCards r ≤ totalCards r)%nat ∧ (newCards r ≤ totalCards r)%nat
  ∧ (learningCards r ≤ totalCards r)%nat
  ∧ recommendedDue r = number_of_nat due
  ∧ recommendedNew r = number_of_nat new
  ∧ recommendedTotal r = number_of_nat (due + new)
  ∧ (due ≤ 15)%nat ∧ (new ≤ 5)%nat.
Proof.
  apply (getRecommendedSession_sizes (λ i, number_of_nat (1000 + i))
           [mkCard 1 "a" "A" 2.5 0 0 0; mkCard 2 "b" "B" 2.5 6 2 5000;
            mkCard 3 "c" "C" 2.5 1 1 500]).
  simpl. lia.
Defined.

Lemma filter_at_constant now test cards :
  ∀ clock, (∀ i, clock i = now) →
  filter_at clock test cards = filter (λ c, test now c = true) cards.
Proof.
  induction cards as [|c cards IH]; intros clock Hclock; simpl; [done|].
  rewrite (IH (λ i, clock (S i))) by auto. rewrite Hclock, filter_cons.
  destruct (test now c) eqn:Ht.
  - by rewrite decide_True.
  - by rewrite decide_False by congruence.
Qed.

(** X4: what [getRecommendedSession] counts when the clock does not
    advance during the call.  The due cards are those scheduled at or
    before the reading, the learning cards those that are not due and have
    repetitions, the new cards those without repetitions (due or not).  Due
    and learning cards are disjoint; a card without repetitions that is not
    due is in neither group. *)
Theorem getRecommendedSession_counts clock cards now :
  (∀ i, clock i = now) →
  let r := getRecommendedSession clock cards in
  dueCards r = length (filter (λ c, isCardDue now c = true) cards)
  ∧ learningCards r
    = length (filter (λ c, isCardDue now c = false
                           ∧ (0 <? repetitions c) = true) cards)
  ∧ newCards r = length (filter (λ c, (repetitions c =? 0) = true) cards)
  ∧ (dueCards r + learningCards r ≤ totalCards r)%nat
  ∧ (∀ c, c ∈ cards → (repetitions c =? 0) = true →
          isCardDue now c = false →
          (dueCards r + learningCards r < totalCards r)%nat).
Proof.
  intros Hclock r. unfold r, getRecommendedSession.
  cbn [dueCards learningCards newCards totalCards].
  rewrite !(filter_at_constant now) by auto.
  assert (∀ l : list Card,
    filter (λ c, negb (isCardDue now c) && (0 <? repetitions c) = true) l
    = filter (λ c, isCardDue now c = false ∧ (0 <? repetitions c) = true) l)
    as ->.
  { intros l. apply list_filter_iff. intros c.
    rewrite andb_true_iff, negb_true_iff. done. }
  split; [done|]. split; [done|]. split; [done|].
  set (due := λ c, isCardDue now c = true).
  set (learning := λ c, isCardDue now c = false ∧ (0 <? repetitions c) = true).
  set (neither := λ c, isCardDue now c = false ∧ (0 <? repetitions c) = false).
  assert (∀ l : list Card,
    (length (filter due l) + length (filter learning l)
     + length (filter neither l) = length l)%nat) as Hsplit.
  { induction l as [|c l IH]; [done|]. rewrite !filter_cons.
    unfold due at 1, learning at 1, neither at 1.
    repeat case_decide; simpl; try lia; exfalso;
      destruct (isCardDue now c), (0 <? repetitions c); intuition congruence. }
  split; [specialize (Hsplit cards); lia|].
  intros c Hc Hnew Hdue.
  assert (0 < length (filter neither cards))%nat;
    [|specialize (Hsplit cards); lia].
  assert (c ∈ filter neither cards) as Hin.
  { apply list_elem_of_filter. split; [|done]. split; [done|].
    apply number_eqb_zero in Hnew as [->| ->]; done. }
  destruct (filter _ cards); [by apply elem_of_nil in Hin|simpl; lia].
Qed.

(** X4: the hypothesis of [getRecommendedSession_counts] holds for a
    clock that stands at 1000. *)
Lemma getRecommendedSession_counts_witness :
  let cards := [mkCard 1 "a" "A" 2.5 0 0 5000; mkCard 2 "b" "B" 2.5 6 2 5000;
                mkCard 3 "c" "C" 2.5 1 1 500] in
  let now := 1000 in
  let r := getRecommendedSession (λ _, now) cards in
  dueCards r = length (filter (λ c, isCardDue now c = true) cards)
  ∧ learningCards r
    = length (filter (λ c, isCardDue now c = false
                           ∧ (0 <? repetitions c) = true) cards)
  ∧ newCards r = length (filter (λ c, (repetitions c =? 0) = true) cards)
  ∧ (dueCards r + learningCards r ≤ totalCards r)%nat
  ∧ (∀ c, c ∈ cards → (repetitions c =? 0) = true →
          isCardDue now c = false →
          (dueCards r + learningCards r < totalCards r)%nat).
Proof.
  apply (getRecommendedSession_counts (λ _, 1000)
           [mkCard 1 "a" "A" 2.5 0 0 5000; mkCard 2 "b" "B" 2.5 6 2 5000;
            mkCard 3 "c" "C" 2.5 1 1 500] 1000).
  reflexivity.
Defined.

(** ** The length of a test session *)

Section TestSession.

Lemma draw_cyclic_length n source :
  length (draw_cyclic n source)
  = if decide (source = []) then 0%nat else Z.to_nat n.
Proof.
  destruct (decide _) as [->|Hs]; [done|]. by apply draw_cyclic_spec.
Qed.

Lemma draw_cyclic_elem n source c :
  c ∈ draw_cyclic n source → c ∈ source.
Proof.
  unfold draw_cyclic. destruct (_ <? _)%nat; [|by intros ?%elem_of_nil].
  intros (i & _ & Hc)%list_elem_of_omap. by eapply list_elem_of_lookup_2.
Qed.

Lemma ceil_div_34 count :
  (0 ≤ count)%Z → (0 ≤ ceil_div (count * 3) 4 ≤ count)%Z.
Proof.
  intros Hc. unfold ceil_div. split.
  - apply Z.opp_nonneg_nonpos, Z.div_le_upper_bound; lia.
  - apply Z.opp_le_mono. rewrite Z.opp_involutive.
    apply Z.div_le_lower_bound; lia.
Qed.

Lemma additionalCards_length count m :
  cards m ≠ [] → (0 ≤ count)%Z →
  length (additionalCards count m) = Z.to_nat count.
Proof.
  intros Hcards Hcount. rewrite additionalCards_eq. cbv zeta.
  pose proof (ceil_div_34 count Hcount) as Hk.
  rewrite !length_app, !draw_cyclic_length.
  repeat destruct (decide _); try done; lia.
Qed.

Lemma additionalCards_elem count m c :
  c ∈ additionalCards count m →
  c ∈ incorrectCards m ∨ c ∈ correctCards m ∨ c ∈ cards m.
Proof.
  rewrite additionalCards_eq. cbv zeta. rewrite !elem_of_app.
  intros [H|[H|H]]; apply draw_cyclic_elem in H; auto.
Qed.

Lemma shuffled_length {A} rnd (a : list A) : length (shuffled rnd a) = length a.
Proof. by rewrite shuffled_Permutation. Qed.

Lemma slice0_length {A} (n : Z) (a : list A) :
  (0 ≤ n ≤ Z.of_nat (length a))%Z → length (slice0 n a) = Z.to_nat n.
Proof.
  intros Hn. unfold slice0.
  destruct (n <? 0)%Z eqn:Hneg; [apply Z.ltb_lt in Hneg; lia|].
  rewrite length_take. lia.
Qed.

Lemma sortCardsByPriority_length s l :
  length (sortCardsByPriority s l) = length l.
Proof. unfold sortCardsByPriority. by rewrite Array_sort_perm. Qed.

Lemma session_after_start s0 s rnd count dbCards :
  dbCards ≠ [] →
  let T := targetCount_or count (Z.of_nat (length dbCards)) in
  (1 ≤ T)%Z →
  session_after T 0 (startTestMode s rnd (loadSet s0 count dbCards)).
Proof.
  intros Hdb T HT.
  assert (0 < length dbCards)%nat as Hlen by (destruct dbCards; simpl; [done|lia]).
  unfold session_after, startTestMode, prepareTestCards, loadSet.
  cbn [cards testTargetCount testCards currentIndex sessionEnded].
  rewrite shuffled_length, sortCardsByPriority_length. fold T.
  split.
  { intros Hnil. apply (f_equal length) in Hnil.
    rewrite sortCardsByPriority_length in Hnil. simpl in Hnil. lia. }
  assert (length (if (T <=? Z.of_nat (length dbCards))%Z
                  then slice0 T (sortCardsByPriority s
                                  (sortCardsByPriority s0 dbCards))
                  else sortCardsByPriority s0 dbCards)
          = Z.to_nat (Z.min T (Z.of_nat (length dbCards)))) as ->.
  { destruct (Z.leb_spec T (Z.of_nat (length dbCards))).
    - rewrite slice0_length by (rewrite !sortCardsByPriority_length; lia). lia.
    - rewrite sortCardsByPriority_length. lia. }
  split.
  { unfold T, targetCount_or in *. destruct count as [n|]; [|lia].
    destruct (n =? 0)%Z; [lia|done]. }
  split; [lia|]. left. repeat split; try done; lia.
Qed.

Lemma session_after_submit T k m now answer :
  session_after T k m → session_after T k (checkTestAnswer now answer m).
Proof.
  unfold checkTestAnswer.
  destruct (testCards m !! currentIndex m); [|done].
  by destruct answer.
Qed.

Lemma session_after_next T k m rnd :
  session_after T k m → session_after T (S k) (nextTestQuestion rnd m).
Proof.
  intros (Hcards & Htarget & Hle & Hstate).
  unfold nextTestQuestion. rewrite Htarget.
  destruct Hstate as [(Hk & Hend & Hidx & Hlt)|(Hk & Hend & Hidx & Hlen)].
  - destruct (Z.ltb_spec (Z.of_nat (currentIndex m))
                (Z.of_nat (length (testCards m)) - 1)) as [Hmore|Hlast].
    + unfold session_after, advance.
      cbn [cards testTargetCount testCards currentIndex sessionEnded].
      rewrite app_nil_r. split; [done|]. split; [done|]. split; [done|].
      left. repeat split; try done; lia.
    + destruct (Z.ltb_spec (Z.of_nat (length (testCards m))) T) as [Hshort|Hfull].
      * unfold selectAdditionalCards.
        assert (length (shuffled rnd
                  (additionalCards (T - Z.of_nat (length (testCards m))) m))
                = Z.to_nat (T - Z.of_nat (length (testCards m)))) as Hbatch.
        { rewrite shuffled_length. apply additionalCards_length; [done|lia]. }
        destruct (Nat.ltb_spec 0 (length (shuffled rnd
                  (additionalCards (T - Z.of_nat (length (testCards m))) m))));
          [|lia].
        unfold session_after, advance.
        cbn [cards testTargetCount testCards currentIndex sessionEnded].
        rewrite length_app, Hbatch.
        split; [done|]. split.
        { unfold targetCount_or in *. destruct (testTargetCount m) as [n|]; [|lia].
          destruct (n =? 0)%Z; [lia|done]. }
        split; [lia|]. left. repeat split; try done; lia.
      * unfold session_after, endSession.
        cbn [cards testTargetCount testCards currentIndex sessionEnded].
        split; [done|]. split; [done|]. split; [done|].
        right. repeat split; try done; lia.
  - destruct (Z.ltb_spec (Z.of_nat (currentIndex m))
                (Z.of_nat (length (testCards m)) - 1)); [lia|].
    destruct (Z.ltb_spec (Z.of_nat (length (testCards m))) T); [lia|].
    unfold session_after, endSession.
    cbn [cards testTargetCount testCards currentIndex sessionEnded].
    split; [done|]. split; [done|]. split; [done|].
    right. repeat split; try done; lia.
Qed.

Lemma session_after_run T evs : ∀ k m,
  session_after T k m → session_after T (k + nextPresses evs) (run evs m).
Proof.
  induction evs as [|ev evs IH]; intros k m Hm.
  - by rewrite Nat.add_0_r.
  - change (run (ev :: evs) m) with (run evs (handle m ev)).
    destruct ev as [now answer|rnd].
    + apply (IH k). by apply session_after_submit.
    + replace (k + nextPresses (NextTest rnd :: evs))%nat
        with (S k + nextPresses evs)%nat.
      * apply IH. by apply session_after_next.
      * unfold nextPresses. rewrite filter_cons_True by done. simpl. lia.
Qed.

End TestSession.

(** X5: the length of a test session.  For a set with cards and a target
    of [T >= 1] questions ([T] is the [count] parameter, or the number of
    cards when it is absent or 0), whatever is answered: the deck never
    exceeds [T] cards; after [k < T] presses of the next button the session
    is still on and shows question [k] (counted from 0), which exists;
    from the [T]-th press on the session has ended, on the last of exactly
    [T] questions. *)
Theorem test_session_length s0 s rnd count dbCards evs :
  dbCards ≠ [] →
  let T := targetCount_or count (Z.of_nat (length dbCards)) in
  (1 ≤ T)%Z →
  let m := run evs (startTestMode s rnd (loadSet s0 count dbCards)) in
  let k := Z.of_nat (nextPresses evs) in
  (Z.of_nat (length (testCards m)) ≤ T)%Z
  ∧ ((k < T)%Z →
     sessionEnded m = false ∧ Z.of_nat (currentIndex m) = k
     ∧ is_Some (testCards m !! currentIndex m))
  ∧ ((T ≤ k)%Z →
     sessionEnded m = true ∧ Z.of_nat (currentIndex m) = (T - 1)%Z
     ∧ Z.of_nat (length (testCards m)) = T).
Proof.
  intros Hdb T HT m k.
  pose proof (session_after_start s0 s rnd count dbCards Hdb HT) as Hstart.
  apply (session_after_run _ evs) in Hstart. fold T in Hstart.
  rewrite Nat.add_0_l in Hstart. fold m in Hstart.
  destruct Hstart as (_ & _ & Hle & Hstate). split; [done|].
  split; intros Hk; destruct Hstate as [(? & ? & ? & ?)|(? & ? & ? & ?)];
    try lia.
  - split; [done|]. split; [lia|]. apply lookup_lt_is_Some. lia.
  - done.
Qed.

(** X5: the hypotheses of [test_session_length] hold for a set of three
    cards and a test of two questions. *)
Lemma test_session_length_witness :
  let dbCards := [mkCard 1 "a" "A" 2.5 0 0 0; mkCard 2 "b" "B" 2.5 0 0 0;
                  mkCard 3 "c" "C" 2.5 0 0 0] in
  let evs := [SubmitTest 1000 (Some true); NextTest (λ _, 0%fin);
              SubmitTest 2000 (Some false); NextTest (λ _, 0%fin)] in
  let m := run evs (startTestMode (steady 1000) (λ _, 0%fin)
                      (loadSet (steady 1000) (Some 2%Z) dbCards)) in
  (Z.of_nat (length (testCards m)) ≤ 2)%Z
  ∧ ((2 < 2)%Z →
     sessionEnded m = false ∧ Z.of_nat (currentIndex m) = 2%Z
     ∧ is_Some (testCards m !! currentIndex m))
  ∧ ((2 ≤ 2)%Z →
     sessionEnded m = true ∧ Z.of_nat (currentIndex m) = (2 - 1)%Z
     ∧ Z.of_nat (length (testCards m)) = 2%Z).
Proof.
  apply (test_session_length (steady 1000) (steady 1000) (λ _, 0%fin) (Some 2%Z)
           [mkCard 1 "a" "A" 2.5 0 0 0; mkCard 2 "b" "B" 2.5 0 0 0;
            mkCard 3 "c" "C" 2.5 0 0 0]
           [SubmitTest 1000 (Some true); NextTest (λ _, 0%fin);
            SubmitTest 2000 (Some false); NextTest (λ _, 0%fin)]).
  - discriminate.
  - simpl. lia.
Defined.

(** ** The records of a test session *)

Section TestRecords.
Context (pool : list Card).

Lemma track_Forall (P : Card → Prop) card l :
  P card → Forall P l → Forall P (track card l).
Proof.
  intros Hc Hl. unfold track. destruct (has_id _ _); [done|].
  apply Forall_app. by split; [|apply Forall_singleton].
Qed.

Lemma records_ok_submit m now answer :
  records_ok pool m → records_ok pool (checkTestAnswer now answer m).
Proof.
  intros (Hcards & Htest & Hinc & Hcor & Hsum & Hlen & Hcount & Hupd).
  unfold checkTestAnswer.
  destruct (testCards m !! currentIndex m) as [card|] eqn:Hcard;
    [|by repeat split].
  destruct answer as [correct|]; [|by repeat split].
  assert (card ∈ pool) as Hin.
  { rewrite Forall_forall in Htest. by eapply Htest, list_elem_of_lookup_2. }
  unfold records_ok.
  cbn [cards testCards incorrectCards correctCards stats performance
       updatedCards cardsStudied correctCount incorrectCount].
  split; [done|]. split; [done|].
  split. { destruct correct; auto using track_Forall. }
  split. { destruct correct; auto using track_Forall. }
  split; [destruct correct; lia|].
  split; [rewrite length_app; simpl; lia|].
  split.
  { rewrite filter_app, length_app, <-Hcount.
    destruct correct; [rewrite filter_cons_True by done|
                       rewrite filter_cons_False by done]; simpl; lia. }
  apply Forall2_app; [done|]. constructor; [|constructor].
  by exists card, now.
Qed.

Lemma records_ok_next m rnd :
  records_ok pool m → records_ok pool (nextTestQuestion rnd m).
Proof.
  intros (Hcards & Htest & Hinc & Hcor & Hrest).
  unfold nextTestQuestion, advance, endSession.
  repeat case_match; unfold records_ok;
    cbn [cards testCards incorrectCards correctCards stats performance
         updatedCards];
    rewrite ?app_nil_r; repeat (split; [done|]); try done.
  split; [|done]. apply Forall_app. split; [done|].
  apply Forall_forall. intros c Hc.
  unfold selectAdditionalCards in Hc. rewrite shuffled_Permutation in Hc.
  rewrite Forall_forall in Hcards, Hinc, Hcor.
  apply additionalCards_elem in Hc as [?|[?|?]]; auto.
Qed.

Lemma records_ok_run evs : ∀ m, records_ok pool m → records_ok pool (run evs m).
Proof.
  induction evs as [|[now answer|rnd] evs IH]; intros m Hm; [done|..];
    apply IH; simpl; auto using records_ok_submit, records_ok_next.
Qed.

End TestRecords.

Lemma records_ok_start s0 s rnd count dbCards :
  records_ok dbCards (startTestMode s rnd (loadSet s0 count dbCards)).
Proof.
  unfold records_ok, startTestMode, prepareTestCards, loadSet.
  cbn [cards testCards incorrectCards correctCards stats performance
       updatedCards cardsStudied correctCount incorrectCount testTargetCount].
  assert (Forall (.∈ dbCards) (sortCardsByPriority s0 dbCards)) as Hsorted.
  { apply Forall_forall. intros c Hc. unfold sortCardsByPriority in Hc.
    by rewrite Array_sort_perm in Hc. }
  split; [done|]. split; [|by repeat split].
  apply Forall_forall. intros c Hc. rewrite shuffled_Permutation in Hc.
  rewrite Forall_forall in Hsorted. apply Hsorted.
  destruct (_ <=? _)%Z; [|done].
  unfold slice0 in Hc. apply elem_of_take in Hc as (i & Hi & _).
  apply list_elem_of_lookup_2 in Hi. unfold sortCardsByPriority in Hi.
  by rewrite Array_sort_perm in Hi.
Qed.

Lemma run_cards evs : ∀ m, cards (run evs m) = cards m.
Proof.
  induction evs as [|ev evs IH]; intros m; [done|].
  change (run (ev :: evs) m) with (run evs (handle m ev)). rewrite IH.
  destruct ev as [now answer|rnd]; simpl.
  - unfold checkTestAnswer. by repeat case_match.
  - unfold nextTestQuestion, advance, endSession. by repeat case_match.
Qed.

(** X6: the records of a test session.  Whatever the user does, the set
    stays as loaded; [cardsStudied] is the sum of the correct and the
    incorrect counts and the number of performance records and of card
    updates; the correct count is the number of records marked correct; and
    the [i]-th update is [calculateNextReview] applied to a card of the set,
    with quality 4 if the [i]-th record is marked correct and 1 if not, that
    record carrying the id of the same card. *)
Theorem test_session_records s0 s rnd count dbCards evs :
  let m := run evs (startTestMode s rnd (loadSet s0 count dbCards)) in
  cards m = sortCardsByPriority s0 dbCards
  ∧ cardsStudied (stats m)
    = (correctCount (stats m) + incorrectCount (stats m))%nat
  ∧ length (performance m) = cardsStudied (stats m)
  ∧ length (updatedCards m) = cardsStudied (stats m)
  ∧ correctCount (stats m)
    = length (filter (λ p : Z * bool, p.2 = true) (performance m))
  ∧ (∀ i u, updatedCards m !! i = Some u →
       ∃ (card : Card) (now' : number) (correct : bool),
         card ∈ dbCards
         ∧ performance m !! i = Some (id card, correct)
         ∧ u = calculateNextReview now' card (if correct then 4 else 1)).
Proof.
  intros m.
  pose proof (records_ok_run dbCards evs _
    (records_ok_start s0 s rnd count dbCards)) as Hm. fold m in Hm.
  destruct Hm as (_ & _ & _ & _ & Hsum & Hlen & Hcount & Hupd).
  split; [unfold m; by rewrite run_cards|].
  split; [done|]. split; [done|].
  split; [by rewrite (Forall2_length _ _ _ Hupd)|].
  split; [done|].
  intros i u Hu.
  destruct (Forall2_lookup_l _ _ _ _ _ Hupd Hu)
    as ([i' correct] & Hp & card & now' & Hin & Hid & ->).
  simpl in *. subst i'. by exists card, now', correct.
Qed.

(** ** The deck of a test and its replenishment *)

(** X7: the deck of a test.  When the number of questions asked for is
    at most the number of cards, the deck [prepareTestCards] builds is a
    permutation of the first cards of the set as [sortCardsByPriority]
    orders it, and has as many cards as asked for.  When the clock shows
    one value [now] while that sort runs and the priorities at [now] are
    finite numbers, every card of the deck has a priority score at [now] of
    at most that of every card left out. *)
Theorem prepareTestCards_most_urgent s rnd m :
  let total := Z.of_nat (length (cards m)) in
  let T := targetCount_or (testTargetCount m) total in
  let sorted := sortCardsByPriority s (cards m) in
  let deck := testCards (prepareTestCards s rnd m) in
  (0 ≤ T ≤ total)%Z →
  deck ≡ₚ take (Z.to_nat T) sorted
  ∧ length deck = Z.to_nat T
  ∧ take (Z.to_nat T) sorted ++ drop (Z.to_nat T) sorted ≡ₚ cards m
  ∧ ∀ now,
      shows_only s now →
      Forall (λ c, is_finite (getCardPriority now c) = true) (cards m) →
      ∀ c c', c ∈ deck → c' ∈ drop (Z.to_nat T) sorted →
        (getCardPriority now c <=? getCardPriority now c') = true.
Proof.
  intros total T sorted deck HT.
  assert (deck ≡ₚ take (Z.to_nat T) sorted) as Hdeck.
  { unfold deck, prepareTestCards. cbn [testCards]. fold total T.
    rewrite shuffled_Permutation.
    destruct (Z.leb_spec T total); [|lia].
    unfold slice0. destruct (Z.ltb_spec T 0); [lia|].
    rewrite sortCardsByPriority_length. fold total sorted.
    by rewrite Z.min_l by lia. }
  assert (sorted ≡ₚ cards m) as Hperm
    by apply sortCardsByPriority_Permutation.
  split; [done|]. split.
  { rewrite Hdeck, length_take. unfold sorted.
    rewrite sortCardsByPriority_length. lia. }
  split; [by rewrite take_drop|].
  intros now Hs Hfin c c' Hc Hc'. rewrite Hdeck in Hc.
  assert (StronglySorted
    (λ a b, (getCardPriority now a <=? getCardPriority now b) = true)
    (take (Z.to_nat T) sorted ++ drop (Z.to_nat T) sorted)) as Hsorted.
  { rewrite take_drop. apply Sorted_priority.
    - rewrite Hperm. eapply Forall_impl; [exact Hfin|].
      intros x. apply is_finite_not_nan.
    - unfold sorted. rewrite (sortCardsByPriority_steady s now) by done.
      apply Sorted_stable_sort_priority. }
  by eapply (StronglySorted_app_1_elem_of _ _ _ c c') in Hsorted.
Qed.

(** X7: the hypotheses of [prepareTestCards_most_urgent] hold for a set
    of three cards and a test of two questions, sorted while the clock
    shows day 2. *)
Lemma prepareTestCards_most_urgent_witness :
  let now := 172800000 in
  let m := loadSet (steady now) (Some 2%Z)
             [mkCard 1 "a" "A" 2.5 1 1 86400000;
              mkCard 2 "b" "B" 2.5 0 0 172800000;
              mkCard 3 "c" "C" 1.3 6 2 0] in
  let sorted := sortCardsByPriority (steady now) (cards m) in
  let deck := testCards (prepareTestCards (steady now) (λ _, 0%fin) m) in
  deck ≡ₚ take 2 sorted
  ∧ length deck = 2%nat
  ∧ take 2 sorted ++ drop 2 sorted ≡ₚ cards m
  ∧ ∀ c c', c ∈ deck → c' ∈ drop 2 sorted →
      (getCardPriority now c <=? getCardPriority now c') = true.
Proof.
  destruct (prepareTestCards_most_urgent (steady 172800000) (λ _, 0%fin)
              (loadSet (steady 172800000) (Some 2%Z)
                 [mkCard 1 "a" "A" 2.5 1 1 86400000;
                  mkCard 2 "b" "B" 2.5 0 0 172800000;
                  mkCard 3 "c" "C" 1.3 6 2 0]))
    as (Hdeck & Hlen & Hall & Hurgent); [by vm_compute|].
  split; [exact Hdeck|]. split; [exact Hlen|]. split; [exact Hall|].
  apply (Hurgent 172800000); [apply steady_shows_only|].
  vm_compute. by repeat constructor.
Defined.

(** X8: the batch [selectAdditionalCards] returns.  When the set has
    cards, a request for [count >= 0] cards is met in full; a request for
    no card or fewer gives the empty batch, as does any request when the
    set and both answered lists are empty; every card of the batch comes
    from the answered lists or from the set. *)
Theorem selectAdditionalCards_size rnd count m :
  (cards m ≠ [] → (0 ≤ count)%Z →
   length (selectAdditionalCards rnd count m) = Z.to_nat count)
  ∧ ((count ≤ 0)%Z → selectAdditionalCards rnd count m = [])
  ∧ (cards m = [] → incorrectCards m = [] → correctCards m = [] →
     selectAdditionalCards rnd count m = [])
  ∧ (∀ c, c ∈ selectAdditionalCards rnd count m →
       c ∈ incorrectCards m ∨ c ∈ correctCards m ∨ c ∈ cards m).
Proof.
  unfold selectAdditionalCards.
  split; [|split; [|split]].
  - intros Hcards Hcount.
    by rewrite shuffled_length, additionalCards_length.
  - intros Hcount. rewrite additionalCards_eq. cbv zeta.
    assert (ceil_div (count * 3) 4 ≤ 0
            ∧ count - ceil_div (count * 3) 4 ≤ 0)%Z as [Hk Hck].
    { unfold ceil_div.
      assert (0 ≤ - (count * 3) / 4)%Z by (apply Z.div_pos; lia).
      assert (- (count * 3) / 4 ≤ - count)%Z; [|lia].
      apply Z.div_le_upper_bound; lia. }
    rewrite (draw_cyclic_nonpos _ (incorrectCards m)) by done.
    rewrite (draw_cyclic_nonpos _ (correctCards m)) by done.
    by rewrite draw_cyclic_nonpos by (simpl; lia).
  - intros Hcards Hinc Hcor. rewrite additionalCards_eq. cbv zeta.
    by rewrite Hcards, Hinc, Hcor, !draw_cyclic_nil.
  - intros c Hc. rewrite shuffled_Permutation in Hc.
    by apply (additionalCards_elem count).
Qed.

(** ** Flashcards and learn sessions *)

Lemma mapSimpleRatingToQuality_range rating :
  mapSimpleRatingToQuality rating = 3 ∨ mapSimpleRatingToQuality rating = 4
  ∨ mapSimpleRatingToQuality rating = 5.
Proof.
  unfold mapSimpleRatingToQuality, mapping. simpl.
  destruct (rating =? 1); [by left|].
  destruct (rating =? 2); [by left|].
  destruct (rating =? 3); [by right; left|].
  destruct (rating =? 4); [by right; right|]. by left.
Qed.

(** X9: rating a flashcard.  [rateFlashcard] passes a quality of 3, 4 or
    5 to the scheduler, so the repetitions of the card shown always go up by
    one, also for a rating below 3; such a rating has quality 3 and is
    recorded and counted as incorrect.  The update and the record are
    appended, and the set is not changed. *)
Theorem rateFlashcard_never_resets now rating m card :
  cards m !! currentIndex m = Some card →
  let m' := rateFlashcard now rating m in
  let quality := mapSimpleRatingToQuality rating in
  let updatedCard := calculateNextReview now card quality in
  (quality = 3 ∨ quality = 4 ∨ quality = 5)
  ∧ updatedCards m' = updatedCards m ++ [updatedCard]
  ∧ repetitions updatedCard = repetitions card + 1
  ∧ performance m' = performance m ++ [(id card, 3 <=? rating)]
  ∧ ((3 <=? rating) = false →
     quality = 3
     ∧ incorrectCount (stats m') = S (incorrectCount (stats m))
     ∧ correctCount (stats m') = correctCount (stats m))
  ∧ cards m' = cards m.
Proof.
  intros Hcard m' quality updatedCard.
  assert (quality = 3 ∨ quality = 4 ∨ quality = 5) as Hq
    by apply mapSimpleRatingToQuality_range.
  split; [done|].
  assert (updatedCards m' = updatedCards m ++ [updatedCard]
          ∧ performance m' = performance m ++ [(id card, 3 <=? rating)]
          ∧ stats m' = stats (recordAnswer now card quality (3 <=? rating) m)
          ∧ cards m' = cards m)
    as (Hu & Hp & Hs & Hc).
  { unfold m', rateFlashcard. rewrite Hcard. unfold nextCard.
    by destruct (_ <? _)%Z. }
  split; [done|]. split.
  { unfold updatedCard, calculateNextReview.
    assert ((Math_max 0 (Math_min 5 quality) <? 3) = false) as ->
      by (by destruct Hq as [->|[->| ->]]).
    cbv zeta.
    by destruct (repetitions card + 1 =? 1);
      [|destruct (repetitions card + 1 =? 2)]. }
  split; [done|]. split; [|done].
  intros Hr. rewrite Hs. simpl. rewrite Hr. split; [|done].
  unfold quality, mapSimpleRatingToQuality, mapping. simpl.
  destruct (rating =? 1); [done|]. destruct (rating =? 2); [done|].
  destruct (rating =? 3) eqn:H3.
  { apply number_eqb_finite in H3 as ->; [|done]. by vm_compute in Hr. }
  destruct (rating =? 4) eqn:H4; [|done].
  apply number_eqb_finite in H4 as ->; [|done]. by vm_compute in Hr.
Qed.

(** X9: the hypothesis of [rateFlashcard_never_resets] holds for a set of
    one card, rated 1. *)
Lemma rateFlashcard_never_resets_witness :
  let card := mkCard 1 "front" "back" 2.5 6 2 0 in
  let m := loadSet (steady 1000) None [card] in
  let m' := rateFlashcard 2000 1 m in
  let quality := mapSimpleRatingToQuality 1 in
  let updatedCard := calculateNextReview 2000 card quality in
  (quality = 3 ∨ quality = 4 ∨ quality = 5)
  ∧ updatedCards m' = updatedCards m ++ [updatedCard]
  ∧ repetitions updatedCard = repetitions card + 1
  ∧ performance m' = performance m ++ [(id card, 3 <=? 1)]
  ∧ ((3 <=? 1) = false →
     quality = 3
     ∧ incorrectCount (stats m') = S (incorrectCount (stats m))
     ∧ correctCount (stats m') = correctCount (stats m))
  ∧ cards m' = cards m.
Proof.
  exact (rateFlashcard_never_resets 2000 1
           (loadSet (steady 1000) None [mkCard 1 "front" "back" 2.5 6 2 0])
           (mkCard 1 "front" "back" 2.5 6 2 0) eq_refl).
Defined.

Lemma swap_fmap {A B} (f : A → B) i j (a : list A) :
  f <$> swap i j a = swap i j (f <$> a).
Proof.
  unfold swap. rewrite !list_lookup_fmap.
  destruct (a !! i), (a !! j); simpl; try done.
  by rewrite !list_fmap_insert.
Qed.

Lemma shuffle_from_fmap {A B} (f : A → B) rnd i : ∀ a : list A,
  f <$> shuffle_from rnd i a = shuffle_from rnd i (f <$> a).
Proof.
  induction i as [|i IH]; intros a; simpl; [done|].
  by rewrite IH, swap_fmap.
Qed.

Lemma shuffled_fmap {A B} (f : A → B) rnd (a : list A) :
  f <$> shuffled rnd a = shuffled rnd (f <$> a).
Proof. unfold shuffled. by rewrite shuffle_from_fmap, length_fmap. Qed.

Lemma tagged_cards (l : list Card) :
  (imap (λ i card, (i, card)) l).*2 = l.
Proof.
  apply list_eq. intros i. rewrite list_lookup_fmap, list_lookup_imap.
  by destruct (l !! i).
Qed.

Lemma tagged_elem_of (l : list Card) i card :
  (i, card) ∈ imap (λ i card, (i, card)) l ↔ l !! i = Some card.
Proof.
  rewrite list_elem_of_lookup. split.
  - intros (j & Hj). rewrite list_lookup_imap in Hj.
    destruct (l !! j) eqn:Hl; simplify_eq/=. done.
  - intros Hi. exists i. by rewrite list_lookup_imap, Hi.
Qed.

(** X10: [shuffleFlashcards] keeps the card shown.  With a card at the
    current index, the cards become [shuffleArray] of the cards and the
    index moves to the place of the card that was shown; the statistics and
    the records are not touched.  Without a card at the index the call
    throws. *)
Theorem shuffleFlashcards_keeps_card rnd m :
  (∀ card, cards m !! currentIndex m = Some card →
     ∃ m', shuffleFlashcards rnd m = Some m'
       ∧ cards m' = shuffled rnd (cards m)
       ∧ cards m' !! currentIndex m' = Some card
       ∧ stats m' = stats m ∧ updatedCards m' = updatedCards m
       ∧ performance m' = performance m
       ∧ sessionEnded m' = sessionEnded m)
  ∧ (cards m !! currentIndex m = None → shuffleFlashcards rnd m = None).
Proof.
  unfold shuffleFlashcards. cbv zeta.
  set (tagged := shuffled rnd (imap (λ i card, (i, card)) (cards m))).
  assert (∀ i card, (i, card) ∈ tagged ↔ cards m !! i = Some card) as Htag.
  { intros i card. unfold tagged. by rewrite shuffled_Permutation, tagged_elem_of. }
  split.
  - intros card Hcard.
    destruct (list_find_elem_of (λ p : nat * Card, p.1 = currentIndex m)
                tagged (currentIndex m, card)) as [[j [i c]] Hfind];
      [by apply Htag|done|].
    rewrite Hfind. simpl. eexists. split; [done|]. simpl.
    split; [unfold tagged; by rewrite shuffled_fmap, tagged_cards|].
    split; [|done].
    apply list_find_Some in Hfind as (Hj & Hi & _). simpl in Hi. subst i.
    rewrite list_lookup_fmap, Hj. simpl. f_equal.
    apply list_elem_of_lookup_2, Htag in Hj. congruence.
  - intros Hnone. destruct (list_find _ tagged) as [[j [i c]]|] eqn:Hfind; [|done].
    apply list_find_Some in Hfind as (Hj & Hi & _). simpl in Hi. subst i.
    apply list_elem_of_lookup_2, Htag in Hj. congruence.
Qed.

Lemma study_ok_nextCard pool m : study_ok pool m → study_ok pool (nextCard m).
Proof.
  intros (Hcards & Hidx & Hrest). unfold nextCard.
  destruct (Z.ltb_spec (Z.of_nat (currentIndex m))
              (Z.of_nat (length (cards m)) - 1));
    unfold study_ok, advance, endSession; simpl;
    repeat split; try done; try apply Hrest. rewrite Hcards in *. lia.
Qed.

Lemma study_ok_recordAnswer pool m now card quality correct :
  card ∈ pool → study_ok pool m →
  study_ok pool (recordAnswer now card quality correct m).
Proof.
  intros Hin (Hcards & Hidx & Hupd & Hlen & Hsum).
  unfold study_ok, recordAnswer; simpl.
  split; [done|]. split; [done|]. split.
  { apply Forall2_app; [done|]. constructor; [|constructor].
    by exists card, now, quality. }
  split; [rewrite length_app; simpl; lia|]. destruct correct; lia.
Qed.

Lemma study_ok_handle pool m ev :
  study_ok pool m → ∃ m', handleStudy m ev = Some m' ∧ study_ok pool m'.
Proof.
  intros Hm. pose proof Hm as (Hcards & Hidx & Hrest).
  assert (is_Some (cards m !! currentIndex m)) as [shown Hshown].
  { apply lookup_lt_is_Some. by rewrite Hcards. }
  assert (shown ∈ pool) as Hin.
  { rewrite <-Hcards. by eapply list_elem_of_lookup_2. }
  destruct ev as [now rating| | |rnd|now answer|]; simpl.
  - eexists. split; [done|]. unfold rateFlashcard. rewrite Hshown.
    by apply study_ok_nextCard, study_ok_recordAnswer.
  - eexists. split; [done|]. unfold prevFlashcard.
    destruct (Nat.ltb_spec 0 (currentIndex m)); [|done].
    unfold study_ok; simpl. split; [done|]. split; [lia|done].
  - eexists. split; [done|]. by apply study_ok_nextCard.
  - destruct (shuffleFlashcards_keeps_card rnd m) as [Hkeeps _].
    destruct (Hkeeps shown Hshown)
      as (m' & -> & Hc & Hs & Hst & Hu & Hp & _).
    exists m'. split; [done|]. unfold study_ok.
    rewrite Hc, Hst, Hu, Hp, shuffled_Permutation. split; [done|].
    split; [|done]. apply lookup_lt_Some in Hs.
    by rewrite Hc, shuffled_Permutation, Hcards in Hs.
  - eexists. split; [done|]. unfold checkLearnAnswer. rewrite Hshown.
    destruct answer as [correct|]; [|done].
    by apply study_ok_recordAnswer.
  - eexists. split; [done|]. by apply study_ok_nextCard.
Qed.

Lemma study_ok_run pool evs : ∀ m,
  study_ok pool m → ∃ m', runStudy evs m = Some m' ∧ study_ok pool m'.
Proof.
  induction evs as [|ev evs IH]; intros m Hm; simpl; [by exists m|].
  destruct (study_ok_handle pool m ev Hm) as (m1 & -> & Hm1). simpl.
  by apply IH.
Qed.

(** X11: flashcards and learn sessions.  For a set with cards, whatever
    the user does on the flashcards and learn pages, shuffling included, no
    handler throws, the cards stay a permutation of the set loaded, the
    index stays on a card of the set, [cardsStudied] is the sum of the
    correct and the incorrect counts and the number of performance records
    and of card updates, and every update is [calculateNextReview] applied
    to a card of the set whose id the matching record carries. *)
Theorem study_session_in_deck s count dbCards evs :
  dbCards ≠ [] →
  ∃ m, runStudy evs (loadSet s count dbCards) = Some m
    ∧ cards m ≡ₚ dbCards
    ∧ is_Some (cards m !! currentIndex m)
    ∧ cardsStudied (stats m)
      = (correctCount (stats m) + incorrectCount (stats m))%nat
    ∧ length (performance m) = cardsStudied (stats m)
    ∧ length (updatedCards m) = cardsStudied (stats m)
    ∧ (∀ i u, updatedCards m !! i = Some u →
         ∃ (card : Card) (now' quality : number) (correct : bool),
           card ∈ dbCards
           ∧ performance m !! i = Some (id card, correct)
           ∧ u = calculateNextReview now' card quality).
Proof.
  intros Hdb.
  destruct (study_ok_run dbCards evs (loadSet s count dbCards))
    as (m & Hrun & Hcards & Hidx & Hupd & Hlen & Hsum).
  { unfold study_ok, loadSet, sortCardsByPriority; simpl.
    split; [apply Array_sort_perm|].
    split; [destruct dbCards; simpl; [done|lia]|].
    split; [constructor|done]. }
  exists m. split; [done|]. split; [done|].
  split; [apply lookup_lt_is_Some; by rewrite Hcards|].
  split; [done|]. split; [done|].
  split; [by rewrite (Forall2_length _ _ _ Hupd)|].
  intros i u Hu.
  destruct (Forall2_lookup_l _ _ _ _ _ Hupd Hu)
    as ([i' correct] & Hp & card & now' & quality & Hin & Hid & ->).
  simpl in *. subst i'. by exists card, now', quality, correct.
Qed.

(** X11: the hypothesis of [study_session_in_deck] holds for a set of two
    cards. *)
Lemma study_session_in_deck_witness :
  let dbCards := [mkCard 1 "a" "A" 2.5 0 0 0; mkCard 2 "b" "B" 2.5 6 2 0] in
  let evs := [RateFlashcard 2000 1; ShuffleFlashcards (λ _, 0%fin);
              PrevFlashcard; CheckLearnAnswer 3000 (Some true);
              NextLearnCard; NextFlashcard] in
  ∃ m, runStudy evs (loadSet (steady 1000) None dbCards) = Some m
    ∧ cards m ≡ₚ dbCards
    ∧ is_Some (cards m !! currentIndex m)
    ∧ cardsStudied (stats m)
      = (correctCount (stats m) + incorrectCount (stats m))%nat
    ∧ length (performance m) = cardsStudied (stats m)
    ∧ length (updatedCards m) = cardsStudied (stats m)
    ∧ (∀ i u, updatedCards m !! i = Some u →
         ∃ (card : Card) (now' quality : number) (correct : bool),
           card ∈ dbCards
           ∧ performance m !! i = Some (id card, correct)
           ∧ u = calculateNextReview now' card quality).
Proof.
  apply (study_session_in_deck (steady 1000) None
           [mkCard 1 "a" "A" 2.5 0 0 0; mkCard 2 "b" "B" 2.5 6 2 0]
           [RateFlashcard 2000 1; ShuffleFlashcards (λ _, 0%fin);
            PrevFlashcard; CheckLearnAnswer 3000 (Some true);
            NextLearnCard; NextFlashcard]).
  discriminate.
Defined.

(** ** The similarity of two strings *)

Section Levenshtein.
Local Open Scope nat_scope.
Context {char : Type} `{EqDecision char}.
Context (s1 s2 : list char).

Lemma dist_0_l j : dist s1 s2 0 j = j.
Proof. done. Qed.

Lemma dist_0_r i : dist s1 s2 i 0 = i.
Proof. by destruct i. Qed.

Lemma dist_S i j :
  dist s1 s2 (S i) (S j)
  = if decide (s2 !! i = s1 !! j) then dist s1 s2 i j
    else S ((dist s1 s2 i j `min` dist s1 s2 (S i) j) `min` dist s1 s2 i (S j)).
Proof. done. Qed.

Lemma for_each_invariant {St} (P : nat → St → Prop) body a n s :
  P a s →
  (∀ i s, a ≤ i < a + n → P i s → ∃ s', body i s = Some s' ∧ P (S i) s') →
  ∃ s', for_each body (seq a n) s = Some s' ∧ P (a + n) s'.
Proof.
  revert a s. induction n as [|n IH]; intros a s Hs Hbody; simpl.
  - exists s. by rewrite Nat.add_0_r.
  - destruct (Hbody a s) as (s' & -> & Hs'); [lia|done|]. simpl.
    destruct (IH (S a) s') as (s'' & -> & Hs''); [done| |].
    + intros i t Hi. apply Hbody. lia.
    + exists s''. split; [done|]. by replace (a + S n) with (S a + n) by lia.
Qed.

Lemma read_holds matrix i j x :
  holds matrix i j x → read i j matrix = Some (Some x).
Proof. intros (row & Hrow & Hx). unfold read. rewrite Hrow. simpl. by rewrite Hx. Qed.

Lemma write_holds matrix i j x :
  is_Some (matrix !! i) →
  ∃ matrix', write i j (Some x) matrix = Some matrix'
    ∧ holds matrix' i j x
    ∧ (∀ i', is_Some (matrix !! i') → is_Some (matrix' !! i'))
    ∧ (∀ i' j' y, (i', j') ≠ (i, j) → holds matrix i' j' y → holds matrix' i' j' y).
Proof.
  intros [row Hrow]. unfold write. rewrite Hrow. simpl.
  eexists. split; [done|]. split; [|split].
  - exists (<[j := x]> row). split; by rewrite lookup_insert_eq.
  - intros i' Hi'. destruct (decide (i' = i)) as [->|Hne].
    + by rewrite lookup_insert_eq.
    + by rewrite lookup_insert_ne.
  - intros i' j' y Hne (row' & Hrow' & Hy).
    destruct (decide (i' = i)) as [->|Hi].
    + exists (<[j := x]> row). rewrite lookup_insert_eq. split; [done|].
      rewrite lookup_insert_ne by congruence. congruence.
    + exists row'. by rewrite lookup_insert_ne.
Qed.

Lemma fill_filled i j matrix :
  1 ≤ i ≤ length s2 → 1 ≤ j ≤ length s1 →
  filled s1 s2 i j matrix →
  ∃ matrix', fill s1 s2 i j matrix = Some matrix' ∧ filled s1 s2 i (S j) matrix'.
Proof.
  intros Hi Hj [Hrows Hcells].
  destruct i as [|i]; [lia|]. destruct j as [|j]; [lia|].
  assert (holds matrix i j (dist s1 s2 i j)) as Hdiag by (apply Hcells; lia).
  assert (holds matrix (S i) j (dist s1 s2 (S i) j)) as Hleft by (apply Hcells; lia).
  assert (holds matrix i (S j) (dist s1 s2 i (S j))) as Hup by (apply Hcells; lia).
  destruct (write_holds matrix (S i) (S j) (dist s1 s2 (S i) (S j)))
    as (matrix' & Hwrite & Hnew & Hrows' & Hold); [apply Hrows; lia|].
  exists matrix'. split.
  - unfold fill. rewrite dist_S in Hwrite.
    replace (S i - 1) with i by lia. replace (S j - 1) with j by lia.
    rewrite (read_holds _ _ _ _ Hdiag). simpl.
    destruct (decide (s2 !! i = s1 !! j)); [done|].
    by rewrite (read_holds _ _ _ _ Hleft), (read_holds _ _ _ _ Hup).
  - split; [auto|]. intros i' j' Hi' Hj' Hregion.
    destruct (decide ((i', j') = (S i, S j))) as [[= -> ->]|Hne]; [done|].
    apply Hold; [done|]. apply Hcells; [done..|].
    destruct Hregion as [?|[[-> ?]|?]]; auto.
    right; left. split; [done|].
    destruct (decide (j' = S j)) as [->|]; [done|lia].
Qed.

Lemma rows_created n : 
  let matrix : gmap nat (gmap nat nat) :=
    foldl (λ matrix i, <[i := {[0%nat := i]}]> matrix) ∅ (seq 0 n) in
  ∀ i, i < n → matrix !! i = Some {[0%nat := i]}.
Proof.
  induction n as [|n IH]; intros matrix i Hi; [lia|].
  unfold matrix. rewrite seq_S, foldl_app. simpl.
  destruct (decide (i = n)) as [->|Hne].
  - by rewrite lookup_insert_eq.
  - rewrite lookup_insert_ne by done. apply IH. lia.
Qed.

Lemma levenshtein_dist :
  levenshtein s1 s2 = Some (Some (dist s1 s2 (length s2) (length s1))).
Proof.
  unfold levenshtein.
  pose proof (rows_created (S (length s2))) as Hcreated. cbv zeta in Hcreated.
  set (matrix0 := foldl _ _ _) in *.
  (* the first row *)
  destruct (for_each_invariant
    (λ j matrix,
       (∀ i', i' ≤ length s2 → is_Some (matrix !! i'))
       ∧ (∀ i', i' ≤ length s2 → holds matrix i' 0 i')
       ∧ (∀ j', j' < j → holds matrix 0 j' j'))
    (λ j, write 0 j (Some j)) 0 (S (length s1)) matrix0)
    as (matrix1 & -> & Hrows1 & Hcol1 & Hrow1).
  { split; [|split].
    - intros i' Hi'. rewrite Hcreated by lia. done.
    - intros i' Hi'. exists {[0 := i']}. rewrite Hcreated by lia.
      by rewrite lookup_singleton_eq.
    - intros j'. lia. }
  { intros j matrix Hj (Hrows & Hcol & Hrow).
    destruct (write_holds matrix 0 j j) as (matrix' & Hwrite & Hnew & Hrows' & Hold);
      [apply Hrows; lia|].
    exists matrix'. split; [done|]. split; [auto|]. split.
    - intros i' Hi'.
      destruct (decide ((i', 0) = (0, j))) as [[= -> <-]|Hne]; [done|].
      apply Hold; auto.
    - intros j' Hj'.
      destruct (decide ((0, j') = (0, j))) as [[= ->]|Hne]; [done|].
      apply Hold; [done|]. apply Hrow.
      destruct (decide (j' = j)) as [->|]; [done|lia]. }
  simpl.
  (* the other rows *)
  destruct (for_each_invariant (λ i matrix, filled s1 s2 i 1 matrix)
    (λ i, for_each (fill s1 s2 i) (seq 1 (length s1))) 1 (length s2) matrix1)
    as (matrix2 & -> & Hrows2 & Hcells2).
  { split; [done|]. intros i' j' Hi' Hj' [?|[[-> ?]| ->]].
    - replace i' with 0 by lia. rewrite dist_0_l. apply Hrow1. lia.
    - replace j' with 0 by lia. rewrite dist_0_r. by apply Hcol1.
    - rewrite dist_0_r. by apply Hcol1. }
  { intros i matrix Hi Hfilled.
    destruct (for_each_invariant (λ j matrix, filled s1 s2 i j matrix)
      (fill s1 s2 i) 1 (length s1) matrix) as (matrix' & -> & Hfilled');
      [done| |].
    - intros j matrix' Hj. apply fill_filled; lia.
    - exists matrix'. split; [done|].
      destruct Hfilled' as [Hrows' Hcells']. split; [done|].
      intros i' j' Hi' Hj' Hregion. apply Hcells'; [done..|]. lia. }
  simpl. apply read_holds, Hcells2; lia.
Qed.

End Levenshtein.

Section DistFacts.
Local Open Scope nat_scope.
Context {char : Type} `{EqDecision char}.

Lemma dist_sym (s1 s2 : list char) i : ∀ j, dist s1 s2 i j = dist s2 s1 j i.
Proof.
  induction i as [|i IHi]; intros j.
  - by rewrite dist_0_l, dist_0_r.
  - induction j as [|j IHj].
    + by rewrite dist_0_l, dist_0_r.
    + rewrite !dist_S, IHj, !IHi.
      destruct (decide (s2 !! i = s1 !! j)), (decide (s1 !! j = s2 !! i));
        try done; lia.
Qed.

Lemma dist_bounds (s1 s2 : list char) i : ∀ j,
  dist s1 s2 i j ≤ i `max` j ∧ i - j ≤ dist s1 s2 i j
  ∧ j - i ≤ dist s1 s2 i j.
Proof.
  induction i as [|i IHi]; intros j.
  - rewrite dist_0_l. lia.
  - induction j as [|j IHj].
    + rewrite dist_0_r. lia.
    + rewrite dist_S.
      pose proof (IHi j). pose proof (IHi (S j)).
      destruct (decide _); lia.
Qed.

(** The diagonal is zero exactly along a common prefix. *)
Lemma dist_zero (s1 s2 : list char) i : ∀ j,
  dist s1 s2 i j = 0 ↔ i = j ∧ ∀ k, k < i → s2 !! k = s1 !! k.
Proof.
  induction i as [|i IHi]; intros j.
  - rewrite dist_0_l. split; [intros ->; split; [done|lia]|by intros [<- _]].
  - destruct j as [|j].
    + rewrite dist_0_r. split; [done|]. by intros [? _].
    + rewrite dist_S. destruct (decide (s2 !! i = s1 !! j)) as [Heq|Hne].
      * rewrite IHi. split.
        -- intros [-> Hk]. split; [done|]. intros k Hlt.
           destruct (decide (k = j)) as [->|]; [done|]. apply Hk. lia.
        -- intros [[= ->] Hk]. split; [done|]. intros k Hlt. apply Hk. lia.
      * split; [done|]. intros [[= ->] Hk]. destruct Hne. apply Hk. lia.
Qed.

Lemma dist_zero_eq (s1 s2 : list char) :
  dist s1 s2 (length s2) (length s1) = 0 ↔ s1 = s2.
Proof.
  rewrite dist_zero. split.
  - intros [Hlen Hk]. apply list_eq. intros k.
    destruct (decide (k < length s2)) as [Hlt|Hge]; [by rewrite Hk|].
    rewrite !lookup_ge_None_2; [done|lia..].
  - by intros ->.
Qed.

(** Two strings of one length that differ at one position only. *)
Lemma dist_one_substitution (s1 s2 : list char) k :
  length s1 = length s2 → k < length s1 →
  s2 !! k ≠ s1 !! k → (∀ i, i ≠ k → s2 !! i = s1 !! i) →
  dist s1 s2 (length s2) (length s1) = 1.
Proof.
  intros Hlen Hk Hne Heq. rewrite Hlen.
  assert (∀ m, dist s1 s2 m m = if decide (m ≤ k) then 0 else 1) as Hdiag.
  { induction m as [|m IH]; [done|]. rewrite dist_S, IH.
    destruct (decide (m = k)) as [->|Hm].
    - rewrite decide_False by done.
      rewrite decide_True, decide_False by lia. lia.
    - rewrite decide_True by auto.
      destruct (decide (m ≤ k)), (decide (S m ≤ k)); try done; lia. }
  rewrite Hdiag. rewrite decide_False; [done|lia].
Qed.

End DistFacts.

Section SimilarityFacts.
Context {char : Type} `{EqDecision char}.
Context (toLowerCase trim : list char → list char).

(** X12: [calculateSimilarity] returns a number for every pair of strings
    (the loops never read a missing row of the matrix), and the number does
    not depend on the order of the two strings; neither does
    [isAnswerCorrect], for any threshold. *)
Theorem calculateSimilarity_symmetric (str1 str2 : list char) :
  is_Some (calculateSimilarity toLowerCase trim str1 str2)
  ∧ calculateSimilarity toLowerCase trim str1 str2
    = calculateSimilarity toLowerCase trim str2 str1
  ∧ ∀ threshold,
      isAnswerCorrect toLowerCase trim str1 str2 threshold
      = isAnswerCorrect toLowerCase trim str2 str1 threshold.
Proof.
  assert (calculateSimilarity toLowerCase trim str1 str2
          = calculateSimilarity toLowerCase trim str2 str1) as Hsym.
  { unfold calculateSimilarity. cbv zeta.
    set (s1 := trim (toLowerCase str1)). set (s2 := trim (toLowerCase str2)).
    destruct (decide (s1 = s2)), (decide (s2 = s1)); try done.
    rewrite (orb_comm (length s2 =? 0)%nat).
    destruct (_ || _); [done|].
    rewrite !levenshtein_dist. simpl.
    by rewrite dist_sym, (Nat.max_comm (length s2)). }
  split; [|split; [done|]].
  - unfold calculateSimilarity. cbv zeta.
    destruct (decide _); [done|]. destruct (_ || _); [done|].
    by rewrite levenshtein_dist.
  - intros threshold. unfold isAnswerCorrect.
    rewrite (orb_comm (length str2 =? 0)%nat), Hsym. done.
Qed.

End SimilarityFacts.

Section IntLoopFacts.
Import Uint63.

Lemma of_Z_mod z : of_Z (z `mod` wB) = of_Z z.
Proof.
  apply to_Z_inj. rewrite !of_Z_spec. apply Z.mod_mod. done.
Qed.

Lemma forall_int_spec n P : ∀ i,
  forall_int n i P = true →
  ∀ k, (k < n)%nat → P (of_Z (to_Z i + Z.of_nat k)) = true.
Proof.
  induction n as [|n IH]; intros i Hall k Hk; [lia|].
  simpl in Hall. apply andb_prop in Hall as [Hi Hrest].
  destruct k as [|k].
  - by rewrite Z.add_0_r, of_to_Z.
  - specialize (IH _ Hrest k ltac:(lia)).
    rewrite Uint63.add_spec in IH. change (to_Z 1) with 1%Z in IH.
    rewrite <-of_Z_mod, Zplus_mod_idemp_l, of_Z_mod in IH.
    by replace (to_Z i + Z.of_nat (S k))%Z with (to_Z i + 1 + Z.of_nat k)%Z
      by lia.
Qed.

Lemma number_of_nat_int n :
  (Z.of_nat n < 2 ^ 63)%Z → number_of_nat n = of_uint63 (of_Z (Z.of_nat n)).
Proof.
  intros Hn. unfold number_of_nat, number_of_Z.
  rewrite <-(SF2Prim_Prim2SF (of_uint63 _)), of_uint63_spec.
  rewrite <-is_int; [done|]. split; [lia|done].
Qed.

(** An answer is accepted when the similarity before rounding is at least
    79.5. *)
Lemma accepted_from_79_5 L d :
  (Z.of_nat L < 2 ^ 63)%Z → (Z.of_nat d < 2 ^ 63)%Z →
  (80 <=? similarity_of L d)
  = (79.5 <=? (of_uint63 (of_Z (Z.of_nat L)) - of_uint63 (of_Z (Z.of_nat d)))
              / of_uint63 (of_Z (Z.of_nat L)) * 100).
Proof.
  intros HL Hd. unfold similarity_of. rewrite !number_of_nat_int by done.
  apply (Math_round_ge _ 79.5 80); by vm_compute.
Qed.

Lemma similarity_rows_spec n : ∀ Ln,
  similarity_rows n Ln (of_Z (Z.of_nat Ln)) = true →
  ∀ L d, (Ln ≤ L < Ln + n)%nat → (d ≤ L)%nat →
    accepted_as_expected (of_Z (Z.of_nat L)) (of_Z (Z.of_nat d)) = true.
Proof.
  induction n as [|n IH]; intros Ln Hrows L d HL Hd; [lia|].
  cbn [similarity_rows] in Hrows. apply andb_prop in Hrows as [Hrow Hrows].
  destruct (decide (L = Ln)) as [->|Hne].
  - apply (forall_int_spec _ _ _ Hrow d). lia.
  - apply (IH (S Ln)); [|lia|done].
    replace (of_Z (Z.of_nat (S Ln))) with (of_Z (Z.of_nat Ln) + 1)%uint63;
      [done|].
    apply to_Z_inj. rewrite Uint63.add_spec, !of_Z_spec.
    change (to_Z 1) with 1%Z. rewrite Zplus_mod_idemp_l. f_equal. lia.
Qed.

Lemma similarity_table L d :
  (1 ≤ L ≤ 5000)%nat → (d ≤ L)%nat →
  (80 <=? similarity_of L d) = (200 * d <=? 41 * L)%nat.
Proof.
  intros HL Hd.
  assert (similarity_rows 5000 1 1%uint63 = true) as Hrows by (by vm_compute).
  pose proof (similarity_rows_spec _ 1 Hrows L d ltac:(lia) Hd) as Hok.
  apply eqb_prop in Hok. rewrite accepted_from_79_5, Hok by lia.
  assert (to_Z (of_Z (Z.of_nat L)) = Z.of_nat L) as HL'.
  { symmetry. apply is_int. change (2 ^ to_Z digits)%Z with (2 ^ 63)%Z. lia. }
  assert (to_Z (of_Z (Z.of_nat d)) = Z.of_nat d) as Hd'.
  { symmetry. apply is_int. change (2 ^ to_Z digits)%Z with (2 ^ 63)%Z. lia. }
  apply eq_true_iff_eq. rewrite Uint63.leb_spec, !Uint63.mul_spec, HL', Hd'.
  change (to_Z 200) with 200%Z. change (to_Z 41) with 41%Z.
  rewrite !Z.mod_small by (change wB with (2 ^ 63)%Z; lia).
  rewrite Nat.leb_le. lia.
Qed.

End IntLoopFacts.

Lemma similarity_one_slip L :
  (1 ≤ L ≤ 5000)%nat → (80 <=? similarity_of L 1) = (5 <=? L)%nat.
Proof.
  intros HL. rewrite similarity_table by lia.
  apply eq_true_iff_eq. rewrite !Nat.leb_le. lia.
Qed.

Section AnswerFacts.
Context {char : Type} `{EqDecision char}.
Context (toLowerCase trim : list char → list char).

Lemma length_eqb_0 {A} (l : list A) : (length l =? 0)%nat = bool_decide (l = []).
Proof. by destruct l. Qed.

Lemma isAnswerCorrect_distance (userAnswer correctAnswer : list char) threshold :
  let s1 := trim (toLowerCase userAnswer) in
  let s2 := trim (toLowerCase correctAnswer) in
  userAnswer ≠ [] → correctAnswer ≠ [] → s1 ≠ s2 → s1 ≠ [] → s2 ≠ [] →
  isAnswerCorrect toLowerCase trim userAnswer correctAnswer threshold
  = Some (threshold <=? similarity_of (length s1 `max` length s2)
                          (dist s1 s2 (length s2) (length s1))).
Proof.
  intros s1 s2 Hu Hc Hne H1 H2.
  unfold isAnswerCorrect, calculateSimilarity. cbv zeta. fold s1 s2.
  rewrite !length_eqb_0, !bool_decide_eq_false_2 by done. simpl.
  rewrite decide_False by done. by rewrite levenshtein_dist.
Qed.

(** X13: the acceptance test at the default threshold 80, for normalised
    strings that differ, are not empty and have at most 5000 characters:
    with [d] the number the loops compute (the edit distance) and [L] the
    greater length, [1 <= d <= L], [d] is at least the difference of the
    lengths, and the answer is accepted exactly when [200 * d <= 41 * L],
    that is when the similarity before rounding is at least 79.5. *)
Theorem isAnswerCorrect_criterion (userAnswer correctAnswer : list char) :
  let s1 := trim (toLowerCase userAnswer) in
  let s2 := trim (toLowerCase correctAnswer) in
  let L := (length s1 `max` length s2)%nat in
  let d := dist s1 s2 (length s2) (length s1) in
  userAnswer ≠ [] → correctAnswer ≠ [] → s1 ≠ s2 → s1 ≠ [] → s2 ≠ [] →
  (L ≤ 5000)%nat →
  (1 ≤ d ≤ L)%nat
  ∧ (length s1 - length s2 ≤ d)%nat ∧ (length s2 - length s1 ≤ d)%nat
  ∧ isAnswerCorrect toLowerCase trim userAnswer correctAnswer 80
    = Some (200 * d <=? 41 * L)%nat.
Proof.
  intros s1 s2 L d Hu Hc Hne H1 H2 HL.
  pose proof (dist_bounds s1 s2 (length s2) (length s1)) as (Hup & Hlo1 & Hlo2).
  assert (d ≠ 0%nat) as Hd by (unfold d; by rewrite dist_zero_eq).
  fold d in Hup, Hlo1, Hlo2.
  assert (0 < length s1)%nat by (destruct s1; simpl; [done|lia]).
  split; [unfold L; lia|]. split; [lia|]. split; [lia|].
  rewrite isAnswerCorrect_distance by done. fold s1 s2 L d.
  rewrite similarity_table; [done|unfold L in *; lia..].
Qed.

(** X14: one wrong character.  When the normalised strings have the same
    length, at most 5000, and differ at exactly one position, the answer is
    accepted at the default threshold exactly when the length is at least
    5. *)
Theorem isAnswerCorrect_one_substitution (userAnswer correctAnswer : list char) k :
  let s1 := trim (toLowerCase userAnswer) in
  let s2 := trim (toLowerCase correctAnswer) in
  userAnswer ≠ [] → correctAnswer ≠ [] →
  length s1 = length s2 → (length s1 ≤ 5000)%nat → (k < length s1)%nat →
  s1 !! k ≠ s2 !! k → (∀ i, i ≠ k → s1 !! i = s2 !! i) →
  isAnswerCorrect toLowerCase trim userAnswer correctAnswer 80
  = Some (5 <=? length s1)%nat.
Proof.
  intros s1 s2 Hu Hc Hlen HL Hk Hne Heq.
  assert (s1 ≠ s2) as Hs by (intros E; by rewrite E in Hne).
  assert (s1 ≠ []) as H1 by (intros E; rewrite E in Hk; simpl in Hk; lia).
  assert (s2 ≠ []) as H2
    by (intros E; rewrite E in Hlen; by destruct s1).
  rewrite isAnswerCorrect_distance by done. fold s1 s2.
  rewrite (dist_one_substitution s1 s2 k); [|done..|]; cycle 1.
  { intros i Hi. symmetry. by apply Heq. }
  rewrite <-Hlen, Nat.max_id. rewrite similarity_one_slip; [done|lia].
Qed.

End AnswerFacts.

Section AnswerEdges.
Context {char : Type} `{EqDecision char}.
Context (toLowerCase trim : list char → list char).

(** X15: the cases [calculateSimilarity] settles without the matrix.  An
    empty answer, or an empty expected answer, is never accepted.  Strings
    that are equal after lower-casing and trimming have similarity 100 and,
    when neither is empty before trimming, the answer is accepted at the
    default threshold.  If the normalised strings differ and one of them is
    empty, the similarity is 0 and the answer is rejected. *)
Theorem isAnswerCorrect_exact_or_empty (userAnswer correctAnswer : list char) :
  let s1 := trim (toLowerCase userAnswer) in
  let s2 := trim (toLowerCase correctAnswer) in
  (userAnswer = [] ∨ correctAnswer = [] →
   ∀ threshold,
     isAnswerCorrect toLowerCase trim userAnswer correctAnswer threshold
     = Some false)
  ∧ (s1 = s2 →
     calculateSimilarity toLowerCase trim userAnswer correctAnswer = Some 100
     ∧ (userAnswer ≠ [] → correctAnswer ≠ [] →
        isAnswerCorrect toLowerCase trim userAnswer correctAnswer 80
        = Some true))
  ∧ (s1 ≠ s2 → s1 = [] ∨ s2 = [] →
     calculateSimilarity toLowerCase trim userAnswer correctAnswer = Some 0
     ∧ isAnswerCorrect toLowerCase trim userAnswer correctAnswer 80
       = Some false).
Proof.
  intros s1 s2. split; [|split].
  - intros Hempty threshold. unfold isAnswerCorrect.
    rewrite !length_eqb_0. by destruct Hempty as [-> | ->]; [|rewrite orb_comm].
  - intros Heq.
    assert (calculateSimilarity toLowerCase trim userAnswer correctAnswer
            = Some 100) as Hsim.
    { unfold calculateSimilarity. cbv zeta. fold s1 s2.
      by rewrite decide_True. }
    split; [done|]. intros Hu Hc. unfold isAnswerCorrect.
    rewrite !length_eqb_0, !bool_decide_eq_false_2, Hsim by done. done.
  - intros Hne Hempty.
    assert (calculateSimilarity toLowerCase trim userAnswer correctAnswer
            = Some 0) as Hsim.
    { unfold calculateSimilarity. cbv zeta. fold s1 s2.
      rewrite decide_False by done. rewrite !length_eqb_0.
      by destruct Hempty as [-> | ->]; [|rewrite orb_comm]. }
    split; [done|]. unfold isAnswerCorrect. rewrite Hsim.
    by destruct (_ || _).
Qed.

End AnswerEdges.

(** X13: the hypotheses of [isAnswerCorrect_criterion] hold for two words
    of fourteen letters that differ in one. *)
Lemma isAnswerCorrect_criterion_witness :
  let same := λ s : list Ascii.ascii, s in
  let userAnswer := String.list_ascii_of_string "photosynthesys" in
  let correctAnswer := String.list_ascii_of_string "photosynthesis" in
  let L := (length userAnswer `max` length correctAnswer)%nat in
  let d := dist userAnswer correctAnswer (length correctAnswer)
             (length userAnswer) in
  (1 ≤ d ≤ L)%nat
  ∧ (length userAnswer - length correctAnswer ≤ d)%nat
  ∧ (length correctAnswer - length userAnswer ≤ d)%nat
  ∧ isAnswerCorrect same same userAnswer correctAnswer 80
    = Some (200 * d <=? 41 * L)%nat.
Proof.
  apply (isAnswerCorrect_criterion (λ s : list Ascii.ascii, s) (λ s : list Ascii.ascii, s)
           (String.list_ascii_of_string "photosynthesys")
           (String.list_ascii_of_string "photosynthesis"));
    try discriminate.
  simpl. lia.
Defined.

(** X14: the hypotheses of [isAnswerCorrect_one_substitution] hold for a
    word of five letters, accepted, and for a word of four, rejected. *)
Lemma isAnswerCorrect_one_substitution_witness :
  let same := λ s : list Ascii.ascii, s in
  isAnswerCorrect same same (String.list_ascii_of_string "parys")
    (String.list_ascii_of_string "paris") 80
  = Some true
  ∧ isAnswerCorrect same same (String.list_ascii_of_string "rone")
      (String.list_ascii_of_string "rome") 80
    = Some false.
Proof.
  split.
  - apply (isAnswerCorrect_one_substitution (λ s : list Ascii.ascii, s)
             (λ s : list Ascii.ascii, s) (String.list_ascii_of_string "parys")
             (String.list_ascii_of_string "paris") 3);
      try discriminate; try done; try (simpl; lia).
    intros i Hi. do 5 (destruct i as [|i]; [done|]). done.
  - apply (isAnswerCorrect_one_substitution (λ s : list Ascii.ascii, s)
             (λ s : list Ascii.ascii, s) (String.list_ascii_of_string "rone")
             (String.list_ascii_of_string "rome") 2);
      try discriminate; try done; try (simpl; lia).
    intros i Hi. do 4 (destruct i as [|i]; [done|]). done.
Defined.

(** ** Card statistics *)

Section CardStatisticsFacts.
Import CardStatistics.

Lemma zero_share n :
  (0 < n)%nat → (Z.of_nat n < 2 ^ 53)%Z →
  number_of_nat 0 / number_of_nat n * 100 = 0.
Proof.
  intros Hn Hlt. apply Prim2SF_inj. rewrite mul_spec, div_spec.
  destruct (number_of_nat_finite n Hn Hlt) as (m & e & ->).
  by vm_compute.
Qed.

Lemma SFdiv_diag s p :
  (Z.pos p < 2 ^ 53)%Z →
  SF64div (SFint s p) (SFint s p) = S754_finite false 4503599627370496 (-52).
Proof.
  intros Hp. destruct (SFint_mantissa p Hp) as [Hm Hd].
  unfold SFint, SF64div, SFdiv, SFdiv_core_binary.
  set (m := Z.to_pos _) in *. set (e := (Z.pos (digits2_pos p) - 53)%Z).
  cbn [Zdigits2]. rewrite Hd.
  replace (53 + e - (53 + e))%Z with 0%Z by lia.
  replace (e - e)%Z with 0%Z by lia.
  change (IntDef.Z.min (fexp prec emax 0) 0) with (-53)%Z.
  change (0 - -53)%Z with 53%Z. cbv zeta.
  change (IntDef.Z.shiftl (Z.pos m) 53) with (Z.shiftl (Z.pos m) 53).
  rewrite Z.shiftl_mul_pow2 by lia.
  change IntDef.Z.div_eucl with Z.div_eucl.
  assert (Z.div_eucl (Z.pos m * 2 ^ 53) (Z.pos m) = (2 ^ 53, 0)%Z) as ->.
  { pose proof (Z.div_eucl_eq (Z.pos m * 2 ^ 53) (Z.pos m) ltac:(lia)) as Heq.
    pose proof (Z.mod_pos_bound (Z.pos m * 2 ^ 53) (Z.pos m) ltac:(lia)) as Hr.
    unfold Z.modulo in Hr.
    destruct (Z.div_eucl (Z.pos m * 2 ^ 53) (Z.pos m)) as [q r].
    assert (q = 2 ^ 53)%Z by nia. f_equal; lia. }
  assert (new_location (Z.pos m) 0 = loc_Exact) as ->.
  { unfold new_location. by destruct (Z.even _). }
  rewrite xorb_nilpotent.
  change (2 ^ 53)%Z with (Z.pos 9007199254740992).
  by rewrite (binary_round_aux_exact false 4503599627370496 1 9007199254740992).
Qed.

Lemma whole_share n :
  (0 < n)%nat → (Z.of_nat n < 2 ^ 53)%Z →
  number_of_nat n / number_of_nat n * 100 = 100.
Proof.
  intros Hn Hlt. apply Prim2SF_inj. rewrite mul_spec, div_spec.
  unfold number_of_nat. rewrite Prim2SF_number_of_Z by lia.
  destruct (Z.of_nat n) as [|p|p] eqn:Hp; try lia.
  cbn [SFZ]. by rewrite SFdiv_diag.
Qed.

(** X16: the statistics of a card.  The attempts are the records, the
    correct and incorrect counts add up to them; without records the
    accuracy and the average time are 0 and [lastStudied] is null; otherwise
    [lastStudied] is the timestamp of the last record returned.  The
    accuracy is never NaN; it is 0 when no record is marked correct and 100
    when all are. *)
Theorem getCardStatistics_totals performances :
  let st := getCardStatistics performances in
  totalAttempts st = length performances
  ∧ (correctCount st + incorrectCount st)%nat = totalAttempts st
  ∧ correctCount st = length (filter (λ p, correct p = true) performances)
  ∧ (performances = [] →
     accuracy st = 0 ∧ avgTime st = 0 ∧ lastStudied st = None)
  ∧ (∀ earlier p, performances = earlier ++ [p] →
     lastStudied st = Some (timestamp p))
  ∧ ((Z.of_nat (length performances) < 2 ^ 53)%Z →
     is_nan (accuracy st) = false
     ∧ (performances ≠ [] → correctCount st = 0%nat → accuracy st = 0)
     ∧ (performances ≠ [] → incorrectCount st = 0%nat → accuracy st = 100)).
Proof.
  intros st.
  pose proof (length_filter (λ p, correct p = true) performances) as Hle.
  split; [done|]. split; [unfold st, getCardStatistics; simpl; lia|].
  split; [done|]. split; [by intros ->|].
  split.
  { intros earlier p ->. unfold st, getCardStatistics. cbn [lastStudied].
    rewrite length_app, last_snoc. simpl.
    by replace (0 <? length earlier + 1)%nat with true
      by (symmetry; apply Nat.ltb_lt; lia). }
  intros Hlen. unfold st, getCardStatistics.
  cbn [accuracy correctCount incorrectCount].
  destruct (Nat.ltb_spec 0 (length performances)) as [Hpos|Hzero].
  - split; [by apply share_not_nan|]. split.
    + intros _ ->. by apply zero_share.
    + intros _ Hall.
      replace (length (filter _ performances)) with (length performances)
        by lia.
      by apply whole_share.
  - split; [done|].
    split; intros Hne; destruct performances; simpl in *; done || lia.
Qed.

End CardStatisticsFacts.

(** ** escapeHtml *)

Lemma occurs_app c s t : occurs c (s +:+ t) = occurs c s || occurs c t.
Proof.
  induction s as [|c' s IH]; simpl; [done|]. by rewrite IH, orb_assoc.
Qed.

Lemma append_empty s : ("" +:+ s)%string = s.
Proof. done. Qed.

Lemma append_String c s t : (String c s +:+ t)%string = String c (s +:+ t).
Proof. done. Qed.

Lemma entity_Some c e :
  entity c = Some e →
  c = ampersand ∧ e = "&amp;"%string ∨ c = less_than ∧ e = "&lt;"%string
  ∨ c = greater_than ∧ e = "&gt;"%string ∨ c = double_quote ∧ e = "&quot;"%string
  ∨ c = apostrophe ∧ e = "&#039;"%string.
Proof. unfold entity. repeat case_decide; intros [= <-]; tauto. Qed.

Lemma entity_None c :
  entity c = None → c ≠ ampersand ∧ c ≠ less_than ∧ c ≠ greater_than ∧ c ≠ double_quote ∧ c ≠ apostrophe.
Proof. unfold entity. by repeat case_decide. Qed.

Lemma escapeHtml_none c text :
  c = less_than ∨ c = greater_than ∨ c = double_quote ∨ c = apostrophe →
  occurs c (escapeHtml text) = false.
Proof.
  intros Hc. induction text as [|c' s IH]; simpl; [done|].
  destruct (entity c') as [e|] eqn:He.
  - rewrite occurs_app, IH, orb_false_r.
    apply entity_Some in He
      as [[_ ->]|[[_ ->]|[[_ ->]|[[_ ->]|[_ ->]]]]];
      by destruct Hc as [->|[->|[->| ->]]].
  - simpl. rewrite IH, orb_false_r. apply bool_decide_eq_false.
    apply entity_None in He as (? & ? & ? & ? & ?).
    by destruct Hc as [->|[->|[->| ->]]].
Qed.

(** X17: the result of [escapeHtml] holds no less-than sign, no
    greater-than sign, no double quote and no apostrophe; a text without
    the five special characters is returned as it is; the result is at
    least as long as the text; and two texts with the same result are
    equal. *)
Theorem escapeHtml_safe text :
  occurs less_than (escapeHtml text) = false
  ∧ occurs greater_than (escapeHtml text) = false
  ∧ occurs double_quote (escapeHtml text) = false
  ∧ occurs apostrophe (escapeHtml text) = false
  ∧ (occurs ampersand text = false → occurs less_than text = false →
     occurs greater_than text = false → occurs double_quote text = false →
     occurs apostrophe text = false → escapeHtml text = text)
  ∧ (String.length text ≤ String.length (escapeHtml text))%nat
  ∧ ∀ text', escapeHtml text = escapeHtml text' → text = text'.
Proof.
  do 4 (split; [apply escapeHtml_none; auto|]).
  split.
  { induction text as [|c s IH]; simpl; [done|].
    intros [?%bool_decide_eq_false ?]%orb_false_iff
           [?%bool_decide_eq_false ?]%orb_false_iff
           [?%bool_decide_eq_false ?]%orb_false_iff
           [?%bool_decide_eq_false ?]%orb_false_iff
           [?%bool_decide_eq_false ?]%orb_false_iff.
    unfold entity. rewrite !decide_False by done. by rewrite IH. }
  split.
  { induction text as [|c s IH]; simpl; [done|].
    destruct (entity c) as [e|] eqn:He; [|simpl; lia].
    apply entity_Some in He
      as [[_ ->]|[[_ ->]|[[_ ->]|[[_ ->]|[_ ->]]]]];
      rewrite !append_String, append_empty; simpl; lia. }
  induction text as [|c s IH]; intros [|c' s']; simpl.
  - done.
  - destruct (entity c') as [e|] eqn:He; [|done].
    by apply entity_Some in He
      as [[_ ->]|[[_ ->]|[[_ ->]|[[_ ->]|[_ ->]]]]].
  - destruct (entity c) as [e|] eqn:He; [|done].
    by apply entity_Some in He
      as [[_ ->]|[[_ ->]|[[_ ->]|[[_ ->]|[_ ->]]]]].
  - destruct (entity c) as [e|] eqn:He, (entity c') as [e'|] eqn:He'.
    + apply entity_Some in He
        as [[-> ->]|[[-> ->]|[[-> ->]|[[-> ->]|[-> ->]]]]];
      apply entity_Some in He'
        as [[-> ->]|[[-> ->]|[[-> ->]|[[-> ->]|[-> ->]]]]];
      rewrite !append_String, !append_empty; intros Heq; simplify_eq;
      f_equal; by apply IH.
    + apply entity_None in He' as (? & _).
      apply entity_Some in He
        as [[_ ->]|[[_ ->]|[[_ ->]|[[_ ->]|[_ ->]]]]];
        rewrite !append_String, !append_empty; intros Heq; simplify_eq.
    + apply entity_None in He as (? & _).
      apply entity_Some in He'
        as [[_ ->]|[[_ ->]|[[_ ->]|[[_ ->]|[_ ->]]]]];
        rewrite !append_String, !append_empty; intros Heq; simplify_eq.
    + intros [= -> Heq]. f_equal. by apply IH.
Qed.

(** ** Preferences *)

(** X18: [toggleTheme] returns light or dark: dark when the preference
    read was light, light in every other case.  The value returned is stored,
    so it is the preference read afterwards whatever the system prefers, and
    it is set as the [data-theme] attribute; a second toggle returns the
    other of the two themes.  No other item of [localStorage] changes. *)
Theorem toggleTheme_alternates prefersDark prefersDark' p :
  let p1 := (toggleTheme prefersDark p).1 in
  let theme1 := (toggleTheme prefersDark p).2 in
  let p2 := (toggleTheme prefersDark' p1).1 in
  let theme2 := (toggleTheme prefersDark' p1).2 in
  (theme1 = "light"%string ∨ theme1 = "dark"%string)
  ∧ (getThemePreference prefersDark p = "light"%string →
     theme1 = "dark"%string)
  ∧ (getThemePreference prefersDark p ≠ "light"%string →
     theme1 = "light"%string)
  ∧ getThemePreference prefersDark' p1 = theme1
  ∧ dataTheme p1 = Some theme1
  ∧ theme2 ≠ theme1
  ∧ (theme2 = "light"%string ∨ theme2 = "dark"%string)
  ∧ dataTheme p2 = Some theme2
  ∧ (∀ key, key ≠ "theme"%string →
       localStorage p2 !! key = localStorage p !! key).
Proof.
  intros p1 theme1 p2 theme2.
  assert (getThemePreference prefersDark' p1 = theme1) as Hget.
  { unfold p1, theme1, toggleTheme, getThemePreference at 1, setThemePreference.
    cbn [fst snd localStorage]. rewrite lookup_insert_eq.
    by destruct (decide (_ = "light"%string)). }
  assert (theme1 = if decide (getThemePreference prefersDark p = "light"%string)
                   then "dark"%string else "light"%string) as H1 by done.
  assert (theme2 = if decide (theme1 = "light"%string)
                   then "dark"%string else "light"%string) as H2.
  { unfold theme2, toggleTheme. cbn [snd]. by rewrite Hget. }
  assert (dataTheme p1 = Some theme1) as Hd1 by done.
  assert (dataTheme p2 = Some theme2) as Hd2 by done.
  assert (∀ key, key ≠ "theme"%string →
            localStorage p2 !! key = localStorage p !! key) as Hframe.
  { intros key Hkey. unfold p2, p1, toggleTheme, setThemePreference.
    cbn [fst localStorage]. by rewrite !lookup_insert_ne. }
  clearbody p1 p2 theme1 theme2. subst theme2 theme1.
  destruct (decide (getThemePreference prefersDark p = "light"%string));
    simpl; repeat split; auto; try done; rewrite H1; auto; done.
Qed.

(** X19: the question-type preference.  One of the three valid types,
    once set, is the type read back; any other value leaves the page as it
    was.  On every page without a stored item, and on every page whose
    stored item is empty, the type read is mix.  Setting the type changes
    no other item and not the theme. *)
Theorem testQuestionType_roundtrip type p :
  let p' := setTestQuestionTypePreference type p in
  (type = "mc"%string ∨ type = "written"%string ∨ type = "mix"%string →
   getTestQuestionTypePreference p' = type)
  ∧ (type ≠ "mc"%string → type ≠ "written"%string → type ≠ "mix"%string →
     p' = p)
  ∧ (localStorage p !! "testQuestionType"%string = None →
     getTestQuestionTypePreference p = "mix"%string)
  ∧ (localStorage p !! "testQuestionType"%string = Some ""%string →
     getTestQuestionTypePreference p = "mix"%string)
  ∧ (∀ key, key ≠ "testQuestionType"%string →
       localStorage p' !! key = localStorage p !! key)
  ∧ dataTheme p' = dataTheme p.
Proof.
  unfold setTestQuestionTypePreference, getTestQuestionTypePreference.
  split; [|split; [|split; [|split; [|split]]]].
  - intros Htype. rewrite bool_decide_eq_true_2.
    + cbn [localStorage]. rewrite lookup_insert_eq.
      by destruct Htype as [->|[->| ->]].
    + rewrite !elem_of_cons. tauto.
  - intros H1 H2 H3. rewrite bool_decide_eq_false_2; [done|].
    rewrite !elem_of_cons, elem_of_nil. tauto.
  - by intros ->.
  - by intros ->.
  - intros key Hkey. case_bool_decide; [|done].
    cbn [localStorage]. by rewrite lookup_insert_ne.
  - by case_bool_decide.
Qed.

(** ** Match games *)

Section MatchFacts.
Import MatchMode.

Lemma count_insert {A} (P : A → Prop) `{∀ x, Decision (P x)} (l : list A) i x y :
  l !! i = Some x →
  (length (filter P (<[i := y]> l)) + (if decide (P x) then 1 else 0)
   = length (filter P l) + (if decide (P y) then 1 else 0))%nat.
Proof.
  revert i. induction l as [|z l IH]; intros [|i] Hi; simplify_eq/=.
  - rewrite !filter_cons. repeat case_decide; simpl; lia.
  - specialize (IH i Hi). rewrite !filter_cons.
    destruct (decide (P z)); simpl; lia.
Qed.

Lemma setClasses_length i a b g : length (setClasses i a b g) = length g.
Proof.
  unfold setClasses. destruct (g !! i); [|done]. by rewrite length_insert.
Qed.

Lemma setClasses_lookup i a b g k :
  setClasses i a b g !! k
  = if decide (k = i)
    then (λ t, mkTile (cardId t) (text t) (type t) a b) <$> g !! i
    else g !! k.
Proof.
  unfold setClasses. destruct (g !! i) as [t|] eqn:Hi.
  - destruct (decide (k = i)) as [->|Hne].
    + rewrite list_lookup_insert_eq; [done|]. by eapply lookup_lt_Some.
    + by rewrite list_lookup_insert_ne.
  - destruct (decide (k = i)) as [->|Hne]; [by rewrite Hi|done].
Qed.

Lemma setClasses_Forall (P : Tile → Prop) i a b g :
  (∀ t, P t → P (mkTile (cardId t) (text t) (type t) a b)) →
  Forall P g → Forall P (setClasses i a b g).
Proof.
  intros HP Hg. rewrite Forall_lookup. intros k t.
  rewrite setClasses_lookup. rewrite Forall_lookup in Hg.
  destruct (decide (k = i)) as [->|]; [|by apply Hg].
  destruct (g !! i) as [t'|] eqn:Hi; [|done]. intros [= <-]. eauto.
Qed.

Lemma setClasses_matched i b g t :
  g !! i = Some t → matched t = false →
  matchedTiles (setClasses i true b g) = S (matchedTiles g).
Proof.
  intros Hi Ht. unfold matchedTiles, setClasses. rewrite Hi.
  pose proof (count_insert (λ t, matched t = true) g i t
                (mkTile (cardId t) (text t) (type t) true b) Hi) as Hc.
  cbn [matched] in Hc. rewrite decide_False in Hc by congruence.
  rewrite decide_True in Hc by done. lia.
Qed.

Lemma setClasses_same i b g t :
  g !! i = Some t →
  matchedTiles (setClasses i (matched t) b g) = matchedTiles g.
Proof.
  intros Hi. unfold matchedTiles, setClasses. rewrite Hi.
  pose proof (count_insert (λ t, matched t = true) g i t
                (mkTile (cardId t) (text t) (type t) (matched t) b) Hi) as Hc.
  cbn [matched] in Hc. destruct (decide (matched t = true)); lia.
Qed.

Lemma matchedTiles_le g : (matchedTiles g ≤ length g)%nat.
Proof. apply length_filter. Qed.

(** When every tile is matched, none is selected. *)
Lemma matchedTiles_all g i t :
  matchedTiles g = length g → g !! i = Some t → matched t = true.
Proof.
  unfold matchedTiles. revert i. induction g as [|x g IH]; intros i Hall Hi.
  { done. }
  rewrite filter_cons in Hall. pose proof (length_filter (λ t, matched t = true) g).
  destruct (decide (matched x = true)) as [Hx|Hx]; simpl in Hall; [|lia].
  destruct i as [|i]; simplify_eq/=; [done|]. apply (IH i); [lia|done].
Qed.

Lemma match_ok_select pairs s0 p0 i m :
  match_ok pairs s0 p0 m → match_ok pairs s0 p0 (selectMatchTile i m).
Proof.
  intros Hm. pose proof Hm as (Hpairs & Hlen & Hids & Hcount & Hnodup & Hle
    & Hsel & Hall & Hstudied & Hcorrect & Hrec & Hend).
  unfold selectMatchTile. destruct (grid m !! i) as [t|] eqn:Hi; [|done].
  destruct (matched t) eqn:Hmt; [done|].
  destruct (selected t) eqn:Hst; [done|]. cbn [orb].
  destruct (2 <=? length (selectedTiles m))%nat eqn:Hlt; [done|].
  apply Nat.leb_gt in Hlt.
  assert (i ∉ selectedTiles m) as Hnew.
  { intros Hin. rewrite Forall_forall in Hsel.
    destruct (Hsel i Hin) as (t' & Ht' & _ & ?). congruence. }
  unfold match_ok. simpl.
  split; [done|]. split; [by rewrite setClasses_length|].
  split; [by apply setClasses_Forall; [intros ??|]|].
  split; [by rewrite <-Hmt at 1; rewrite setClasses_same|].
  split; [apply NoDup_app; split; [done|]; split;
          [by intros k Hk ->%list_elem_of_singleton|apply NoDup_singleton]|].
  split; [rewrite length_app; simpl; lia|].
  split.
  { apply Forall_app. split.
    - rewrite Forall_forall in Hsel. apply Forall_forall. intros k Hk.
      destruct (Hsel k Hk) as (t' & Ht' & ? & ?). exists t'.
      rewrite setClasses_lookup, decide_False; [done|]. by intros ->.
    - constructor; [|done]. eexists.
      rewrite setClasses_lookup, decide_True, Hi by done. done. }
  split; [|done].
  intros k t'. rewrite setClasses_lookup. rewrite elem_of_app, list_elem_of_singleton.
  destruct (decide (k = i)) as [->|]; [by right|]. intros Hk Hs. left. eauto.
Qed.

Lemma match_ok_check pairs s0 p0 m :
  match_ok pairs s0 p0 m → match_ok pairs s0 p0 (checkMatch m).
Proof.
  intros Hm. pose proof Hm as (Hpairs & Hlen & Hids & Hcount & Hnodup & Hle
    & Hsel & Hall & Hstudied & Hcorrect & Hrec & Hend).
  unfold checkMatch.
  destruct (selectedTiles m) as [|i [|j [|? ?]]] eqn:Hs; try done.
  apply Forall_cons in Hsel as [(first & Hi & Hmi & Hsi) Hsel].
  apply Forall_cons in Hsel as [(second & Hj & Hmj & Hsj) _].
  rewrite Hi, Hj.
  assert (i ≠ j) as Hij.
  { apply NoDup_cons in Hnodup as [Hnot _]. intros ->. apply Hnot. left. }
  assert (∀ a b a' b' k t,
    setClasses j a' b' (setClasses i a b (grid m)) !! k = Some t →
    k ≠ i → k ≠ j → grid m !! k = Some t) as Hother.
  { intros a b a' b' k t. rewrite !setClasses_lookup.
    intros Hk ? ?. by rewrite !decide_False in Hk by done. }
  assert (∀ a a', ∀ k t,
    setClasses j a' false (setClasses i a false (grid m)) !! k = Some t →
    selected t = true → k ∈ ([] : list nat)) as Hnone.
  { intros a a' k t Hk Hst. destruct (decide (k = i)) as [->|Hki].
    { rewrite !setClasses_lookup, decide_False, decide_True, Hi in Hk by done.
      by simplify_eq/=. }
    destruct (decide (k = j)) as [->|Hkj].
    { rewrite !setClasses_lookup, decide_True, decide_False, Hj in Hk by done.
      by simplify_eq/=. }
    apply Hother in Hk; [|done..]. specialize (Hall k t Hk Hst).
    rewrite !elem_of_cons, elem_of_nil in Hall. tauto. }
  assert (∀ a b, setClasses i a b (grid m) !! j = Some second) as Hj'.
  { intros a b. by rewrite setClasses_lookup, decide_False. }
  destruct (bool_decide (cardId first = cardId second)
            && negb (bool_decide (type first = type second))) eqn:Hmatch.
  - destruct (proj1 (Forall_lookup _ _) Hids i first Hi) as (p & Hp & Hid).
    destruct (List.find _ (matchPairs m)) as [card|] eqn:Hfind; cycle 1.
    { exfalso. pose proof (find_none _ _ Hfind p) as Hnone'.
      rewrite Hpairs, <-list_elem_of_In in Hnone'. specialize (Hnone' Hp).
      by rewrite bool_decide_eq_false in Hnone'. }
    apply find_some in Hfind as [Hcard Hcid].
    rewrite <-list_elem_of_In, Hpairs in Hcard. apply bool_decide_eq_true in Hcid.
    assert (matchedPairs m ≠ length pairs) as Hnot.
    { intros Heq.
      assert (matched first = true); [|congruence].
      apply (matchedTiles_all (grid m) i); [lia|done]. }
    unfold match_ok.
    cbn [matchPairs grid selectedTiles matchedPairs stats performance
         sessionEnded cardsStudied correctCount incorrectCount length].
    split; [done|]. split; [by rewrite !setClasses_length|].
    split; [by do 2 (apply setClasses_Forall; [by intros ??|])|].
    split.
    { rewrite (setClasses_matched j false _ second), (setClasses_matched i false _ first);
        [lia|done..]. }
    split; [constructor|]. split; [lia|]. split; [done|].
    split; [apply Hnone|]. split; [lia|]. split; [lia|]. split.
    { destruct Hrec as (records & -> & Hlr & Hrs).
      exists (records ++ [(id card, true)]). rewrite app_assoc. split; [done|].
      split; [rewrite length_app; simpl; lia|].
      apply Forall_app. split; [done|]. constructor; [|done]. simpl. eauto. }
    rewrite Hpairs. destruct (Nat.eqb_spec (S (matchedPairs m)) (length pairs)).
    + done.
    + rewrite Hend. split; [done|]. intros. lia.
  - unfold match_ok. simpl.
    split; [done|]. split; [by rewrite !setClasses_length|].
    split; [by do 2 (apply setClasses_Forall; [by intros ??|])|].
    split; [by rewrite (setClasses_same j), (setClasses_same i)|].
    split; [constructor|]. split; [lia|]. split; [done|].
    split; [apply Hnone|]. done.
Qed.

Lemma match_ok_run pairs s0 p0 evs : ∀ m,
  match_ok pairs s0 p0 m → match_ok pairs s0 p0 (runMatch evs m).
Proof.
  induction evs as [|ev evs IH]; intros m Hm; [done|].
  apply IH. destruct ev; [by apply match_ok_select|by apply match_ok_check].
Qed.

Lemma tilesOf_length pairs : length (tilesOf pairs) = (2 * length pairs)%nat.
Proof. induction pairs as [|p pairs IH]; simpl; [done|]. rewrite IH. lia. Qed.

Lemma tilesOf_Forall pairs :
  Forall (λ t, (∃ p, p ∈ pairs ∧ id p = cardId t)
               ∧ matched t = false ∧ selected t = false) (tilesOf pairs).
Proof.
  induction pairs as [|p pairs IH]; simpl; [done|].
  do 2 (constructor; [split; [exists p; split; [left|done]|done]|]).
  eapply Forall_impl; [done|]. intros t [(p' & ? & ?) ?].
  split; [|done]. exists p'. split; [by right|done].
Qed.

Lemma matchedTiles_none g :
  Forall (λ t, matched t = false) g → matchedTiles g = 0%nat.
Proof.
  unfold matchedTiles. induction 1 as [|t g Ht _ IH]; [done|].
  rewrite filter_cons, decide_False by congruence. done.
Qed.

Lemma slice0_6_length {A} (a : list A) :
  length (slice0 6 a) = (6 `min` length a)%nat.
Proof.
  unfold slice0. change (6 <? 0)%Z with false. cbv iota zeta.
  rewrite length_take. lia.
Qed.

Lemma match_ok_start rnd (m : Manager) :
  StudyModesManager.cards m ≠ [] → StudyModesManager.sessionEnded m = false →
  match_ok (slice0 6 (StudyModesManager.cards m)) (StudyModesManager.stats m)
    (StudyModesManager.performance m) (startMatchMode rnd m).
Proof.
  intros Hcards Hend. unfold match_ok, startMatchMode. simpl.
  set (pairs := slice0 6 (StudyModesManager.cards m)).
  pose proof (tilesOf_Forall pairs) as Htiles.
  rewrite <-(shuffled_Permutation rnd (tilesOf pairs)) in Htiles.
  split; [done|]. split; [by rewrite shuffled_length, tilesOf_length|].
  split; [eapply Forall_impl; [done|]; by intros t [? _]|].
  split.
  { rewrite matchedTiles_none; [lia|].
    eapply Forall_impl; [done|]. by intros t (_ & ? & _). }
  split; [constructor|]. split; [lia|]. split; [done|]. split.
  { intros i t Hi Hs. rewrite Forall_lookup in Htiles.
    destruct (Htiles i t Hi) as (_ & _ & ?). congruence. }
  split; [lia|]. split; [lia|]. split.
  { exists []. by rewrite app_nil_r. }
  rewrite Hend. split; [done|]. unfold pairs. rewrite slice0_6_length.
  destruct (StudyModesManager.cards m); simpl; [done|lia].
Qed.

(** X20: a match game.  For a set with cards, whatever tiles are clicked
    and whenever the timer fires (the restart button apart): the game is
    played with the first six cards of the set in priority order, two tiles
    a card; the tiles marked as matched are twice the pairs counted; the
    session ends exactly when every pair is matched; [cardsStudied] and
    [correctCount] both count the matched pairs (a wrong pair adds to
    [incorrectCount] alone), each with one performance record, marked
    correct, of a card of the game; at most two tiles are selected, none of
    them matched. *)
Theorem match_session s0 count rnd dbCards evs :
  dbCards ≠ [] →
  let m := runMatch evs (startMatchMode rnd (loadSet s0 count dbCards)) in
  let n := (6 `min` length dbCards)%nat in
  matchPairs m = take 6 (sortCardsByPriority s0 dbCards)
  ∧ length (matchPairs m) = n
  ∧ length (grid m) = (2 * n)%nat
  ∧ matchedTiles (grid m) = (2 * matchedPairs m)%nat
  ∧ (matchedPairs m ≤ n)%nat
  ∧ (sessionEnded m = true ↔ matchedPairs m = n)
  ∧ cardsStudied (stats m) = matchedPairs m
  ∧ correctCount (stats m) = matchedPairs m
  ∧ length (performance m) = matchedPairs m
  ∧ (∀ r, r ∈ performance m →
       r.2 = true ∧ ∃ card, card ∈ matchPairs m ∧ r.1 = id card)
  ∧ (length (selectedTiles m) ≤ 2)%nat
  ∧ (∀ i, i ∈ selectedTiles m →
       ∃ t, grid m !! i = Some t ∧ matched t = false ∧ selected t = true).
Proof.
  intros Hdb m n.
  set (m0 := loadSet s0 count dbCards) in *.
  assert (StudyModesManager.cards m0 = sortCardsByPriority s0 dbCards)
    as Hsorted by done.
  assert (length (StudyModesManager.cards m0) = length dbCards) as Hlength
    by (by rewrite Hsorted, sortCardsByPriority_length).
  assert (StudyModesManager.cards m0 ≠ []) as Hcards.
  { intros Hnil. rewrite Hnil in Hlength. by destruct dbCards. }
  assert (match_ok (slice0 6 (StudyModesManager.cards m0))
            (StudyModesManager.stats m0) (StudyModesManager.performance m0) m)
    as Hm by (by apply match_ok_run, match_ok_start).
  assert (slice0 6 (StudyModesManager.cards m0)
          = take 6 (sortCardsByPriority s0 dbCards)) as Hslice.
  { rewrite <-Hsorted. unfold slice0. change (6 <? 0)%Z with false.
    cbv iota zeta.
    destruct (decide (6 ≤ length (StudyModesManager.cards m0))%nat).
    - f_equal. lia.
    - rewrite !take_ge; [done|lia..]. }
  assert (length (slice0 6 (StudyModesManager.cards m0)) = n) as Hn
    by (by rewrite slice0_6_length, Hlength).
  clearbody m.
  destruct Hm as (Hpairs & Hlen & Hids & Hcount & Hnodup & Hle & Hsel & Hall
    & Hstudied & Hcorrect & (records & Hperf & Hlr & Hrs) & Hend).
  rewrite Hn in Hlen, Hend. simpl in Hstudied, Hcorrect, Hperf.
  split; [by rewrite Hpairs|]. split; [by rewrite Hpairs|].
  split; [done|]. split; [done|].
  split; [pose proof (matchedTiles_le (grid m)); lia|].
  split; [done|]. split; [done|]. split; [done|].
  split; [by rewrite Hperf|]. split.
  { intros r Hr. rewrite Hperf in Hr. rewrite Forall_forall in Hrs.
    rewrite Hpairs. by apply Hrs. }
  split; [done|]. by apply Forall_forall.
Qed.

(** X20: the hypothesis of [match_session] holds for a set of two cards. *)
Lemma match_session_witness :
  let dbCards := [mkCard 1 "a" "A" 2.5 0 0 0; mkCard 2 "b" "B" 2.5 0 0 0] in
  let evs := [ClickTile 0; ClickTile 3; TimerFires; ClickTile 0; ClickTile 1;
              TimerFires; ClickTile 2] in
  let m := runMatch evs (startMatchMode (λ _, 0%fin)
                           (loadSet (steady 1000) None dbCards)) in
  let n := (6 `min` length dbCards)%nat in
  matchPairs m = take 6 (sortCardsByPriority (steady 1000) dbCards)
  ∧ length (matchPairs m) = n
  ∧ length (grid m) = (2 * n)%nat
  ∧ matchedTiles (grid m) = (2 * matchedPairs m)%nat
  ∧ (matchedPairs m ≤ n)%nat
  ∧ (sessionEnded m = true ↔ matchedPairs m = n)
  ∧ cardsStudied (stats m) = matchedPairs m
  ∧ correctCount (stats m) = matchedPairs m
  ∧ length (performance m) = matchedPairs m
  ∧ (∀ r, r ∈ performance m →
       r.2 = true ∧ ∃ card, card ∈ matchPairs m ∧ r.1 = id card)
  ∧ (length (selectedTiles m) ≤ 2)%nat
  ∧ (∀ i, i ∈ selectedTiles m →
       ∃ t, grid m !! i = Some t ∧ matched t = false ∧ selected t = true).
Proof.
  apply (match_session (steady 1000) None (λ _, 0%fin)
           [mkCard 1 "a" "A" 2.5 0 0 0; mkCard 2 "b" "B" 2.5 0 0 0]
           [ClickTile 0; ClickTile 3; TimerFires; ClickTile 0; ClickTile 1;
            TimerFires; ClickTile 2]).
  discriminate.
Defined.

Lemma setClasses_lookup_Some i a b g k t' :
  setClasses i a b g !! k = Some t' →
  ∃ t, g !! k = Some t ∧ cardId t' = cardId t ∧ type t' = type t
       ∧ matched t' = if decide (k = i) then a else matched t.
Proof.
  rewrite setClasses_lookup. destruct (decide (k = i)) as [->|].
  - destruct (g !! i) as [t|]; [|done]. intros [= <-]. by exists t.
  - intros Hk. by exists t'.
Qed.

Lemma match_once_flags p0 m g' :
  (∀ k t', g' !! k = Some t' →
     ∃ t, grid m !! k = Some t ∧ cardId t' = cardId t ∧ type t' = type t
          ∧ matched t' = matched t) →
  match_once p0 m →
  match_once p0
    {| matchPairs := matchPairs m; grid := g';
       selectedTiles := selectedTiles m; matchedPairs := matchedPairs m;
       stats := stats m; performance := performance m;
       sessionEnded := sessionEnded m |}.
Proof.
  intros Hg (Hkeys & records & Hperf & Hnodup & Hrec). split; simpl.
  - intros i j t t' Hi Hj Hid Hty.
    destruct (Hg i t Hi) as (u & Hu & Hu1 & Hu2 & _).
    destruct (Hg j t' Hj) as (u' & Hu' & Hu1' & Hu2' & _).
    apply (Hkeys i j u u'); congruence.
  - exists records. split; [done|]. split; [done|]. intros i t Hi.
    destruct (Hg i t Hi) as (u & Hu & Hu1 & _ & Hu3).
    rewrite Hu3, Hu1. apply (Hrec i u Hu).
Qed.

Lemma match_once_select p0 i m :
  match_once p0 m → match_once p0 (selectMatchTile i m).
Proof.
  intros Hm. unfold selectMatchTile.
  destruct (grid m !! i) as [t|] eqn:Hi; [|done].
  destruct (matched t || selected t); [done|].
  destruct (2 <=? length (selectedTiles m))%nat; [done|].
  pose proof (match_once_flags p0 m (setClasses i (matched t) true (grid m)))
    as Hflags.
  destruct Hflags as [Hkeys Hrec]; [|done|].
  - intros k t' (u & Hu & ? & ? & Hmu)%setClasses_lookup_Some.
    exists u. repeat split; try done.
    destruct (decide (k = i)) as [->|]; [|done]. congruence.
  - split; [done|]. done.
Qed.

Lemma match_once_check pairs s0 p0 m :
  match_ok pairs s0 p0 m → match_once p0 m → match_once p0 (checkMatch m).
Proof.
  intros (Hpairs & _ & Hids & _ & Hnodup & _ & Hsel & _) Honce.
  unfold checkMatch.
  destruct (selectedTiles m) as [|i [|j [|? ?]]] eqn:Hs; try done.
  apply Forall_cons in Hsel as [(first & Hi & Hmi & Hsi) Hsel].
  apply Forall_cons in Hsel as [(second & Hj & Hmj & Hsj) _].
  rewrite Hi, Hj.
  assert (i ≠ j) as Hij.
  { apply NoDup_cons in Hnodup as [Hnot _]. intros ->. apply Hnot. left. }
  destruct (bool_decide (cardId first = cardId second)
            && negb (bool_decide (type first = type second))) eqn:Hmatch.
  - apply andb_prop in Hmatch as [Hid%bool_decide_eq_true Hty%negb_true_iff].
    apply bool_decide_eq_false in Hty.
    destruct (proj1 (Forall_lookup _ _) Hids i first Hi) as (p & Hp & Hidp).
    destruct (List.find _ (matchPairs m)) as [card|] eqn:Hfind; cycle 1.
    { exfalso. pose proof (find_none _ _ Hfind p) as Hnone'.
      rewrite Hpairs, <-list_elem_of_In in Hnone'. specialize (Hnone' Hp).
      by rewrite bool_decide_eq_false in Hnone'. }
    apply find_some in Hfind as [_ Hcid%bool_decide_eq_true].
    destruct Honce as (Hkeys & records & Hperf & Hnd & Hrec).
    split; simpl.
    + intros k l t t'
        (u & Hu & ? & ? & _)%setClasses_lookup_Some
        (u' & Hu' & ? & ? & _)%setClasses_lookup_Some ? ?.
      apply setClasses_lookup_Some in Hu as (v & Hv & ? & ? & _).
      apply setClasses_lookup_Some in Hu' as (v' & Hv' & ? & ? & _).
      apply (Hkeys k l v v'); congruence.
    + exists (records ++ [(id card, true)]). rewrite Hperf, app_assoc.
      split; [done|]. rewrite fmap_app. simpl. split.
      * apply NoDup_app. split; [done|]. split; [|apply NoDup_singleton].
        intros x Hx ->%list_elem_of_singleton. rewrite Hcid in Hx.
        apply (Hrec i first Hi) in Hx. congruence.
      * intros k t (u & Hu & Hu1 & Hu2 & Hu3)%setClasses_lookup_Some.
        apply setClasses_lookup_Some in Hu as (v & Hv & Hv1 & Hv2 & Hv3).
        rewrite elem_of_app, list_elem_of_singleton, Hu3, Hu1, Hv1, Hcid.
        destruct (decide (k = j)) as [->|Hkj].
        { split; [|done]. intros _. right. congruence. }
        rewrite Hv3. destruct (decide (k = i)) as [->|Hki].
        { split; [|done]. intros _. right. congruence. }
        rewrite (Hrec k v Hv). split; [by left|]. intros [?|Heq]; [done|].
        exfalso. destruct (decide (type v = type first)) as [Hsame|Hdiff].
        -- apply Hki. by apply (Hkeys k i v first).
        -- apply Hkj. apply (Hkeys k j v second); [done..|congruence|].
           destruct (type v), (type first), (type second); congruence.
  - pose proof (match_once_flags p0 m
      (setClasses j (matched second) false
         (setClasses i (matched first) false (grid m)))) as Hflags.
    destruct Hflags as [Hkeys Hrec]; [|done|].
    + intros k t' (u & Hu & ? & ? & Hmu)%setClasses_lookup_Some.
      apply setClasses_lookup_Some in Hu as (v & Hv & ? & ? & Hmv).
      exists v. repeat split; try congruence.
      rewrite Hmu. destruct (decide (k = j)) as [->|]; [congruence|].
      rewrite Hmv. destruct (decide (k = i)) as [->|]; [congruence|done].
    + split; [done|]. done.
Qed.

Lemma match_both_run pairs s0 p0 evs : ∀ m,
  match_ok pairs s0 p0 m → match_once p0 m →
  match_ok pairs s0 p0 (runMatch evs m) ∧ match_once p0 (runMatch evs m).
Proof.
  induction evs as [|ev evs IH]; intros m Hm Honce; [done|].
  apply IH; destruct ev.
  - by apply match_ok_select.
  - by apply match_ok_check.
  - by apply match_once_select.
  - by eapply match_once_check.
Qed.

Lemma tilesOf_keys pairs :
  (λ t, (cardId t, type t)) <$> tilesOf pairs
  = flat_map (λ p, [(id p, Front); (id p, Back)]) pairs.
Proof.
  induction pairs as [|p pairs IH]; [done|].
  change (tilesOf (p :: pairs))
    with ([mkTile (id p) (front p) Front false false;
           mkTile (id p) (back p) Back false false] ++ tilesOf pairs).
  by rewrite fmap_app, IH.
Qed.

Lemma keys_NoDup (ids : list Z) :
  NoDup ids → NoDup (flat_map (λ x, [(x, Front); (x, Back)]) ids).
Proof.
  induction 1 as [|x ids Hx _ IH]; simpl; [constructor|].
  assert (∀ ty, (x, ty) ∉ flat_map (λ x, [(x, Front); (x, Back)]) ids) as Hnot.
  { intros ty Hin. apply list_elem_of_In, in_flat_map in Hin as (y & Hy & Hin).
    apply list_elem_of_In in Hy.
    simpl in Hin. destruct Hin as [[= ->]|[[= ->]|[]]]; done. }
  constructor; [|constructor; [apply Hnot|done]].
  rewrite not_elem_of_cons. split; [done|apply Hnot].
Qed.

Lemma match_once_start rnd (m : Manager) :
  NoDup (id <$> StudyModesManager.cards m) →
  match_once (StudyModesManager.performance m) (startMatchMode rnd m).
Proof.
  intros Hnodup. unfold match_once, startMatchMode. simpl.
  set (pairs := slice0 6 (StudyModesManager.cards m)).
  split.
  - assert (NoDup ((λ t, (cardId t, type t)) <$> shuffled rnd (tilesOf pairs)))
      as Hkeys.
    { assert (NoDup ((λ t, (cardId t, type t)) <$> tilesOf pairs)) as Hk;
        [|by rewrite shuffled_Permutation].
      rewrite tilesOf_keys.
      assert (flat_map (λ p, [(id p, Front); (id p, Back)]) pairs
              = flat_map (λ x, [(x, Front); (x, Back)]) (id <$> pairs)) as ->.
      { clear. induction pairs as [|p pairs IH]; simpl; [done|]. by rewrite IH. }
      apply keys_NoDup. unfold pairs, slice0. rewrite fmap_take.
      eapply sublist_NoDup; [done|apply sublist_take]. }
    intros i j t t' Hi Hj Hid Hty.
    apply (NoDup_lookup _ i j (cardId t, type t) Hkeys).
    + by rewrite list_lookup_fmap, Hi.
    + rewrite list_lookup_fmap, Hj. simpl. congruence.
  - exists []. rewrite app_nil_r. split; [done|]. split; [constructor|].
    intros i t Hi. rewrite elem_of_nil.
    pose proof (tilesOf_Forall pairs) as Htiles.
    rewrite <-(shuffled_Permutation rnd (tilesOf pairs)) in Htiles.
    rewrite Forall_lookup in Htiles. destruct (Htiles i t Hi) as (_ & -> & _).
    done.
Qed.

(** X21: with distinct card ids, no card is recorded twice in a match
    game, and a tile is marked as matched exactly when its card has been
    recorded. *)
Theorem match_session_once s0 count rnd dbCards evs :
  dbCards ≠ [] → NoDup (id <$> dbCards) →
  let m := runMatch evs (startMatchMode rnd (loadSet s0 count dbCards)) in
  NoDup (performance m).*1
  ∧ ∀ i t, grid m !! i = Some t →
      (matched t = true ↔ cardId t ∈ (performance m).*1).
Proof.
  intros Hdb Hnodup m.
  set (m0 := loadSet s0 count dbCards) in *.
  assert (StudyModesManager.cards m0 ≡ₚ dbCards) as Hperm.
  { unfold m0, loadSet, sortCardsByPriority. simpl. apply Array_sort_perm. }
  assert (StudyModesManager.cards m0 ≠ []) as Hcards.
  { intros Hnil. rewrite Hnil in Hperm. apply Permutation_nil_l in Hperm.
    by subst. }
  assert (NoDup (id <$> StudyModesManager.cards m0)) as Hnodup'
    by (by rewrite Hperm).
  destruct (match_both_run _ _ _ evs _
              (match_ok_start rnd m0 Hcards eq_refl)
              (match_once_start rnd m0 Hnodup'))
    as [_ (_ & records & Hperf & Hnd & Hrec)].
  fold m in Hperf, Hrec. simpl in Hperf. by rewrite Hperf.
Qed.

(** X21: the hypotheses of [match_session_once] hold for a set of two
    cards. *)
Lemma match_session_once_witness :
  let dbCards := [mkCard 1 "a" "A" 2.5 0 0 0; mkCard 2 "b" "B" 2.5 0 0 0] in
  let evs := [ClickTile 0; ClickTile 3; TimerFires; ClickTile 0; ClickTile 1;
              TimerFires; ClickTile 2] in
  let m := runMatch evs (startMatchMode (λ _, 0%fin)
                           (loadSet (steady 1000) None dbCards)) in
  NoDup (performance m).*1
  ∧ ∀ i t, grid m !! i = Some t →
      (matched t = true ↔ cardId t ∈ (performance m).*1).
Proof.
  apply (match_session_once (steady 1000) None (λ _, 0%fin)
           [mkCard 1 "a" "A" 2.5 0 0 0; mkCard 2 "b" "B" 2.5 0 0 0]
           [ClickTile 0; ClickTile 3; TimerFires; ClickTile 0; ClickTile 1;
            TimerFires; ClickTile 2]).
  - discriminate.
  - apply NoDup_cons. split; [by intros ?%list_elem_of_singleton|].
    apply NoDup_singleton.
Defined.

End MatchFacts.

(** ** Deleting a set, deleting a card *)

Section StoreFacts.
Import ObjectStores.
Context {SetData CardData SessionData PerformanceData : Type}.
Local Abbreviation Db := (@Database SetData CardData SessionData PerformanceData).

Lemma elem_of_getByIndex {R} (store : gmap Z (Z * R)) value k r :
  (k, r) ∈ getByIndex store value ↔ store !! k = Some r ∧ r.1 = value.
Proof.
  unfold getByIndex. rewrite list_elem_of_filter, merge_sort_Permutation.
  rewrite elem_of_map_to_list. simpl. tauto.
Qed.

Lemma getByIndex_nil {R} (store : gmap Z (Z * R)) value :
  (∀ k r, store !! k = Some r → r.1 ≠ value) → getByIndex store value = [].
Proof.
  intros Hnone. destruct (getByIndex store value) as [|[k r] l] eqn:Hl; [done|].
  assert ((k, r) ∈ getByIndex store value) as Hin by (rewrite Hl; left).
  apply elem_of_getByIndex in Hin as [Hk Hr]. by destruct (Hnone k r Hk).
Qed.

(** Deleting the records of a list from one store. *)
Lemma delete_performances (db : Db) (l : list (Z * (Z * PerformanceData))) :
  let db' := foldl (λ db perf, delete_record CardPerformance perf.1 db) db l in
  sets db' = sets db ∧ cards db' = cards db ∧ sessions db' = sessions db
  ∧ ∀ k p, cardPerformance db' !! k = Some p
           ↔ cardPerformance db !! k = Some p ∧ k ∉ l.*1.
Proof.
  revert db. induction l as [|[k0 r0] l IH]; intros db; cbv zeta; cbn [foldl fst].
  { do 3 (split; [done|]). intros k p.
    split; [intros ?; split; [done|apply not_elem_of_nil]|by intros [? _]]. }
  specialize (IH (delete_record CardPerformance k0 db)). cbv zeta in IH.
  destruct IH as (-> & -> & -> & Hp). rewrite fmap_cons. cbn [fst].
  do 3 (split; [done|]). intros k p. rewrite Hp. simpl.
  rewrite lookup_delete_Some, not_elem_of_cons. intuition congruence.
Qed.

Lemma delete_sessions (db : Db) (l : list (Z * (Z * SessionData))) :
  let db' := foldl (λ db session, delete_record Sessions session.1 db) db l in
  sets db' = sets db ∧ cards db' = cards db
  ∧ cardPerformance db' = cardPerformance db
  ∧ ∀ k s, sessions db' !! k = Some s
           ↔ sessions db !! k = Some s ∧ k ∉ l.*1.
Proof.
  revert db. induction l as [|[k0 r0] l IH]; intros db; cbv zeta; cbn [foldl fst].
  { do 3 (split; [done|]). intros k p.
    split; [intros ?; split; [done|apply not_elem_of_nil]|by intros [? _]]. }
  specialize (IH (delete_record Sessions k0 db)). cbv zeta in IH.
  destruct IH as (-> & -> & -> & Hp). rewrite fmap_cons. cbn [fst].
  do 3 (split; [done|]). intros k p. rewrite Hp. simpl.
  rewrite lookup_delete_Some, not_elem_of_cons. intuition congruence.
Qed.

Lemma keys_getByIndex {R} (store : gmap Z (Z * R)) value k :
  k ∈ (getByIndex store value).*1
  ↔ ∃ r, store !! k = Some r ∧ r.1 = value.
Proof.
  rewrite list_elem_of_fmap. split.
  - intros ([k' r] & -> & Hin). exists r. by apply elem_of_getByIndex.
  - intros (r & Hr). exists (k, r). split; [done|]. by apply elem_of_getByIndex.
Qed.

(** The loop over the cards of [deleteSet]. *)
Lemma delete_cards (db : Db) (l : list (Z * (Z * CardData))) :
  let db' :=
    foldl (λ db card,
             let db := delete_record Cards card.1 db in
             let performances := getByIndex (cardPerformance db) card.1 in
             foldl (λ db perf, delete_record CardPerformance perf.1 db)
                   db performances)
          db l in
  sets db' = sets db ∧ sessions db' = sessions db
  ∧ (∀ k c, cards db' !! k = Some c ↔ cards db !! k = Some c ∧ k ∉ l.*1)
  ∧ ∀ k p, cardPerformance db' !! k = Some p
           ↔ cardPerformance db !! k = Some p ∧ p.1 ∉ l.*1.
Proof.
  revert db. induction l as [|[k0 r0] l IH]; intros db; cbv zeta; cbn [foldl fst].
  { do 2 (split; [done|]).
    split; intros k p;
      (split; [intros ?; split; [done|apply not_elem_of_nil]|by intros [? _]]). }
  set (db1 := delete_record Cards k0 db).
  pose proof (delete_performances db1 (getByIndex (cardPerformance db1) k0))
    as (Hs & Hc & Hse & Hp). cbv zeta in Hs, Hc, Hse, Hp.
  set (db2 := foldl _ db1 _) in *.
  specialize (IH db2). cbv zeta in IH.
  destruct IH as (-> & -> & Hcards & Hperf). rewrite fmap_cons. cbn [fst].
  rewrite Hs, Hse. do 2 (split; [done|]). split; intros k p.
  - rewrite Hcards, Hc. simpl.
    rewrite lookup_delete_Some, not_elem_of_cons. intuition congruence.
  - rewrite Hperf, Hp, keys_getByIndex, not_elem_of_cons. simpl. split.
    + intros [[Hk Hnot] Hl]. split; [done|]. split; [|done].
      intros Heq. apply Hnot. by exists p.
    + intros [Hk [? ?]]. split; [|done]. split; [done|].
      intros (r & Hr & ?). congruence.
Qed.

(** X22: [deleteSet] deletes the set, its cards, its sessions and the
    performance records of its cards, and nothing else: a card or a session
    stays exactly when it belongs to another set, a performance record
    exactly when its card was not a card of the set.  Afterwards the set has
    no card and no session, and none of its former cards has a performance
    record. *)
Theorem deleteSet_cascade id (db : Db) :
  let db' := deleteSet id db in
  sets db' = delete id (sets db)
  ∧ (∀ k c, cards db' !! k = Some c ↔ cards db !! k = Some c ∧ c.1 ≠ id)
  ∧ (∀ k s, sessions db' !! k = Some s
            ↔ sessions db !! k = Some s ∧ s.1 ≠ id)
  ∧ (∀ k p, cardPerformance db' !! k = Some p
            ↔ cardPerformance db !! k = Some p
              ∧ ¬ ∃ c, cards db !! p.1 = Some c ∧ c.1 = id)
  ∧ getCardsBySetId id db' = []
  ∧ getByIndex (sessions db') id = []
  ∧ (∀ k c, cards db !! k = Some c → c.1 = id →
            getByIndex (cardPerformance db') k = []).
Proof.
  intros db'.
  set (db1 := delete_record Sets id db).
  pose proof (delete_cards db1 (getCardsBySetId id db1))
    as (Hsets & Hsessions & Hcards & Hperf).
  cbv zeta in Hsets, Hsessions, Hcards, Hperf.
  set (db2 := foldl _ db1 (getCardsBySetId id db1)) in *.
  pose proof (delete_sessions db2 (getByIndex (sessions db2) id))
    as (Hsets' & Hcards' & Hperf' & Hsessions').
  cbv zeta in Hsets', Hcards', Hperf', Hsessions'.
  change (foldl _ db2 _) with db' in *.
  assert (∀ k c, cards db' !! k = Some c ↔ cards db !! k = Some c ∧ c.1 ≠ id)
    as Hc.
  { intros k c. rewrite Hcards', Hcards. unfold getCardsBySetId.
    rewrite keys_getByIndex. simpl. split.
    - intros [Hk Hnot]. split; [done|]. intros Heq. apply Hnot. by exists c.
    - intros [Hk Hne]. split; [done|]. intros (r & Hr & ?). congruence. }
  assert (∀ k s, sessions db' !! k = Some s
                 ↔ sessions db !! k = Some s ∧ s.1 ≠ id) as Hs.
  { intros k s. rewrite Hsessions', keys_getByIndex, Hsessions. simpl. split.
    - intros [Hk Hnot]. split; [done|]. intros Heq. apply Hnot. by exists s.
    - intros [Hk Hne]. split; [done|]. intros (r & Hr & ?). congruence. }
  assert (∀ k p, cardPerformance db' !! k = Some p
            ↔ cardPerformance db !! k = Some p
              ∧ ¬ ∃ c, cards db !! p.1 = Some c ∧ c.1 = id) as Hp.
  { intros k p. rewrite Hperf', Hperf. unfold getCardsBySetId.
    rewrite keys_getByIndex. done. }
  split; [by rewrite Hsets', Hsets|]. split; [done|]. split; [done|].
  split; [done|]. split; [|split].
  - apply getByIndex_nil. intros k r Hk. by apply Hc in Hk as [_ ?].
  - apply getByIndex_nil. intros k r Hk. by apply Hs in Hk as [_ ?].
  - intros k c Hk Hid. apply getByIndex_nil. intros k' p Hk' Heq.
    apply Hp in Hk' as [_ Hnot]. apply Hnot. exists c. by rewrite Heq.
Qed.

(** X23: [deleteCard] deletes the card and the performance records of
    the card, and nothing else: the sets and the sessions (with the counts
    they hold) are unchanged, and a performance record stays exactly when it
    belongs to another card. *)
Theorem deleteCard_cascade id (db : Db) :
  let db' := deleteCard id db in
  sets db' = sets db ∧ sessions db' = sessions db
  ∧ cards db' = delete id (cards db)
  ∧ (∀ k p, cardPerformance db' !! k = Some p
            ↔ cardPerformance db !! k = Some p ∧ p.1 ≠ id)
  ∧ getByIndex (cardPerformance db') id = [].
Proof.
  intros db'.
  pose proof (delete_performances db (getByIndex (cardPerformance db) id))
    as (Hsets & Hcards & Hsessions & Hperf).
  cbv zeta in Hsets, Hcards, Hsessions, Hperf.
  unfold db', deleteCard. cbv zeta. set (db1 := foldl _ db _) in *. simpl.
  split; [done|]. split; [done|]. split; [by rewrite Hcards|].
  assert (∀ k p, cardPerformance db1 !! k = Some p
            ↔ cardPerformance db !! k = Some p ∧ p.1 ≠ id) as Hp.
  { intros k p. rewrite Hperf, keys_getByIndex. split.
    - intros [Hk Hnot]. split; [done|]. intros Heq. apply Hnot. by exists p.
    - intros [Hk Hne]. split; [done|]. intros (r & Hr & ?). congruence. }
  split; [done|].
  apply getByIndex_nil. intros k p Hk. by apply Hp in Hk as [_ ?].
Qed.

End StoreFacts.
